(** * Storage REST server: framing protocol, request validation, error
      classification and bootstrap checks of [cmd/storage-rest-server.go].

    The development is a shallow embedding: each Go function of the source
    file is a Rocq function of the same name, Go errors are an inductive
    type, byte slices are [list byte], machine integers are [N] or [Z] with
    the truncation written out, and the goroutine that owns the connection
    is a transition function over the events it selects on. *)

From Stdlib Require Import List NArith ZArith Bool Arith Lia.
From Stdlib Require Import Strings.Byte.
From Equations Require Import Equations.
Import ListNotations.

Set Implicit Arguments.

(** ** Go errors *)

(** Package-level error values.  Go compares them by identity
    ([switch err], [==]); here they are the constructors of an enumeration. *)
Inductive sentinel : Type :=
| errDiskStale
| errDiskNotFound
| errFileNotFound
| errFileVersionNotFound
| errInvalidAccessKeyID
| errAccessKeyDisabled
| errNoAuthToken
| errMalformedAuth
| errAuthentication
| errSkewedAuthTime
| context_Canceled
| context_DeadlineExceeded
| errInvalidArgument
| errUnformattedDisk
| errUnsupportedDisk
| errDiskAccessDenied
| errFileAccessDenied
| errDiskNotDir
| errFaultyDisk
| errXLBackend
| errDiskFull
| io_EOF
| io_ErrUnexpectedEOF.

(** An [error] value: a package-level value, a fresh [errors.New(text)], the
    [fmt.Errorf("unexpected filler byte: %d", b)] of the stream readers, or
    an error wrapping another one with added context ([fmt.Errorf("...%w")]).
    [None : option error] is Go's [nil]. *)
Inductive error : Type :=
| Sentinel (s : sentinel)
| errors_New (text : list byte)
| unexpected_filler_byte (b : byte)
| Wrapped (context : list byte) (cause : error).

Coercion Sentinel : sentinel >-> error.

Definition sentinel_eq_dec (a b : sentinel) : {a = b} + {a <> b}.
Proof. decide equality. Defined.

Definition error_eq_dec (a b : error) : {a = b} + {a <> b}.
Proof.
  decide equality; try apply sentinel_eq_dec; try apply Byte.byte_eq_dec;
    apply (list_eq_dec Byte.byte_eq_dec).
Defined.

(** ** Bytes and [encoding/binary] *)

Module binary.

(** Go's conversion [byte(v)] of an unsigned integer: the low eight bits. *)
Definition byte_of_N (v : N) : byte :=
  match Byte.of_N (v mod 256) with
  | Some b => b
  | None => x00
  end.

(** [uint32(n)] of a non-negative [int]: the low 32 bits. *)
Definition uint32 (n : N) : N := n mod 2 ^ 32.

(** [binary.LittleEndian.PutUint32(b, v)]. *)
Definition PutUint32 (v : N) : list byte :=
  [ byte_of_N v;
    byte_of_N (N.shiftr v 8);
    byte_of_N (N.shiftr v 16);
    byte_of_N (N.shiftr v 24) ].

(** [binary.LittleEndian.Uint32(b)] on a four byte buffer. *)
Definition Uint32 (b : list byte) : N :=
  match b with
  | [b0; b1; b2; b3] =>
      N.lor (N.lor (N.lor (Byte.to_N b0) (N.shiftl (Byte.to_N b1) 8))
                   (N.shiftl (Byte.to_N b2) 16))
            (N.shiftl (Byte.to_N b3) 24)
  | _ => 0
  end%N.

End binary.

(** ** Readers and writers of package [io]

    A response body is the finite list of bytes still to be read; a read at
    the empty list reports [io.EOF].  The destination [w io.Writer] of the
    client is the list of bytes written to it so far. *)

Module io.

(** [io.ReadFull(r, buf)] with [len(buf) = n]: the bytes read, the rest of
    the stream, and the error ([io.EOF] when nothing could be read,
    [io.ErrUnexpectedEOF] when the stream ended part way). *)
Definition ReadFull (r : list byte) (n : nat)
  : list byte * list byte * option error :=
  let buf := firstn n r in
  let rest := skipn n r in
  if length buf =? n then (buf, rest, None)
  else if length buf =? 0 then (buf, rest, Some (Sentinel io_EOF))
  else (buf, rest, Some (Sentinel io_ErrUnexpectedEOF)).

(** [io.CopyBuffer(w, io.LimitReader(r, n), buf)]: copies at most [n]
    bytes; returns the destination, the rest of the stream and the number
    of bytes copied.  End of stream is not an error of a copy. *)
Definition CopyLimit (w r : list byte) (n : nat)
  : list byte * list byte * nat :=
  let chunk := firstn n r in
  (w ++ chunk, skipn n r, length chunk).

(** [io.CopyBuffer(w, r, buf)] to the end of the stream. *)
Definition CopyBuffer (w r : list byte) : list byte := w ++ r.

(** [io.ReadAll(r)]. *)
Definition ReadAll (r : list byte) : list byte := r.

End io.

(** ** Client side of the framing protocol *)

(** [waitForHTTPResponse]: the payload reader (the rest of the stream) or
    the error. *)
Fixpoint waitForHTTPResponse (respBody : list byte)
  : option (list byte) * option error :=
  match respBody with
  | [] => (None, Some (Sentinel io_EOF))
  | b :: reader =>
      match Byte.to_N b with
      | 0%N => (Some reader, None)
      | 1%N => (None, Some (errors_New (io.ReadAll reader)))
      | 32%N => waitForHTTPResponse reader
      | _ => (None, Some (unexpected_filler_byte b))
      end
  end.

(** [waitForHTTPStream respBody w]: the contents of [w] on return and the
    error returned.  Every turn of the loop consumes the tag byte, so the
    recursion is well founded on the length of the stream. *)
#[local] Obligation Tactic := idtac.

Equations? waitForHTTPStream (respBody : list byte) (w : list byte)
  : list byte * option error by wf (length respBody) lt :=
  waitForHTTPStream [] w := (w, Some (Sentinel io_EOF));
  waitForHTTPStream (tag :: respBody') w :=
    match Byte.to_N tag with
    | 0%N => (io.CopyBuffer w respBody', None)
    | 1%N => (w, Some (errors_New (io.ReadAll respBody')))
    | 2%N =>
        let hdr := io.ReadFull respBody' 4 in
        match snd hdr with
        | Some err => (w, Some err)
        | None =>
            let length' := binary.Uint32 (fst (fst hdr)) in
            let cp := io.CopyLimit w (snd (fst hdr)) (N.to_nat length') in
            if N.eqb (N.of_nat (snd cp)) length'
            then waitForHTTPStream (snd (fst cp)) (fst (fst cp))
            else (fst (fst cp), Some (Sentinel io_ErrUnexpectedEOF))
        end
    | 32%N => waitForHTTPStream respBody' w
    | _ => (w, Some (unexpected_filler_byte tag))
    end.
Proof.
  all: repeat match goal with x := _ |- _ => subst x end;
    unfold io.CopyLimit, io.ReadFull; repeat destruct (_ =? _);
    cbn [fst snd length]; rewrite ?length_skipn; lia.
Qed.

(** ** Server side of the framing protocol *)

Module http.

(** The [http.ResponseWriter] as the framing code sees it: the bytes put
    on the wire so far and, for a connection that breaks, the number of
    further bytes it still accepts ([None]: the connection never fails).
    [Flush] does not change the byte sequence and is left out. *)
Record ResponseWriter : Type :=
  { wire : list byte; quota : option nat }.

(** [w.Write(b)]: the writer afterwards, the count written, and whether
    the returned error is non-nil. *)
Definition Write (w : ResponseWriter) (b : list byte)
  : ResponseWriter * nat * bool :=
  match quota w with
  | None => ({| wire := wire w ++ b; quota := None |}, length b, false)
  | Some q =>
      if length b <=? q
      then ({| wire := wire w ++ b; quota := Some (q - length b) |},
            length b, false)
      else ({| wire := wire w ++ firstn q b; quota := Some 0 |}, q, true)
  end.

Definition reliable (wire0 : list byte) : ResponseWriter :=
  {| wire := wire0; quota := None |}.

End http.

(** The variables shared by the [write] closure of each keep-alive task:
    the response writer and the [canWrite] flag. *)
Record conn : Type :=
  { canWrite : bool; w : http.ResponseWriter }.

(** The closure [write := func(b []byte) { if canWrite { ... } }]. *)
Definition write (c : conn) (b : list byte) : conn :=
  if canWrite c then
    match http.Write (w c) b with
    | (w', n, err) =>
        if err || negb (n =? length b)
        then {| canWrite := false; w := w' |}
        else {| canWrite := true; w := w' |}
    end
  else c.

(** [err != nil]. *)
Definition notnil (e : option error) : bool :=
  match e with
  | Some _ => true
  | None => false
  end.

Section Framing.

(** The method [err.Error()]: the text of an error.  The texts of the
    package-level errors are declared outside this file. *)
Variable Error : error -> list byte.

(** The terminal write shared by the three tasks:
    [if err != nil { write({1}); write(err.Error()) } else { write({0}) }]. *)
Definition write_terminal (c : conn) (err : option error) : conn :=
  match err with
  | Some e => write (write c [x01]) (Error e)
  | None => write c [x00]
  end.

(** The bytes of a terminal frame. *)
Definition terminal_frame (err : option error) : list byte :=
  match err with
  | Some e => x01 :: Error e
  | None => [x00]
  end.

(** *** [keepHTTPResponseAlive] *)

(** What the task and the returned closure can be asked to do: the ticker
    fires, or the handler calls the returned function with [err]. *)
Inductive alive_op : Type :=
| alive_tick
| alive_done (err : option error).

(** [doneCh_nil]: the closure has set its [doneCh] to nil.
    [exited]: the task has returned (and closed [doneCh]). *)
Record alive : Type :=
  { alive_doneCh_nil : bool; alive_exited : bool; alive_conn : conn }.

Definition keepHTTPResponseAlive (w0 : http.ResponseWriter) : alive :=
  {| alive_doneCh_nil := false; alive_exited := false;
     alive_conn := {| canWrite := true; w := w0 |} |}.

(** One step; [None] when the calling goroutine cannot proceed (a send on
    the closed channel). *)
Definition alive_step (s : alive) (op : alive_op) : option alive :=
  match op with
  | alive_tick =>
      if alive_exited s then Some s
      else Some {| alive_doneCh_nil := alive_doneCh_nil s;
                   alive_exited := false;
                   alive_conn := write (alive_conn s) [x20] |}
  | alive_done err =>
      if alive_doneCh_nil s then Some s
      else if alive_exited s then None
      else Some {| alive_doneCh_nil := true;
                   alive_exited := true;
                   alive_conn := write_terminal (alive_conn s) err |}
  end.

(** *** [keepHTTPReqResponseAlive] *)

Inductive req_op : Type :=
| req_ctx_Done
| req_bodyDone
| req_tick
| req_done (err : option error).

(** [req_draining]: the task is still in its first [select], waiting for
    the body to be read; the ticker does not exist yet. *)
Record req_alive : Type :=
  { req_doneCh_nil : bool; req_exited : bool; req_draining : bool;
    req_conn : conn }.

Definition keepHTTPReqResponseAlive (w0 : http.ResponseWriter) : req_alive :=
  {| req_doneCh_nil := false; req_exited := false; req_draining := true;
     req_conn := {| canWrite := true; w := w0 |} |}.

Definition req_step (s : req_alive) (op : req_op) : option req_alive :=
  match op with
  | req_ctx_Done | req_bodyDone =>
      if req_exited s then Some s
      else
      Some {| req_doneCh_nil := req_doneCh_nil s;
              req_exited := req_exited s;
              req_draining := false;
              req_conn := req_conn s |}
  | req_tick =>
      if req_exited s || req_draining s then Some s
      else Some {| req_doneCh_nil := req_doneCh_nil s;
                   req_exited := false;
                   req_draining := false;
                   req_conn := write (req_conn s) [x20] |}
  | req_done err =>
      if req_doneCh_nil s then Some s
      else if req_exited s then None
      else Some {| req_doneCh_nil := true;
                   req_exited := true;
                   req_draining := req_draining s;
                   req_conn := write_terminal (req_conn s) err |}
  end.

(** *** [streamHTTPResponse] and [httpStreamResponse] *)

(** The handle [h]: whether [h.done] is nil, and [h.err]; together with
    the task that owns the connection. *)
Record httpStreamResponse : Type :=
  { done_nil : bool; err : option error;
    stream_exited : bool; stream_conn : conn }.

Definition streamHTTPResponse (w0 : http.ResponseWriter) : httpStreamResponse :=
  {| done_nil := false; err := None; stream_exited := false;
     stream_conn := {| canWrite := true; w := w0 |} |}.

(** The [case block := <-blockCh] arm of the task. *)
Definition write_block (c : conn) (block : list byte) : conn :=
  let tmp := x02 :: binary.PutUint32 (binary.uint32 (N.of_nat (length block))) in
  write (write c tmp) block.

Inductive stream_op : Type :=
| stream_tick
| Write (b : list byte)
| CloseWithError (err : option error).

(** One step; [None] when the caller blocks for ever (a send on [h.block]
    after the task has returned) or panics (a send on closed [h.done]). *)
Definition stream_step (h : httpStreamResponse) (op : stream_op)
  : option httpStreamResponse :=
  match op with
  | stream_tick =>
      if stream_exited h then Some h
      else Some {| done_nil := done_nil h; err := err h;
                   stream_exited := false;
                   stream_conn := write (stream_conn h) [x20] |}
  | Write b =>
      if (length b =? 0) || notnil (err h) then Some h
      else if stream_exited h then None
      else Some {| done_nil := done_nil h; err := err h;
                   stream_exited := false;
                   stream_conn := write_block (stream_conn h) b |}
  | CloseWithError e =>
      if done_nil h then Some h
      else if stream_exited h then None
      else Some {| done_nil := true; err := e;
                   stream_exited := true;
                   stream_conn := write_terminal (stream_conn h) e |}
  end.

(** The operations of the producer, as opposed to ticks of the timer. *)
Definition is_call (op : stream_op) : bool :=
  match op with
  | stream_tick => false
  | _ => true
  end.

(** Running a schedule of operations. *)
Fixpoint run {S O : Type} (step : S -> O -> option S) (s : S) (ops : list O)
  : option S :=
  match ops with
  | [] => Some s
  | op :: ops' =>
      match step s op with
      | Some s' => run step s' ops'
      | None => None
      end
  end.

End Framing.

(** ** Package [time] *)

Module time.

(** A [time.Duration] is an [int64] count of nanoseconds. *)
Definition minDuration : Z := - 2 ^ 63.
Definition maxDuration : Z := 2 ^ 63 - 1.

(** Wrap-around of [int64] arithmetic. *)
Definition int64 (z : Z) : Z := ((z + 2 ^ 63) mod 2 ^ 64 - 2 ^ 63)%Z.

Definition Nanosecond : Z := 1.
Definition Second : Z := 1000000000 * Nanosecond.
Definition Minute : Z := 60 * Second.

(** A wall-clock [time.Time] (no monotonic reading, as [time.Parse] and
    [UTCNow()] return them): nanoseconds since the Unix epoch.
    [t.Sub(u)]: "if the result exceeds the maximum (or minimum) value that
    can be stored in a Duration, the maximum (or minimum) duration will be
    returned". *)
Definition Sub (t u : Z) : Z :=
  (if t - u <? minDuration then minDuration
   else if t - u >? maxDuration then maxDuration
   else t - u)%Z.

End time.

(** [DefaultSkewTime]: skew time is 15 minutes between minio peers. *)
Definition DefaultSkewTime : Z := 15 * time.Minute.

(** ** Error responses *)

(** Modelled from the spec: [unwrapAll], a helper of package cmd declared
    outside this file.  "Classification first unwraps nested causes so that
    added context from intermediate layers never defeats matching against
    the root condition": it follows [errors.Unwrap] to the innermost
    error. *)
Fixpoint unwrapAll (err : error) : error :=
  match err with
  | Wrapped _ cause => unwrapAll cause
  | _ => err
  end.

(** [errors.Is(err, target)] for a package-level [target]: some error of the
    chain of [err] is [target]. *)
Fixpoint errors_Is (err : error) (target : sentinel) : bool :=
  match err with
  | Sentinel s => if sentinel_eq_dec s target then true else false
  | Wrapped _ cause => errors_Is cause target
  | _ => false
  end.

Module StatusCode.
Definition StatusUnauthorized : N := 401.
Definition StatusForbidden : N := 403.
Definition StatusNotFound : N := 404.
Definition StatusPreconditionFailed : N := 412.
End StatusCode.

(** What a handler has put into its [http.ResponseWriter]: the status of
    [WriteHeader] and the body. *)
Record response : Type :=
  { status : N; body : list byte }.

Section Gateway.

Variable Error : error -> list byte.

(** [writeErrorResponse]. *)
Definition writeErrorResponse (err : error) : response :=
  let err := unwrapAll err in
  {| status :=
       match err with
       | Sentinel errDiskStale => StatusCode.StatusPreconditionFailed
       | Sentinel errFileNotFound
       | Sentinel errFileVersionNotFound => StatusCode.StatusNotFound
       | Sentinel errInvalidAccessKeyID
       | Sentinel errAccessKeyDisabled
       | Sentinel errNoAuthToken
       | Sentinel errMalformedAuth
       | Sentinel errAuthentication
       | Sentinel errSkewedAuthTime => StatusCode.StatusUnauthorized
       | Sentinel context_Canceled
       | Sentinel context_DeadlineExceeded => 499%N
       | _ => StatusCode.StatusForbidden
       end;
     body := Error err |}.

(** *** Request authentication *)

(** The parts of an [*http.Request] the validation reads. *)
Record Request : Type :=
  { Authorization : list byte;      (* the Authorization header *)
    X_Minio_Time : list byte;       (* the X-Minio-Time header *)
    RawQuery : list byte;           (* r.URL.RawQuery *)
    PostForm : list byte }.         (* what r.ParseForm() decodes *)

(** Result of [jwtreq.AuthorizationHeaderExtractor.ExtractToken]. *)
Inductive extracted : Type :=
| Token (token : list byte)
| ErrNoTokenInRequest
| ErrExtract.

(** The fields of [xjwt.StandardClaims] that are compared. *)
Record StandardClaims : Type :=
  { AccessKey : list byte; Subject : list byte; Audience : list byte }.

(** [globalActiveCred]. *)
Record Credentials : Type :=
  { cred_AccessKey : list byte; cred_SecretKey : list byte }.

(** Library functions the validation calls; they are declared outside this
    file and taken as parameters: the token extractor, the verification of
    a token against a secret ([None]: it returned an error), and
    [time.Parse(time.RFC3339, s)] ([None]: it returned an error). *)
Variable ExtractToken : Request -> extracted.
Variable ParseWithStandardClaims :
  list byte -> list byte -> option StandardClaims.
Variable time_Parse : list byte -> option Z.

Definition bytes_eqb (a b : list byte) : bool :=
  if list_eq_dec Byte.byte_eq_dec a b then true else false.

(** [storageServerRequestValidate r], with the globals it reads:
    [globalActiveCred] and the clock [UTCNow()]. *)
Definition storageServerRequestValidate
    (globalActiveCred : Credentials) (UTCNow : Z) (r : Request)
  : option error :=
  match ExtractToken r with
  | ErrNoTokenInRequest => Some (Sentinel errNoAuthToken)
  | ErrExtract => Some (Sentinel errMalformedAuth)
  | Token token =>
      match ParseWithStandardClaims token (cred_SecretKey globalActiveCred) with
      | None => Some (Sentinel errAuthentication)
      | Some claims =>
          let owner :=
            bytes_eqb (AccessKey claims) (cred_AccessKey globalActiveCred)
            || bytes_eqb (Subject claims) (cred_AccessKey globalActiveCred) in
          if negb owner then Some (Sentinel errAuthentication)
          else if negb (bytes_eqb (Audience claims) (RawQuery r))
          then Some (Sentinel errAuthentication)
          else
            match time_Parse (X_Minio_Time r) with
            | None => Some (Sentinel errMalformedAuth)
            | Some requestTime =>
                let utcNow := UTCNow in
                let delta := time.Sub requestTime utcNow in
                let delta :=
                  if (delta <? 0)%Z then time.int64 (delta * -1) else delta in
                if (delta >? DefaultSkewTime)%Z
                then Some (Sentinel errSkewedAuthTime)
                else None
            end
      end
  end.

(** *** Disk lookup and identity validation *)

(** The methods of [StorageAPI] used here. *)
Record StorageAPI : Type :=
  { GetDiskID : list byte * option error;
    DiskInfo : bool -> list byte * option error }.

(** [globalLocalSetDrives]; [None] is a nil entry. *)
Definition Drives : Type := list (list (list (option StorageAPI))).

Record storageRESTServer : Type :=
  { poolIndex : nat; setIndex : nat; diskIndex : nat }.

(** The table entry of the server's coordinate, when the coordinate is
    inside the table. *)
Definition slot (globalLocalSetDrives : Drives) (s : storageRESTServer)
  : option (option StorageAPI) :=
  match nth_error globalLocalSetDrives (poolIndex s) with
  | Some sets =>
      match nth_error sets (setIndex s) with
      | Some disks => nth_error disks (diskIndex s)
      | None => None
      end
  | None => None
  end.

(** [getStorage].  The table is sized from the topology that gives every
    server its coordinate; a coordinate outside the table (a run-time
    panic in Go) is read as nil here and excluded in the statements. *)
Definition getStorage (globalLocalSetDrives : Drives) (s : storageRESTServer)
  : option StorageAPI :=
  match slot globalLocalSetDrives s with
  | Some entry => entry
  | None => None
  end.

(** The process state the gateway reads. *)
Record Globals : Type :=
  { globalLocalSetDrives : Drives;
    globalActiveCred : Credentials;
    UTCNow : Z }.

(** [r.ParseForm()] followed by [r.Form.Get(storageRESTDiskID)]: an error,
    or the disk-id parameter. *)
Variable ParseForm_diskID : Request -> error + list byte.

(** [IsAuthValid]: the verdict and what was written to [w]. *)
Definition IsAuthValid (g : Globals) (s : storageRESTServer) (r : Request)
  : bool * option response :=
  match getStorage (globalLocalSetDrives g) s with
  | None => (false, Some (writeErrorResponse (Sentinel errDiskNotFound)))
  | Some _ =>
      match storageServerRequestValidate (globalActiveCred g) (UTCNow g) r with
      | Some err => (false, Some (writeErrorResponse err))
      | None => (true, None)
      end
  end.

(** [IsValid]. *)
Definition IsValid (g : Globals) (s : storageRESTServer) (r : Request)
  : bool * option response :=
  match IsAuthValid g s r with
  | (false, w) => (false, w)
  | (true, w) =>
      match ParseForm_diskID r with
      | inl err => (false, Some (writeErrorResponse err))
      | inr diskID =>
          if bytes_eqb diskID [] then (true, w)
          else
            match getStorage (globalLocalSetDrives g) s with
            | None => (false, w)  (* nil dereference; excluded by IsAuthValid *)
            | Some storage =>
                match GetDiskID storage with
                | (_, Some err) => (false, Some (writeErrorResponse err))
                | (storedDiskID, None) =>
                    if negb (bytes_eqb diskID storedDiskID)
                    then (false, Some (writeErrorResponse (Sentinel errDiskStale)))
                    else (true, w)
                end
            end
      end
  end.

(** [checkID]. *)
Definition checkID (g : Globals) (s : storageRESTServer) (wantID : list byte)
  : bool :=
  match getStorage (globalLocalSetDrives g) s with
  | None => false
  | Some storage =>
      if bytes_eqb wantID [] then true
      else
        match GetDiskID storage with
        | (_, Some _) => false
        | (storedDiskID, None) => bytes_eqb wantID storedDiskID
        end
  end.

(** [grid.NewRemoteErr(err)]: the error as it travels to the caller. *)
Inductive RemoteErr : Type :=
| NewRemoteErr (err : error).

(** [DiskInfoHandler], on the disk-id and metrics parameters of the call:
    the disk information with its [Error] field, or the remote error. *)
Definition DiskInfoHandler (g : Globals) (s : storageRESTServer)
    (diskID : list byte) (withMetrics : bool)
  : option (list byte * list byte) * option RemoteErr :=
  if negb (checkID g s diskID)
  then (None, Some (NewRemoteErr (Sentinel errDiskNotFound)))
  else
    match getStorage (globalLocalSetDrives g) s with
    | None => (None, None)  (* excluded by checkID *)
    | Some storage =>
        match DiskInfo storage withMetrics with
        | (info, Some err) => (Some (info, Error err), None)
        | (info, None) => (Some (info, []), None)
        end
    end.

End Gateway.

(** ** Disk bootstrap *)

(** Modelled from the spec: [countErrs], a helper of package cmd declared
    outside this file.  "Every failure carries the identical classified
    condition": it counts the entries of [errs] that are [err] or carry it
    in their chain ([errors.Is]); a nil entry is never counted. *)
Definition countErrs (errs : list (option error)) (err : sentinel) : nat :=
  length (filter (fun err1 =>
                    match err1 with
                    | Some e => errors_Is e err
                    | None => false
                    end) errs).

(** [checkDiskFatalErrs]. *)
Definition checkDiskFatalErrs (errs : list (option error)) : option error :=
  if countErrs errs errUnsupportedDisk =? length errs
  then Some (Sentinel errUnsupportedDisk)
  else if countErrs errs errDiskAccessDenied =? length errs
  then Some (Sentinel errDiskAccessDenied)
  else if countErrs errs errFileAccessDenied =? length errs
  then Some (Sentinel errDiskAccessDenied)
  else if countErrs errs errDiskNotDir =? length errs
  then Some (Sentinel errDiskNotDir)
  else if countErrs errs errFaultyDisk =? length errs
  then Some (Sentinel errFaultyDisk)
  else if countErrs errs errXLBackend =? length errs
  then Some (Sentinel errXLBackend)
  else None.

(** Modelled from the spec: the two calls [logFatalErrs] makes into the
    logger package, which is declared outside this file.  "A fatal
    bootstrap condition terminates the process with a diagnostic and a
    remediation hint; a non-fatal one logs once and enters the retry loop":
    [logger.Fatal] ends the process, [logger.LogOnceIf] returns. *)
Inductive logged : Type :=
| Fatal
| LogOnce.

(** [logFatalErrs err endpoint exit]; the hint texts are left out. *)
Definition logFatalErrs (err : error) (exit : bool) : logged :=
  if errors_Is err errXLBackend then Fatal
  else if errors_Is err errUnsupportedDisk then Fatal
  else if errors_Is err errDiskNotDir then Fatal
  else if errors_Is err errDiskAccessDenied then
    if negb exit then LogOnce else Fatal
  else if errors_Is err errFaultyDisk then
    if negb exit then LogOnce else Fatal
  else if errors_Is err errDiskFull then
    if negb exit then LogOnce else Fatal
  else
    if negb exit then LogOnce else Fatal.

(** How the attachment of one local disk in [registerStorageRESTHandlers]
    ends: published in the table after some number of 3-second sleeps, the
    process ended by [logger.Fatal], or still retrying when the list of
    attempt results is used up. *)
Inductive attachment : Type :=
| Attached (sleeps : nat)
| ProcessExit (err : error)
| Retrying (sleeps : nat).

(** [createStorage] and the retry goroutine around it.  [attempts] lists the
    results of the successive [newXLStorage(endpoint, false)] calls ([None]:
    no error); the first attempt is made at once, every later one after
    [time.Sleep(3 * time.Second)]. *)
Fixpoint attach (attempts : list (option error)) (sleeps : nat) : attachment :=
  match attempts with
  | [] => Retrying sleeps
  | None :: _ => Attached sleeps
  | Some err :: later =>
      match logFatalErrs err false with
      | Fatal => ProcessExit err
      | LogOnce => attach later (S sleeps)
      end
  end.

(** ** Wire vocabulary used in the statements *)

(** [frames s]: the bytes [s] are a sequence of whole non-terminal frames,
    heartbeats and length-prefixed data blocks. *)
Inductive frames : list byte -> Prop :=
| frames_nil : frames []
| frames_heartbeat (s : list byte) :
    frames s -> frames (x20 :: s)
| frames_block (b0 b1 b2 b3 : byte) (payload s : list byte) :
    N.of_nat (length payload) = binary.Uint32 [b0; b1; b2; b3] ->
    frames s ->
    frames (x02 :: b0 :: b1 :: b2 :: b3 :: payload ++ s).

(** ** Session states used in the statements *)

(** The handle of [streamHTTPResponse] over a connection that accepts every
    write, while the task runs with [l] on the wire, and after a close with
    [e]. *)
Definition streaming (l : list byte) : httpStreamResponse :=
  {| done_nil := false; err := None; stream_exited := false;
     stream_conn := {| canWrite := true; w := http.reliable l |} |}.

Definition closed (e : option error) (l : list byte) : httpStreamResponse :=
  {| done_nil := true; err := e; stream_exited := true;
     stream_conn := {| canWrite := true; w := http.reliable l |} |}.

(** A connection on which every write has succeeded so far and every later
    one will. *)
Definition healthy (c : conn) : Prop :=
  canWrite c = true /\ http.quota (w c) = None.

(** The session of [keepHTTPResponseAlive] while its task runs over the
    connection [c], and after the first completion call. *)
Definition alive_running (c : conn) : alive :=
  {| alive_doneCh_nil := false; alive_exited := false; alive_conn := c |}.

Definition alive_finished (c : conn) : alive :=
  {| alive_doneCh_nil := true; alive_exited := true; alive_conn := c |}.

(** The same for [keepHTTPReqResponseAlive]; [d]: the body is still being
    read. *)
Definition req_running (d : bool) (c : conn) : req_alive :=
  {| req_doneCh_nil := false; req_exited := false; req_draining := d;
     req_conn := c |}.

Definition req_finished (d : bool) (c : conn) : req_alive :=
  {| req_doneCh_nil := true; req_exited := true; req_draining := d;
     req_conn := c |}.

(** The same for [streamHTTPResponse]; [e] is the retained [h.err]. *)
Definition stream_open (c : conn) : httpStreamResponse :=
  {| done_nil := false; err := None; stream_exited := false;
     stream_conn := c |}.

Definition stream_shut (e : option error) (c : conn) : httpStreamResponse :=
  {| done_nil := true; err := e; stream_exited := true; stream_conn := c |}.

(** Completion calls among the operations of a schedule. *)
Definition req_is_done (op : req_op) : bool :=
  match op with
  | req_done _ => true
  | _ => false
  end.

Definition is_close (op : stream_op) : bool :=
  match op with
  | CloseWithError _ => true
  | _ => false
  end.

(** An operation that returns once the stream is closed with [e]: a tick,
    a further close, or a write that is ignored (an empty block, or any
    block once [h.err] is set). *)
Definition returns_after_close (e : option error) (op : stream_op) : bool :=
  match op with
  | Write b => (length b =? 0) || notnil e
  | _ => true
  end.

(** ** Vocabulary of the classification and validation statements *)

(** An error under layers of added context, outermost first. *)
Definition wrap (layers : list (list byte)) (err : error) : error :=
  fold_right Wrapped err layers.

(** The skew test of [storageServerRequestValidate] on [requestTime] and
    [utcNow]: saturating subtraction, absolute value in [int64], comparison
    with [DefaultSkewTime]. *)
Definition skewed (requestTime utcNow : Z) : bool :=
  let delta := time.Sub requestTime utcNow in
  let delta := if (delta <? 0)%Z then time.int64 (delta * -1) else delta in
  (delta >? DefaultSkewTime)%Z.

(** The conditions [checkDiskFatalErrs] looks for. *)
Definition recognized : list sentinel :=
  [errUnsupportedDisk; errDiskAccessDenied; errFileAccessDenied;
   errDiskNotDir; errFaultyDisk; errXLBackend].

(** The entry [e] of an error list is an error carrying the condition [c]. *)
Definition carries (c : sentinel) (e : option error) : Prop :=
  exists e', e = Some e' /\ errors_Is e' c = true.

(** ** Fixtures of the closed examples *)

(** Stand-ins for the token library: the token is the Authorization header
    and its claims name the token as access key and the one-byte query
    [q] as audience. *)
Definition example_ExtractToken (r : Request) : extracted :=
  Token (Authorization r).

Definition example_Parse (token secret : list byte) : option StandardClaims :=
  Some {| AccessKey := token; Subject := []; Audience := [x71] |}.

(** The node's credential: access key [a]. *)
Definition example_cred : Credentials :=
  {| cred_AccessKey := [x61]; cred_SecretKey := [x73] |}.

(** A request signed with [key], whose query string is [q]. *)
Definition example_request (key : list byte) : Request :=
  {| Authorization := key; X_Minio_Time := []; RawQuery := [x71];
     PostForm := [] |}.

(** A table with one pool, one set and one disk. *)
Definition example_storage (id : list byte) : StorageAPI :=
  {| GetDiskID := (id, None); DiskInfo := fun _ => ([], None) |}.

Definition example_globals (entry : option StorageAPI) : Globals :=
  {| globalLocalSetDrives := [[[entry]]];
     globalActiveCred := example_cred;
     UTCNow := 0 |}.

Definition example_server : storageRESTServer :=
  {| poolIndex := 0; setIndex := 0; diskIndex := 0 |}.

(** ** Frames and their payload *)

(** [framed s data]: the bytes [s] are a sequence of whole heartbeat and
    data-block frames, and [data] is the concatenation of the payloads of
    the blocks, in order. *)
Inductive framed : list byte -> list byte -> Prop :=
| framed_nil : framed [] []
| framed_heartbeat (s data : list byte) :
    framed s data -> framed (x20 :: s) data
| framed_block (b0 b1 b2 b3 : byte) (payload s data : list byte) :
    N.of_nat (length payload) = binary.Uint32 [b0; b1; b2; b3] ->
    framed s data ->
    framed (x02 :: b0 :: b1 :: b2 :: b3 :: payload ++ s) (payload ++ data).

(** What can follow the whole frames of a stream: nothing, a data block cut
    short (in its length bytes or in its payload), or a byte that is neither
    the heartbeat nor the block tag. *)
Definition ends_frames (tail : list byte) : Prop :=
  match tail with
  | [] => True
  | tag :: rest =>
      tag <> x20
      /\ (tag = x02 ->
          length rest < 4
          \/ exists b0 b1 b2 b3 avail,
              rest = b0 :: b1 :: b2 :: b3 :: avail
              /\ (N.of_nat (length avail) < binary.Uint32 [b0; b1; b2; b3])%N)
  end.

(** ** What a session may do to its connection *)

(** [extends c c']: the wire of [c'] is that of [c] with bytes appended;
    if [c] had failed nothing at all has changed; and a failed connection
    is never writable again. *)
Definition extends (c c' : conn) : Prop :=
  (exists suffix, http.wire (w c') = http.wire (w c) ++ suffix)
  /\ (canWrite c = false -> c' = c)
  /\ (canWrite c' = true -> canWrite c = true).

(** ** The table of local drives *)

(** The fields of an entry of [EndpointServerPools] that size the table. *)
Record PoolEndpoints : Type :=
  { SetCount : nat; DrivesPerSet : nat }.

(** The allocation of [globalLocalSetDrives] at the start of
    [registerStorageRESTHandlers]: one row per pool, [SetCount] sets in it
    and [DrivesPerSet] nil entries in each set. *)
Definition make_globalLocalSetDrives (endpointServerPools : list PoolEndpoints)
  : Drives :=
  map (fun pool => repeat (repeat None (DrivesPerSet pool)) (SetCount pool))
    endpointServerPools.

(** The indexed assignment [l[i] = ...] on the element [f] makes of the old
    one; [None] when the index is out of range (a run-time panic in Go). *)
Fixpoint assign {A : Type} (l : list A) (i : nat) (f : A -> option A)
  : option (list A) :=
  match l, i with
  | [], _ => None
  | x :: l', 0 =>
      match f x with
      | Some y => Some (y :: l')
      | None => None
      end
  | x :: l', S i' =>
      match assign l' i' f with
      | Some l'' => Some (x :: l'')
      | None => None
      end
  end.

(** How a call of the closure [createStorage] ends: it returns true having
    appended to [globalLocalDrives] and assigned the table entry, it returns
    false, the process is ended by [logger.Fatal], or the assignment
    panics. *)
Inductive created : Type :=
| created_true (localDrives : list StorageAPI) (setDrives : Drives)
| created_false
| created_exit (err : error)
| created_panic.

(** [createStorage(server)] on the lists it updates and on the result of
    [newXLStorage(endpoint, false)], the storage being the one wrapped by
    [newXLStorageDiskIDCheck]. *)
Definition createStorage (localDrives : list StorageAPI) (setDrives : Drives)
    (server : storageRESTServer) (newXLStorage : error + StorageAPI)
  : created :=
  match newXLStorage with
  | inl err =>
      match logFatalErrs err false with
      | Fatal => created_exit err
      | LogOnce => created_false
      end
  | inr storage =>
      match
        assign setDrives (poolIndex server) (fun sets =>
          assign sets (setIndex server) (fun disks =>
            assign disks (diskIndex server) (fun _ => Some (Some storage))))
      with
      | Some setDrives' => created_true (localDrives ++ [storage]) setDrives'
      | None => created_panic
      end
  end.

(** ** [closeNotifier] *)

(** Whether [c.done] is nil, and whether the channel it was created with
    has been closed. *)
Record closeNotifier : Type :=
  { notifier_done_nil : bool; notifier_closed : bool }.

(** As [keepHTTPReqResponseAlive] creates it. *)
Definition new_closeNotifier : closeNotifier :=
  {| notifier_done_nil := false; notifier_closed := false |}.

(** [Read], with the error of the wrapped reader, and [Close]. *)
Inductive notifier_op : Type :=
| notifier_Read (err : option error)
| notifier_Close.

(** [if c.done != nil { close(c.done); c.done = nil }]; closing a closed
    channel panics ([None]). *)
Definition notify (c : closeNotifier) : option closeNotifier :=
  if notifier_done_nil c then Some c
  else if notifier_closed c then None
  else Some {| notifier_done_nil := true; notifier_closed := true |}.

Definition notifier_step (c : closeNotifier) (op : notifier_op)
  : option closeNotifier :=
  match op with
  | notifier_Read err => if notnil err then notify c else Some c
  | notifier_Close => notify c
  end.

(** A call that makes the notifier signal. *)
Definition signals (op : notifier_op) : bool :=
  match op with
  | notifier_Read err => notnil err
  | notifier_Close => true
  end.

(** ** HTTP handlers *)

(** How a handler ends: with an error response (the one [IsValid] wrote, or
    one it wrote itself through [writeErrorResponse]), by returning with the
    response writer as it then stands, or by a panic. *)
Inductive handled : Type :=
| Refused (resp : option response)
| Returned (w : http.ResponseWriter)
| Panicked.

Section Handlers.

Variable Error : error -> list byte.
Variable ExtractToken : Request -> extracted.
Variable ParseWithStandardClaims :
  list byte -> list byte -> option StandardClaims.
Variable time_Parse : list byte -> option Z.
Variable ParseForm_diskID : Request -> error + list byte.

(** [r.Form.Get(key)], and the parameter names, which are constants
    declared outside this file. *)
Variable Form_Get : Request -> list byte -> list byte.
Variable storageRESTVolume storageRESTFilePath storageRESTGlob : list byte.

(** The methods of the storage the handlers call. *)
Variable StorageAPI_WriteAll :
  StorageAPI -> list byte -> list byte -> list byte -> option error.
Variable StorageAPI_AppendFile :
  StorageAPI -> list byte -> list byte -> list byte -> option error.
Variable StorageAPI_CleanAbandonedData :
  StorageAPI -> list byte -> list byte -> option error.
Variable StatInfo : Type.
Variable StorageAPI_StatInfoFile :
  StorageAPI -> list byte -> list byte -> bool -> list StatInfo * option error.
Variable FileInfo : Type.
Variable StorageAPI_VerifyFile :
  StorageAPI -> list byte -> list byte -> FileInfo -> option error.

(** The encoders and the decoder of other packages: [msgp.Encode] of a
    [StatInfo], [msgp.Decode] of a [FileInfo], and the gob encoding of a
    [VerifyFileResp] whose [Err] is nil or [StorageErr(text)]. *)
Variable msgp_Encode : StatInfo -> list byte.
Variable msgp_Decode : list byte -> error + FileInfo.
Variable gob_Encode : option (list byte) -> list byte.

(** [WriteAllHandler], on [r.ContentLength] and the bytes [r.Body]
    yields. *)
Definition WriteAllHandler (g : Globals) (s : storageRESTServer) (r : Request)
    (ContentLength : Z) (Body : list byte) (w0 : http.ResponseWriter)
  : handled :=
  match IsValid Error ExtractToken ParseWithStandardClaims time_Parse
          ParseForm_diskID g s r with
  | (false, resp) => Refused resp
  | (true, _) =>
      let volume := Form_Get r storageRESTVolume in
      let filePath := Form_Get r storageRESTFilePath in
      if (ContentLength <? 0)%Z
      then Refused (Some (writeErrorResponse Error (Sentinel errInvalidArgument)))
      else
        let read := io.ReadFull Body (Z.to_nat ContentLength) in
        match snd read with
        | Some err => Refused (Some (writeErrorResponse Error err))
        | None =>
            match getStorage (globalLocalSetDrives g) s with
            | None => Panicked
            | Some storage =>
                match StorageAPI_WriteAll storage volume filePath
                        (fst (fst read)) with
                | Some err => Refused (Some (writeErrorResponse Error err))
                | None => Returned w0
                end
            end
        end
  end.

(** [AppendFileHandler]: [make([]byte, r.ContentLength)] panics on a
    negative length. *)
Definition AppendFileHandler (g : Globals) (s : storageRESTServer)
    (r : Request) (ContentLength : Z) (Body : list byte)
    (w0 : http.ResponseWriter)
  : handled :=
  match IsValid Error ExtractToken ParseWithStandardClaims time_Parse
          ParseForm_diskID g s r with
  | (false, resp) => Refused resp
  | (true, _) =>
      let volume := Form_Get r storageRESTVolume in
      let filePath := Form_Get r storageRESTFilePath in
      if (ContentLength <? 0)%Z then Panicked
      else
        let read := io.ReadFull Body (Z.to_nat ContentLength) in
        match snd read with
        | Some err => Refused (Some (writeErrorResponse Error err))
        | None =>
            match getStorage (globalLocalSetDrives g) s with
            | None => Panicked
            | Some storage =>
                match StorageAPI_AppendFile storage volume filePath
                        (fst (fst read)) with
                | Some err => Refused (Some (writeErrorResponse Error err))
                | None => Returned w0
                end
            end
        end
  end.

(** A handler that wraps one storage call in [keepHTTPResponseAlive]:
    [done := keepHTTPResponseAlive(w); ...; done(err)], the ticker firing
    [ticks] times while the storage works.  The writer afterwards; the call
    of [done] returns, this being its first. *)
Definition kept_alive (w0 : http.ResponseWriter) (ticks : nat)
    (err : option error) : option http.ResponseWriter :=
  match run (alive_step Error) (keepHTTPResponseAlive w0)
          (repeat alive_tick ticks ++ [alive_done err]) with
  | Some session => Some (w (alive_conn session))
  | None => None
  end.

(** [CleanAbandonedDataHandler]. *)
Definition CleanAbandonedDataHandler (g : Globals) (s : storageRESTServer)
    (r : Request) (w0 : http.ResponseWriter) (ticks : nat)
  : handled :=
  match IsValid Error ExtractToken ParseWithStandardClaims time_Parse
          ParseForm_diskID g s r with
  | (false, resp) => Refused resp
  | (true, _) =>
      let volume := Form_Get r storageRESTVolume in
      let filePath := Form_Get r storageRESTFilePath in
      if bytes_eqb volume [] || bytes_eqb filePath []
      then Returned w0
      else
        match getStorage (globalLocalSetDrives g) s with
        | None => Panicked
        | Some storage =>
            match kept_alive w0 ticks
                    (StorageAPI_CleanAbandonedData storage volume filePath) with
            | Some w1 => Returned w1
            | None => Panicked
            end
        end
  end.

(** [StatInfoFile]. *)
Definition StatInfoFile (g : Globals) (s : storageRESTServer) (r : Request)
    (w0 : http.ResponseWriter) (ticks : nat)
  : handled :=
  match IsValid Error ExtractToken ParseWithStandardClaims time_Parse
          ParseForm_diskID g s r with
  | (false, resp) => Refused resp
  | (true, _) =>
      let volume := Form_Get r storageRESTVolume in
      let filePath := Form_Get r storageRESTFilePath in
      let glob := Form_Get r storageRESTGlob in
      match getStorage (globalLocalSetDrives g) s with
      | None => Panicked
      | Some storage =>
          let result :=
            StorageAPI_StatInfoFile storage volume filePath
              (bytes_eqb glob [x74; x72; x75; x65]) in
          match kept_alive w0 ticks (snd result) with
          | Some w1 =>
              if notnil (snd result) then Returned w1
              else
                Returned
                  (fold_left
                     (fun w' si => fst (fst (http.Write w' (msgp_Encode si))))
                     (fst result) w1)
          | None => Panicked
          end
      end
  end.

(** [VerifyFileHandler]. *)
Definition VerifyFileHandler (g : Globals) (s : storageRESTServer)
    (r : Request) (ContentLength : Z) (Body : list byte)
    (w0 : http.ResponseWriter) (ticks : nat)
  : handled :=
  match IsValid Error ExtractToken ParseWithStandardClaims time_Parse
          ParseForm_diskID g s r with
  | (false, resp) => Refused resp
  | (true, _) =>
      let volume := Form_Get r storageRESTVolume in
      let filePath := Form_Get r storageRESTFilePath in
      if (ContentLength <? 0)%Z
      then Refused (Some (writeErrorResponse Error (Sentinel errInvalidArgument)))
      else
        match msgp_Decode Body with
        | inl err => Refused (Some (writeErrorResponse Error err))
        | inr fi =>
            match getStorage (globalLocalSetDrives g) s with
            | None => Panicked
            | Some storage =>
                let err := StorageAPI_VerifyFile storage volume filePath fi in
                match kept_alive w0 ticks None with
                | Some w1 =>
                    let vresp :=
                      match err with
                      | Some err' => Some (Error err')
                      | None => None
                      end in
                    Returned (fst (fst (http.Write w1 (gob_Encode vresp))))
                | None => Panicked
                end
            end
        end
  end.

End Handlers.

(** ** Fixtures of the handler examples *)

(** Every error has the text [e]; the timestamp is the clock's; the form
    carries no disk-id and answers every key with the key itself. *)
Definition example_Error (e : error) : list byte := [x65].

Definition example_time_Parse (s : list byte) : option Z := Some 0%Z.

Definition example_ParseForm (r : Request) : error + list byte := inr [].

Definition example_Form_Get (r : Request) (key : list byte) : list byte := key.

(** The one-disk table with a storage attached. *)
Definition example_attached : Globals :=
  example_globals (Some (example_storage [x64])).

(** ** A connection that breaks *)

(** [cut q0 cq cr]: [cq] is what becomes of the connection [cr], on which
    every write succeeds, when the transport accepts [q0] bytes in all and
    then fails: it holds the first [q0] bytes of what [cr] holds, and it is
    writable as long as [cr] holds no more than that. *)
Definition cut (q0 : nat) (cq cr : conn) : Prop :=
  canWrite cr = true
  /\ http.quota (w cr) = None
  /\ http.wire (w cq) = firstn q0 (http.wire (w cr))
  /\ http.quota (w cq) = Some (q0 - length (http.wire (w cq)))
  /\ canWrite cq = (length (http.wire (w cr)) <=? q0).

(** * Properties *)

(** ** Little-endian length prefix *)

Module binary_facts.
Import binary.

Lemma to_N_byte_of_N (v : N) : Byte.to_N (byte_of_N v) = (v mod 256)%N.
Proof.
  unfold byte_of_N.
  destruct (Byte.of_N (v mod 256)) as [b|] eqn:E.
  - now apply Byte.to_of_N.
  - apply Byte.of_N_None_iff in E.
    pose proof (N.mod_upper_bound v 256). lia.
Qed.

(** Bit [i] of the byte taken at offset [k], put back at offset [k]. *)
Lemma testbit_lane (v k i : N) :
  N.testbit (N.shiftl (N.shiftr v k mod 2 ^ 8) k) i
  = (k <=? i)%N && (i <? k + 8)%N && N.testbit v i.
Proof.
  destruct (N.leb_spec k i) as [Hk|Hk].
  - rewrite N.shiftl_spec_high' by assumption.
    destruct (N.ltb_spec i (k + 8)) as [Hi|Hi]; cbn [andb].
    + rewrite N.mod_pow2_bits_low by lia.
      rewrite N.shiftr_spec'. f_equal. lia.
    + rewrite N.mod_pow2_bits_high by lia. reflexivity.
  - rewrite N.shiftl_spec_low by assumption. reflexivity.
Qed.

Lemma Uint32_PutUint32 (v : N) : Uint32 (PutUint32 v) = (v mod 2 ^ 32)%N.
Proof.
  unfold Uint32, PutUint32. rewrite !to_N_byte_of_N.
  apply N.bits_inj. intro i.
  rewrite !N.lor_spec.
  change 256%N with (2 ^ 8)%N.
  rewrite <- (N.shiftl_0_r (v mod 2 ^ 8)), <- (N.shiftr_0_r v) at 1.
  rewrite !testbit_lane.
  destruct (N.ltb_spec i 32) as [Hi|Hi];
    [rewrite N.mod_pow2_bits_low by assumption
    |rewrite N.mod_pow2_bits_high by assumption];
    destruct (N.testbit v i); rewrite ?andb_false_r, ?andb_true_r;
    try reflexivity;
    repeat match goal with
           | |- context [(?a <=? ?b)%N] => destruct (N.leb_spec a b)
           | |- context [(?a <? ?b)%N] => destruct (N.ltb_spec a b)
           end; cbn; try reflexivity; lia.
Qed.

Lemma length_PutUint32 (v : N) : length (PutUint32 v) = 4.
Proof. reflexivity. Qed.

End binary_facts.

(** ** The client-side readers, case by case *)

Section Reader.

Lemma stream_heartbeat (r w : list byte) :
  waitForHTTPStream (x20 :: r) w = waitForHTTPStream r w.
Proof. rewrite waitForHTTPStream_equation_2. reflexivity. Qed.

Lemma stream_success (r w : list byte) :
  waitForHTTPStream (x00 :: r) w = (w ++ r, None).
Proof. rewrite waitForHTTPStream_equation_2. reflexivity. Qed.

Lemma stream_error (r w : list byte) :
  waitForHTTPStream (x01 :: r) w = (w, Some (errors_New r)).
Proof. rewrite waitForHTTPStream_equation_2. reflexivity. Qed.

Lemma stream_other (tag : byte) (r w : list byte) :
  tag <> x00 -> tag <> x01 -> tag <> x02 -> tag <> x20 ->
  waitForHTTPStream (tag :: r) w = (w, Some (unexpected_filler_byte tag)).
Proof.
  intros H0 H1 H2 H20. rewrite waitForHTTPStream_equation_2.
  destruct tag; try reflexivity; congruence.
Qed.

(** A block whose four length bytes are present. *)
Lemma stream_block (b0 b1 b2 b3 : byte) (r w : list byte) :
  waitForHTTPStream (x02 :: b0 :: b1 :: b2 :: b3 :: r) w
  = let n := N.to_nat (binary.Uint32 [b0; b1; b2; b3]) in
    if n <=? length r
    then waitForHTTPStream (skipn n r) (w ++ firstn n r)
    else (w ++ r, Some (Sentinel io_ErrUnexpectedEOF)).
Proof.
  rewrite waitForHTTPStream_equation_2.
  cbn [Byte.to_N]. cbv zeta.
  change (io.ReadFull (b0 :: b1 :: b2 :: b3 :: r) 4)
    with ([b0; b1; b2; b3], r, @None error).
  cbn [fst snd]. unfold io.CopyLimit. cbn [fst snd].
  set (len := binary.Uint32 [b0; b1; b2; b3]).
  destruct (Nat.leb_spec (N.to_nat len) (length r)) as [Hle|Hlt].
  - rewrite length_firstn, Nat.min_l by assumption.
    rewrite N2Nat.id, N.eqb_refl. reflexivity.
  - rewrite firstn_all2 by lia.
    destruct (N.eqb_spec (N.of_nat (length r)) len) as [E|E]; [lia|reflexivity].
Qed.

Lemma stream_block_exact (b0 b1 b2 b3 : byte) (payload tail w : list byte) :
  N.of_nat (length payload) = binary.Uint32 [b0; b1; b2; b3] ->
  waitForHTTPStream (x02 :: b0 :: b1 :: b2 :: b3 :: payload ++ tail) w
  = waitForHTTPStream tail (w ++ payload).
Proof.
  intros Hlen. rewrite stream_block. cbv zeta. rewrite <- Hlen, Nat2N.id.
  rewrite length_app.
  destruct (Nat.leb_spec (length payload) (length payload + length tail));
    [|lia].
  rewrite skipn_app, firstn_app, Nat.sub_diag, skipn_all, firstn_all.
  cbn [skipn firstn]. rewrite app_nil_r. reflexivity.
Qed.

Lemma stream_block_short (b0 b1 b2 b3 : byte) (avail w : list byte) :
  (N.of_nat (length avail) < binary.Uint32 [b0; b1; b2; b3])%N ->
  waitForHTTPStream (x02 :: b0 :: b1 :: b2 :: b3 :: avail) w
  = (w ++ avail, Some (Sentinel io_ErrUnexpectedEOF)).
Proof.
  intros Hlt. rewrite stream_block. cbv zeta.
  destruct (Nat.leb_spec (N.to_nat (binary.Uint32 [b0; b1; b2; b3]))
              (length avail)); [lia|reflexivity].
Qed.

(** A block whose length bytes are cut short. *)
Lemma stream_block_header_short (r w : list byte) :
  length r < 4 ->
  waitForHTTPStream (x02 :: r) w
  = (w, Some (Sentinel (match r with [] => io_EOF | _ => io_ErrUnexpectedEOF end))).
Proof.
  intros H. rewrite waitForHTTPStream_equation_2.
  cbn [Byte.to_N]. cbv zeta.
  destruct r as [|b0 [|b1 [|b2 [|b3 r]]]]; try reflexivity.
  cbn in H. lia.
Qed.

Lemma stream_heartbeats (m : nat) (r w : list byte) :
  waitForHTTPStream (repeat x20 m ++ r) w = waitForHTTPStream r w.
Proof.
  induction m as [|m IH]; [reflexivity|].
  cbn [repeat app]. rewrite stream_heartbeat. exact IH.
Qed.

Lemma response_heartbeats (m : nat) (r : list byte) :
  waitForHTTPResponse (repeat x20 m ++ r) = waitForHTTPResponse r.
Proof. induction m as [|m IH]; [reflexivity|exact IH]. Qed.

End Reader.

(** ** The reader as a state machine *)

(** C2.  [waitForHTTPStream], on every stream and every destination: a
    heartbeat tag (0x20) is skipped; the success tag (0x00) copies the rest
    of the stream through unmodified and returns nil; the error tag (0x01)
    returns the rest of the stream as an error text; the block tag (0x02)
    reads a four byte little-endian length, copies exactly that many bytes
    and loops, and returns a truncation error when the length bytes or the
    payload are cut short; any other tag fails at once and writes nothing. *)
Theorem waitForHTTPStream_state_machine (rest w : list byte) :
  waitForHTTPStream (x20 :: rest) w = waitForHTTPStream rest w
  /\ waitForHTTPStream (x00 :: rest) w = (w ++ rest, None)
  /\ waitForHTTPStream (x01 :: rest) w = (w, Some (errors_New rest))
  /\ (forall (b0 b1 b2 b3 : byte) (payload tail : list byte),
         rest = b0 :: b1 :: b2 :: b3 :: payload ++ tail ->
         N.of_nat (length payload) = binary.Uint32 [b0; b1; b2; b3] ->
         waitForHTTPStream (x02 :: rest) w
         = waitForHTTPStream tail (w ++ payload))
  /\ (forall (b0 b1 b2 b3 : byte) (avail : list byte),
         rest = b0 :: b1 :: b2 :: b3 :: avail ->
         (N.of_nat (length avail) < binary.Uint32 [b0; b1; b2; b3])%N ->
         waitForHTTPStream (x02 :: rest) w
         = (w ++ avail, Some (Sentinel io_ErrUnexpectedEOF)))
  /\ (length rest < 4 ->
      exists e, (e = io_EOF \/ e = io_ErrUnexpectedEOF)
                /\ waitForHTTPStream (x02 :: rest) w = (w, Some (Sentinel e)))
  /\ (forall tag : byte,
         tag <> x00 -> tag <> x01 -> tag <> x02 -> tag <> x20 ->
         waitForHTTPStream (tag :: rest) w
         = (w, Some (unexpected_filler_byte tag))).
Proof.
  refine (conj _ (conj _ (conj _ (conj _ (conj _ (conj _ _)))))).
  - apply stream_heartbeat.
  - apply stream_success.
  - apply stream_error.
  - intros b0 b1 b2 b3 payload tail ->. apply stream_block_exact.
  - intros b0 b1 b2 b3 avail ->. apply stream_block_short.
  - intros Hshort. rewrite stream_block_header_short by assumption.
    destruct rest; eexists; (split; [|reflexivity]); auto.
  - intros tag. apply stream_other.
Qed.

Lemma waitForHTTPStream_state_machine_witness :
  waitForHTTPStream [x02; x01; x00; x00; x00; x41; x20; x00] []
  = waitForHTTPStream [x20; x00] [x41]
  /\ waitForHTTPStream [x02; x02; x00; x00; x00; x41] []
     = ([x41], Some (Sentinel io_ErrUnexpectedEOF))
  /\ (exists e, (e = io_EOF \/ e = io_ErrUnexpectedEOF)
                /\ waitForHTTPStream [x02; x01; x00] [] = ([], Some (Sentinel e)))
  /\ waitForHTTPStream [x07; x00] [] = ([], Some (unexpected_filler_byte x07)).
Proof.
  split; [|split; [|split]].
  - exact (proj1 (proj2 (proj2 (proj2
      (waitForHTTPStream_state_machine [x01; x00; x00; x00; x41; x20; x00] []))))
      x01 x00 x00 x00 [x41] [x20; x00] eq_refl eq_refl).
  - exact (proj1 (proj2 (proj2 (proj2 (proj2
      (waitForHTTPStream_state_machine [x02; x00; x00; x00; x41] [])))))
      x02 x00 x00 x00 [x41] eq_refl eq_refl).
  - apply (proj1 (proj2 (proj2 (proj2 (proj2 (proj2
      (waitForHTTPStream_state_machine [x01; x00] []))))))).
    cbn. lia.
  - apply (proj2 (proj2 (proj2 (proj2 (proj2 (proj2
      (waitForHTTPStream_state_machine [x00] [])))))) x07); discriminate.
Defined.

(** ** Heartbeats *)

Lemma frames_consumed (pre : list byte) :
  frames pre ->
  exists out, forall rest w,
      waitForHTTPStream (pre ++ rest) w = waitForHTTPStream rest (w ++ out).
Proof.
  induction 1 as [|s _ [out IH]|b0 b1 b2 b3 payload s Hlen _ [out IH]].
  - exists []. intros rest w. now rewrite app_nil_r.
  - exists out. intros rest w. cbn [app]. rewrite stream_heartbeat. apply IH.
  - exists (payload ++ out). intros rest w. cbn [app].
    rewrite <- app_assoc, stream_block_exact by assumption.
    rewrite IH, app_assoc. reflexivity.
Qed.

(** C9, as amended.  Heartbeat bytes inserted where the reader expects a
    tag never change the result: for [waitForHTTPResponse] that is any
    point before the terminal byte; for [waitForHTTPStream] it is any
    boundary between whole frames before the terminal byte (not inside the
    length field or the payload of a data block). *)
Theorem heartbeat_insertion (m : nat) (rest : list byte) :
  (forall k : nat,
      waitForHTTPResponse (repeat x20 k ++ repeat x20 m ++ rest)
      = waitForHTTPResponse (repeat x20 k ++ rest))
  /\ (forall (pre w : list byte),
         frames pre ->
         waitForHTTPStream (pre ++ repeat x20 m ++ rest) w
         = waitForHTTPStream (pre ++ rest) w).
Proof.
  split.
  - intros k. now rewrite !response_heartbeats.
  - intros pre w Hpre. destruct (frames_consumed Hpre) as [out Hout].
    now rewrite !Hout, stream_heartbeats.
Qed.

Lemma heartbeat_insertion_witness :
  waitForHTTPStream
    ([x20; x02; x01; x00; x00; x00; x41] ++ repeat x20 3 ++ [x00; x42]) []
  = waitForHTTPStream ([x20; x02; x01; x00; x00; x00; x41] ++ [x00; x42]) [].
Proof.
  apply (proj2 (heartbeat_insertion 3 [x00; x42])).
  apply frames_heartbeat.
  apply (@frames_block x01 x00 x00 x00 [x41] []); [reflexivity|].
  apply frames_nil.
Defined.

(** C9, as stated, fails: the stream [02 01 00 00 00 41 00] is accepted and
    decodes to the payload [41]; one heartbeat byte inserted after the block
    tag, before the terminal byte, is read as the low byte of the length and
    the decoder returns a truncation error. *)
Lemma heartbeat_inside_block_changes_result :
  waitForHTTPStream ([x02] ++ [x01; x00; x00; x00; x41; x00]) []
  = ([x41], None)
  /\ waitForHTTPStream ([x02] ++ [x20] ++ [x01; x00; x00; x00; x41; x00]) []
     = ([x00; x41; x00], Some (Sentinel io_ErrUnexpectedEOF))
  /\ waitForHTTPStream ([x02] ++ [x20] ++ [x01; x00; x00; x00; x41; x00]) []
     <> waitForHTTPStream ([x02] ++ [x01; x00; x00; x00; x41; x00]) [].
Proof.
  assert (A : waitForHTTPStream ([x02] ++ [x01; x00; x00; x00; x41; x00]) []
              = ([x41], None)) by (vm_compute; reflexivity).
  assert (B : waitForHTTPStream
                ([x02] ++ [x20] ++ [x01; x00; x00; x00; x41; x00]) []
              = ([x00; x41; x00], Some (Sentinel io_ErrUnexpectedEOF)))
    by (vm_compute; reflexivity).
  repeat split; try assumption. rewrite A, B. discriminate.
Qed.

(** ** Block streaming round trip *)

Section Roundtrip.

Variable Error : error -> list byte.

Lemma write_reliable (l b : list byte) :
  write {| canWrite := true; w := http.reliable l |} b
  = {| canWrite := true; w := http.reliable (l ++ b) |}.
Proof.
  unfold write, http.Write, http.reliable. cbn.
  rewrite Nat.eqb_refl. reflexivity.
Qed.

Lemma write_terminal_reliable (l : list byte) (e : option error) :
  write_terminal Error {| canWrite := true; w := http.reliable l |} e
  = {| canWrite := true; w := http.reliable (l ++ terminal_frame Error e) |}.
Proof.
  destruct e as [e|]; cbn [write_terminal terminal_frame].
  - rewrite !write_reliable, <- app_assoc. reflexivity.
  - apply write_reliable.
Qed.

Lemma run_cons {S O : Type} (step : S -> O -> option S) (s : S) (op : O)
    (ops : list O) :
  run step s (op :: ops)
  = match step s op with
    | Some s' => run step s' ops
    | None => None
    end.
Proof. reflexivity. Qed.

Lemma step_closed (e : option error) (l : list byte) (op : stream_op) :
  is_call op = false \/ (exists e', op = CloseWithError e') ->
  stream_step Error (closed e l) op = Some (closed e l).
Proof.
  intros [H|[e' ->]]; [destruct op; try discriminate|]; reflexivity.
Qed.

Lemma run_closed_ticks (e : option error) (l : list byte) (sched : list stream_op) :
  filter is_call sched = [] ->
  run (stream_step Error) (closed e l) sched = Some (closed e l).
Proof.
  induction sched as [|op sched IH]; [reflexivity|].
  destruct op; cbn [filter is_call]; try discriminate.
  intros H. rewrite run_cons, step_closed by (now left). apply IH, H.
Qed.

Lemma step_tick (l : list byte) :
  stream_step Error (streaming l) stream_tick = Some (streaming (l ++ [x20])).
Proof.
  unfold stream_step, streaming. cbn [stream_exited done_nil err stream_conn].
  rewrite write_reliable. reflexivity.
Qed.

Lemma step_empty_block (h : httpStreamResponse) (b : list byte) :
  length b = 0 -> stream_step Error h (Write b) = Some h.
Proof. intros E. unfold stream_step. rewrite E. reflexivity. Qed.

Lemma step_block (l b : list byte) :
  length b <> 0 ->
  stream_step Error (streaming l) (Write b)
  = Some (streaming
            (l ++ x02 :: binary.PutUint32 (binary.uint32 (N.of_nat (length b)))
               ++ b)).
Proof.
  intros Hb. unfold stream_step, streaming. cbn [err notnil stream_exited].
  destruct (Nat.eqb_spec (length b) 0) as [E|_]; [contradiction|].
  cbn [orb done_nil stream_conn]. unfold write_block.
  rewrite !write_reliable, <- app_assoc. reflexivity.
Qed.

Lemma step_close (l : list byte) (e : option error) :
  stream_step Error (streaming l) (CloseWithError e)
  = Some (closed e (l ++ terminal_frame Error e)).
Proof.
  unfold stream_step, streaming. cbn [done_nil stream_exited stream_conn].
  rewrite write_terminal_reliable. reflexivity.
Qed.

Lemma stream_run_reliable (sched : list stream_op) :
  forall (blocks : list (list byte)) (l : list byte),
    filter is_call sched = map Write blocks ++ [CloseWithError None] ->
    Forall (fun b => (N.of_nat (length b) < 2 ^ 32)%N) blocks ->
    exists out,
      run (stream_step Error) (streaming l) sched = Some (closed None (l ++ out))
      /\ forall w, waitForHTTPStream out w = (w ++ concat blocks, None).
Proof.
  induction sched as [|op sched IH]; intros blocks l Hsched Hsmall.
  - destruct blocks; discriminate.
  - rewrite run_cons. destruct op as [|b|e].
    + (* the ticker fires *)
      cbn [filter is_call] in Hsched.
      destruct (IH blocks (l ++ [x20]) Hsched Hsmall) as (out & Hrun & Hread).
      exists (x20 :: out). split.
      * rewrite step_tick, Hrun, <- app_assoc. reflexivity.
      * intros w0. rewrite stream_heartbeat. apply Hread.
    + (* a block is submitted *)
      cbn [filter is_call] in Hsched.
      destruct blocks as [|b' blocks]; cbn [map app] in Hsched;
        [destruct sched; discriminate|].
      injection Hsched as <- Hsched.
      inversion Hsmall as [|? ? Hb Hsmall']; subst.
      destruct (Nat.eq_dec (length b) 0) as [E|NE].
      * (* zero length blocks are ignored *)
        destruct (IH blocks l Hsched Hsmall') as (out & Hrun & Hread).
        exists out. split.
        -- rewrite step_empty_block by assumption. exact Hrun.
        -- intros w0. rewrite Hread.
           destruct b; [reflexivity|discriminate].
      * set (hdr := binary.PutUint32
                      (binary.uint32 (N.of_nat (length b)))).
        destruct (IH blocks (l ++ x02 :: hdr ++ b) Hsched Hsmall')
          as (out & Hrun & Hread).
        exists (x02 :: hdr ++ b ++ out). split.
        -- rewrite step_block by assumption. fold hdr.
           rewrite Hrun. f_equal. f_equal.
           cbn [app]. rewrite <- !app_assoc. reflexivity.
        -- intros w0. unfold hdr, binary.PutUint32. cbn [app].
           rewrite stream_block_exact.
           ++ rewrite Hread. cbn [concat]. now rewrite app_assoc.
           ++ fold (binary.PutUint32
                      (binary.uint32 (N.of_nat (length b)))).
              rewrite binary_facts.Uint32_PutUint32. unfold binary.uint32.
              rewrite N.Div0.mod_mod, N.mod_small by assumption.
              reflexivity.
    + (* the stream is closed *)
      cbn [filter is_call] in Hsched.
      destruct blocks as [|b' blocks]; cbn [map app] in Hsched.
      * injection Hsched as -> Hsched.
        exists [x00]. split.
        -- rewrite step_close. apply run_closed_ticks, Hsched.
        -- intros w0. rewrite stream_success. cbn [concat].
           reflexivity.
      * discriminate.
Qed.

End Roundtrip.

(** C1, as amended.  Over a connection that accepts every write, for every
    sequence of blocks each shorter than 2^32 bytes submitted through
    [Write] and followed by [CloseWithError(nil)], with any number of
    heartbeat ticks interleaved anywhere in the schedule, the run ends and
    [waitForHTTPStream] writes exactly the concatenation of the blocks, in
    submission order, and returns nil. *)
Theorem stream_roundtrip (Error : error -> list byte)
    (blocks : list (list byte)) (sched : list stream_op) :
  filter is_call sched = map Write blocks ++ [CloseWithError None] ->
  Forall (fun b => (N.of_nat (length b) < 2 ^ 32)%N) blocks ->
  exists h,
    run (stream_step Error) (streamHTTPResponse (http.reliable [])) sched
    = Some h
    /\ waitForHTTPStream (http.wire (w (stream_conn h))) []
       = (concat blocks, None).
Proof.
  intros Hsched Hsmall.
  destruct (@stream_run_reliable Error sched blocks [] Hsched Hsmall)
    as (out & Hrun & Hread).
  exists (closed None ([] ++ out)). split; [exact Hrun|].
  cbn [closed stream_conn w http.reliable http.wire app]. apply Hread.
Qed.

Lemma stream_roundtrip_witness :
  exists h,
    run (stream_step (fun _ => []))
        (streamHTTPResponse (http.reliable []))
        [stream_tick; Write [x41]; stream_tick; stream_tick; Write [];
         Write [x42; x43]; CloseWithError None; stream_tick]
    = Some h
    /\ waitForHTTPStream (http.wire (w (stream_conn h))) []
       = (concat [[x41]; []; [x42; x43]], None).
Proof.
  apply (@stream_roundtrip (fun _ => []) [[x41]; []; [x42; x43]]).
  - reflexivity.
  - repeat constructor.
Defined.

(** The length prefix of a block of [2^32] bytes wraps to zero. *)
Lemma stream_wrapped_length (Error : error -> list byte) (k : nat) :
  (N.of_nat (S k) mod 2 ^ 32 = 0)%N ->
  exists h,
    run (stream_step Error) (streamHTTPResponse (http.reliable []))
        [Write (repeat x07 (S k)); CloseWithError None]
    = Some h
    /\ waitForHTTPStream (http.wire (w (stream_conn h))) []
       = ([], Some (unexpected_filler_byte x07)).
Proof.
  intros Hwrap.
  change (streamHTTPResponse (http.reliable [])) with (streaming []).
  rewrite run_cons, step_block by (rewrite repeat_length; discriminate).
  rewrite repeat_length. unfold binary.uint32. rewrite Hwrap.
  change (binary.PutUint32 0) with [x00; x00; x00; x00].
  rewrite run_cons, step_close. cbn [run terminal_frame].
  eexists. split; [reflexivity|].
  cbn [closed stream_conn w http.reliable http.wire app repeat].
  rewrite stream_block.
  change (N.to_nat (binary.Uint32 [x00; x00; x00; x00])) with 0.
  cbv zeta. cbn [Nat.leb skipn firstn]. rewrite app_nil_r.
  apply stream_other; discriminate.
Qed.

(** C1, as stated, fails, in two ways.  One block of 2^32 bytes (each
    0x07) is framed with the length [uint32(len(block)) = 0]: the reader
    takes the payload for tags, fails on its first byte and writes nothing,
    where the concatenation of the submitted blocks is this non-empty block.
    And over a connection that breaks after three bytes, the block [41 42]
    followed by a successful close leaves [02 02 00] on the wire (the
    [canWrite] guard drops every later write): the reader returns a
    truncation error and writes nothing. *)
Lemma stream_roundtrip_fails :
  (let block := repeat x07 (N.to_nat 4294967296) in
   exists h,
     run (stream_step (fun _ => []))
         (streamHTTPResponse (http.reliable []))
         [Write block; CloseWithError None]
     = Some h
     /\ waitForHTTPStream (http.wire (w (stream_conn h))) []
        = ([], Some (unexpected_filler_byte x07))
     /\ block <> [])
  /\ (exists h,
         run (stream_step (fun _ => []))
             (streamHTTPResponse {| http.wire := []; http.quota := Some 3 |})
             [Write [x41; x42]; CloseWithError None]
         = Some h
         /\ http.wire (w (stream_conn h)) = [x02; x02; x00]
         /\ waitForHTTPStream (http.wire (w (stream_conn h))) []
            = ([], Some (Sentinel io_ErrUnexpectedEOF))).
Proof.
  split.
  - intros block. subst block.
    assert (E : N.to_nat 4294967296 = S (N.to_nat 4294967295)).
    { change 4294967296%N with (N.succ 4294967295). apply N2Nat.inj_succ. }
    rewrite E.
    destruct (@stream_wrapped_length (fun _ => []) (N.to_nat 4294967295))
      as (h & Hrun & Hread).
    { rewrite Nat2N.inj_succ, N2Nat.id. reflexivity. }
    exists h. split; [exact Hrun|]. split; [exact Hread|].
    intros H. apply (f_equal (@length byte)) in H.
    rewrite repeat_length in H. discriminate H.
  - eexists. split; [reflexivity|]. split; reflexivity.
Qed.

(** ** Completion is idempotent *)

Section Completion.

Variable Error : error -> list byte.

Lemma run_app {S O : Type} (step : S -> O -> option S) (s : S) (a b : list O) :
  run step s (a ++ b)
  = match run step s a with
    | Some s' => run step s' b
    | None => None
    end.
Proof.
  revert s. induction a as [|op a IH]; intros s; [reflexivity|].
  cbn [app]. rewrite !run_cons. destruct (step s op); [apply IH|reflexivity].
Qed.

Lemma write_healthy (c : conn) (b : list byte) :
  healthy c ->
  healthy (write c b)
  /\ http.wire (w (write c b)) = http.wire (w c) ++ b.
Proof.
  destruct c as [cw [l q]]. intros [Hc Hq]. cbn in Hc, Hq. subst cw q.
  unfold write, http.Write. cbn. rewrite Nat.eqb_refl. cbn.
  repeat split.
Qed.

Lemma write_terminal_healthy (c : conn) (e : option error) :
  healthy c ->
  healthy (write_terminal Error c e)
  /\ http.wire (w (write_terminal Error c e))
     = http.wire (w c) ++ terminal_frame Error e.
Proof.
  intros H. destruct e as [e|]; cbn [write_terminal terminal_frame].
  - destruct (write_healthy [x01] H) as [H1 W1].
    destruct (write_healthy (Error e) H1) as [H2 W2].
    split; [exact H2|]. rewrite W2, W1, <- app_assoc. reflexivity.
  - now apply write_healthy.
Qed.

Lemma write_block_healthy (c : conn) (b : list byte) :
  healthy c -> healthy (write_block c b).
Proof.
  intros H. unfold write_block.
  apply write_healthy. now apply write_healthy.
Qed.

(** [keepHTTPResponseAlive] *)

Lemma alive_ticks (k : nat) :
  forall c : conn,
    exists c',
      run (alive_step Error) (alive_running c) (repeat alive_tick k)
      = Some (alive_running c')
      /\ (healthy c ->
          healthy c' /\ http.wire (w c') = http.wire (w c) ++ repeat x20 k).
Proof.
  induction k as [|k IH]; intros c.
  - exists c. split; [reflexivity|].
    intros H. split; [exact H|]. cbn [repeat]. now rewrite app_nil_r.
  - destruct (IH (write c [x20])) as (c' & Hrun & Hw).
    exists c'. split; [exact Hrun|].
    intros H. destruct (write_healthy [x20] H) as [H1 W1].
    destruct (Hw H1) as [H2 W2]. split; [exact H2|].
    rewrite W2, W1, <- app_assoc. reflexivity.
Qed.

Lemma alive_after (c : conn) (post : list alive_op) :
  run (alive_step Error) (alive_finished c) post = Some (alive_finished c).
Proof.
  induction post as [|op post IH]; [reflexivity|].
  rewrite run_cons. destruct op; exact IH.
Qed.

(** [keepHTTPReqResponseAlive] *)

Lemma req_before (pre : list req_op) :
  forall (d : bool) (c : conn),
    forallb (fun op => negb (req_is_done op)) pre = true ->
    exists d' c',
      run (req_step Error) (req_running d c) pre = Some (req_running d' c')
      /\ (healthy c ->
          healthy c'
          /\ exists j, http.wire (w c') = http.wire (w c) ++ repeat x20 j).
Proof.
  induction pre as [|op pre IH]; intros d c Hpre.
  - exists d, c. split; [reflexivity|].
    intros H. split; [exact H|]. exists 0. cbn [repeat]. now rewrite app_nil_r.
  - cbn [forallb] in Hpre. apply andb_prop in Hpre as [Hop Hpre].
    rewrite run_cons. destruct op; try discriminate.
    + exact (IH false c Hpre).
    + exact (IH false c Hpre).
    + destruct d.
      * exact (IH true c Hpre).
      * destruct (IH false (write c [x20]) Hpre) as (d' & c' & Hrun & Hw).
        exists d', c'. split; [exact Hrun|].
        intros H. destruct (write_healthy [x20] H) as [H1 W1].
        destruct (Hw H1) as (H2 & j & W2). split; [exact H2|].
        exists (S j). rewrite W2, W1, <- app_assoc. reflexivity.
Qed.

Lemma req_after (d : bool) (c : conn) (post : list req_op) :
  run (req_step Error) (req_finished d c) post = Some (req_finished d c).
Proof.
  induction post as [|op post IH]; [reflexivity|].
  rewrite run_cons. destruct op; exact IH.
Qed.

(** [streamHTTPResponse] *)

Lemma stream_before (pre : list stream_op) :
  forall c : conn,
    forallb (fun op => negb (is_close op)) pre = true ->
    exists c',
      run (stream_step Error) (stream_open c) pre = Some (stream_open c')
      /\ (healthy c -> healthy c').
Proof.
  induction pre as [|op pre IH]; intros c Hpre.
  - exists c. split; [reflexivity|tauto].
  - cbn [forallb] in Hpre. apply andb_prop in Hpre as [Hop Hpre].
    rewrite run_cons. destruct op as [|b|e]; try discriminate.
    + destruct (IH (write c [x20]) Hpre) as (c' & Hrun & Hw).
      exists c'. split; [exact Hrun|].
      intros H. apply Hw. now apply write_healthy.
    + unfold stream_step, stream_open at 1.
      cbn [err notnil stream_exited done_nil stream_conn].
      rewrite orb_false_r.
      destruct (length b =? 0).
      * exact (IH c Hpre).
      * destruct (IH (write_block c b) Hpre) as (c' & Hrun & Hw).
        exists c'. split; [exact Hrun|].
        intros H. apply Hw. now apply write_block_healthy.
Qed.

Lemma stream_after (e : option error) (c : conn) (post : list stream_op) :
  forallb (returns_after_close e) post = true ->
  run (stream_step Error) (stream_shut e c) post = Some (stream_shut e c).
Proof.
  induction post as [|op post IH]; [reflexivity|].
  cbn [forallb]. intros H. apply andb_prop in H as [Hop Hpost].
  rewrite run_cons. destruct op as [|b|e'].
  - exact (IH Hpost).
  - unfold stream_step at 1. cbn [stream_shut err]. cbn in Hop. rewrite Hop.
    exact (IH Hpost).
  - exact (IH Hpost).
Qed.

End Completion.

(** C8, as amended.  For each of the three keep-alive sessions, over any connection:
    however often the completion function is called (after any operations
    before the first call, and with any operations and further calls after
    it that return: a write of a non-empty block after a close with nil
    waits for ever), the session ends as it stood at the first call with
    the terminal write of that call applied once; every later call returns
    and leaves the session unchanged, and the streaming handle retains the
    first error.  Over a connection that accepts every write, the wire then holds
    what was written before the first call (heartbeats, and blocks for the
    streaming variant) followed by exactly one terminal frame, that of the
    first call. *)
Theorem completion_exactly_once (Error : error -> list byte)
    (w0 : http.ResponseWriter) (e : option error) :
  (forall (k : nat) (post : list alive_op),
      exists c,
        run (alive_step Error) (keepHTTPResponseAlive w0)
            (repeat alive_tick k) = Some (alive_running c)
        /\ run (alive_step Error) (keepHTTPResponseAlive w0)
               (repeat alive_tick k ++ alive_done e :: post)
           = Some (alive_finished (write_terminal Error c e))
        /\ (http.quota w0 = None ->
            http.wire (w (write_terminal Error c e))
            = http.wire w0 ++ repeat x20 k ++ terminal_frame Error e))
  /\ (forall (pre post : list req_op),
         forallb (fun op => negb (req_is_done op)) pre = true ->
         exists d c,
           run (req_step Error) (keepHTTPReqResponseAlive w0) pre
           = Some (req_running d c)
           /\ run (req_step Error) (keepHTTPReqResponseAlive w0)
                  (pre ++ req_done e :: post)
              = Some (req_finished d (write_terminal Error c e))
           /\ (http.quota w0 = None ->
               exists j,
                 http.wire (w (write_terminal Error c e))
                 = http.wire w0 ++ repeat x20 j ++ terminal_frame Error e))
  /\ (forall (pre post : list stream_op),
         forallb (fun op => negb (is_close op)) pre = true ->
         forallb (returns_after_close e) post = true ->
         exists c,
           run (stream_step Error) (streamHTTPResponse w0) pre
           = Some (stream_open c)
           /\ run (stream_step Error) (streamHTTPResponse w0)
                  (pre ++ CloseWithError e :: post)
              = Some (stream_shut e (write_terminal Error c e))
           /\ (http.quota w0 = None ->
               http.wire (w (write_terminal Error c e))
               = http.wire (w c) ++ terminal_frame Error e)).
Proof.
  refine (conj _ (conj _ _)).
  - intros k post.
    change (keepHTTPResponseAlive w0)
      with (alive_running {| canWrite := true; w := w0 |}).
    destruct (alive_ticks Error k {| canWrite := true; w := w0 |})
      as (c & Hrun & Hw).
    exists c. split; [exact Hrun|]. split.
    + rewrite run_app, Hrun, run_cons. cbn [alive_step alive_running
        alive_doneCh_nil alive_exited alive_conn].
      apply alive_after.
    + intros Hq. destruct Hw as [Hc Wc]; [now split|].
      destruct (write_terminal_healthy Error e Hc) as [_ Wt].
      rewrite Wt, Wc, <- app_assoc. reflexivity.
  - intros pre post Hpre.
    change (keepHTTPReqResponseAlive w0)
      with (req_running true {| canWrite := true; w := w0 |}).
    destruct (req_before Error pre true {| canWrite := true; w := w0 |} Hpre)
      as (d & c & Hrun & Hw).
    exists d, c. split; [exact Hrun|]. split.
    + rewrite run_app, Hrun, run_cons. cbn [req_step req_running
        req_doneCh_nil req_exited req_draining req_conn].
      apply req_after.
    + intros Hq. destruct Hw as (Hc & j & Wc); [now split|].
      destruct (write_terminal_healthy Error e Hc) as [_ Wt].
      exists j. rewrite Wt, Wc, <- app_assoc. reflexivity.
  - intros pre post Hpre Hpost.
    change (streamHTTPResponse w0)
      with (stream_open {| canWrite := true; w := w0 |}).
    destruct (stream_before Error pre {| canWrite := true; w := w0 |} Hpre)
      as (c & Hrun & Hw).
    exists c. split; [exact Hrun|]. split.
    + rewrite run_app, Hrun, run_cons. cbn [stream_step stream_open
        done_nil stream_exited stream_conn].
      now apply stream_after.
    + intros Hq. assert (Hc : healthy c) by (apply Hw; now split).
      now destruct (write_terminal_healthy Error e Hc) as [_ Wt].
Qed.

Lemma completion_exactly_once_witness :
  (exists c,
      run (alive_step (fun _ => [x21])) (keepHTTPResponseAlive (http.reliable []))
          (repeat alive_tick 2 ++ alive_done None :: [alive_done None])
      = Some (alive_finished (write_terminal (fun _ => [x21]) c None))
      /\ http.wire (w (write_terminal (fun _ => [x21]) c None))
         = [] ++ repeat x20 2 ++ [x00])
  /\ (exists d c j,
         run (req_step (fun _ => [x21]))
             (keepHTTPReqResponseAlive (http.reliable []))
             ([req_tick; req_bodyDone; req_tick]
                ++ req_done (Some (Sentinel errFaultyDisk))
                :: [req_done None; req_tick])
         = Some (req_finished d
                   (write_terminal (fun _ => [x21]) c
                      (Some (Sentinel errFaultyDisk))))
         /\ http.wire (w (write_terminal (fun _ => [x21]) c
                            (Some (Sentinel errFaultyDisk))))
            = [] ++ repeat x20 j ++ [x01; x21])
  /\ (exists c,
         run (stream_step (fun _ => [x21]))
             (streamHTTPResponse (http.reliable []))
             ([stream_tick; Write [x41]]
                ++ CloseWithError (Some (Sentinel errFaultyDisk))
                :: [CloseWithError None; stream_tick;
                    CloseWithError (Some (Sentinel errDiskFull)); Write [x42]])
         = Some (stream_shut (Some (Sentinel errFaultyDisk))
                   (write_terminal (fun _ => [x21]) c
                      (Some (Sentinel errFaultyDisk))))
         /\ http.wire (w (write_terminal (fun _ => [x21]) c
                            (Some (Sentinel errFaultyDisk))))
            = http.wire (w c) ++ [x01; x21]).
Proof.
  refine (conj _ (conj _ _)).
  - destruct (proj1 (@completion_exactly_once
                       (fun _ => [x21]) (http.reliable []) None)
                2 [alive_done None]) as (c & _ & H2 & H3).
    exists c. split; [exact H2|exact (H3 eq_refl)].
  - destruct (proj1 (proj2 (@completion_exactly_once
                       (fun _ => [x21]) (http.reliable [])
                       (Some (Sentinel errFaultyDisk))))
                [req_tick; req_bodyDone; req_tick] [req_done None; req_tick]
                eq_refl) as (d & c & _ & H2 & H3).
    destruct (H3 eq_refl) as (j & Hj).
    exists d, c, j. split; [exact H2|exact Hj].
  - destruct (proj2 (proj2 (@completion_exactly_once
                       (fun _ => [x21]) (http.reliable [])
                       (Some (Sentinel errFaultyDisk))))
                [stream_tick; Write [x41]]
                [CloseWithError None; stream_tick;
                 CloseWithError (Some (Sentinel errDiskFull)); Write [x42]]
                eq_refl eq_refl) as (c & _ & H2 & H3).
    exists c. split; [exact H2|exact (H3 eq_refl)].
Defined.

(** C8, as stated, fails over a connection that breaks.  When the transport
    accepts no byte at all, two completion calls of [keepHTTPResponseAlive]
    return and the wire stays empty: no terminal frame.  When it accepts two
    bytes, closing the stream with an error whose text has two bytes leaves
    the error tag and the first byte of the text, a partial frame, and the
    second call writes nothing. *)
Lemma completion_over_broken_connection :
  (exists s,
      run (alive_step (fun _ => [x21; x22]))
        (keepHTTPResponseAlive {| http.wire := []; http.quota := Some 0 |})
        [alive_done None; alive_done None] = Some s
      /\ http.wire (w (alive_conn s)) = []
      /\ http.wire (w (alive_conn s))
         <> terminal_frame (fun _ => [x21; x22]) None)
  /\ (exists h,
         run (stream_step (fun _ => [x21; x22]))
           (streamHTTPResponse {| http.wire := []; http.quota := Some 2 |})
           [CloseWithError (Some (Sentinel errFaultyDisk));
            CloseWithError None] = Some h
         /\ http.wire (w (stream_conn h)) = [x01; x21]
         /\ http.wire (w (stream_conn h))
            <> terminal_frame (fun _ => [x21; x22])
                 (Some (Sentinel errFaultyDisk))).
Proof.
  split; eexists; (split; [reflexivity|]); split;
    [reflexivity|discriminate|reflexivity|discriminate].
Qed.

(** ** Error classification *)

Lemma unwrapAll_wrap (layers : list (list byte)) (err : error) :
  unwrapAll (wrap layers err) = unwrapAll err.
Proof. induction layers as [|c layers IH]; [reflexivity|exact IH]. Qed.

Lemma status_wrap (Error : error -> list byte) (layers : list (list byte))
    (err : error) :
  status (writeErrorResponse Error (wrap layers err))
  = status (writeErrorResponse Error err).
Proof. unfold writeErrorResponse. cbn [status]. now rewrite unwrapAll_wrap. Qed.

(** C4, as amended.  The status of an error response is chosen from the
    fully unwrapped root condition: file not found and file-version not
    found give 404; stale disk identity gives 412; the authentication causes
    (missing token, malformed token, failed verification, skewed time,
    invalid or disabled access key) give 401; context cancellation and
    deadline give 499; every other error, disk not found included, gives
    403; and layers of added context never change the status. *)
Theorem writeErrorResponse_status (Error : error -> list byte)
    (layers : list (list byte)) :
  (forall s, In s [errFileNotFound; errFileVersionNotFound] ->
             status (writeErrorResponse Error (wrap layers (Sentinel s)))
             = 404%N)
  /\ status (writeErrorResponse Error (wrap layers (Sentinel errDiskStale)))
     = 412%N
  /\ (forall s, In s [errNoAuthToken; errMalformedAuth; errAuthentication;
                      errSkewedAuthTime; errInvalidAccessKeyID;
                      errAccessKeyDisabled] ->
                status (writeErrorResponse Error (wrap layers (Sentinel s)))
                = 401%N)
  /\ (forall s, In s [context_Canceled; context_DeadlineExceeded] ->
                status (writeErrorResponse Error (wrap layers (Sentinel s)))
                = 499%N)
  /\ (forall root,
         unwrapAll root = root ->
         ~ In root (map Sentinel
                      [errFileNotFound; errFileVersionNotFound; errDiskStale;
                       errNoAuthToken; errMalformedAuth; errAuthentication;
                       errSkewedAuthTime; errInvalidAccessKeyID;
                       errAccessKeyDisabled; context_Canceled;
                       context_DeadlineExceeded]) ->
         status (writeErrorResponse Error (wrap layers root)) = 403%N)
  /\ status (writeErrorResponse Error (wrap layers (Sentinel errDiskNotFound)))
     = 403%N
  /\ (forall err,
         status (writeErrorResponse Error (wrap layers err))
         = status (writeErrorResponse Error err)).
Proof.
  refine (conj _ (conj _ (conj _ (conj _ (conj _ (conj _ _))))));
    try (intros s Hs; rewrite status_wrap; cbn in Hs;
         repeat (destruct Hs as [<-|Hs]; [reflexivity|]); contradiction).
  - now rewrite status_wrap.
  - intros root Hroot Hnot. rewrite status_wrap.
    unfold writeErrorResponse. cbn [status]. rewrite Hroot.
    destruct root as [s| | |]; try reflexivity.
    destruct s; try reflexivity; exfalso; apply Hnot; cbn; tauto.
  - now rewrite status_wrap.
  - intros err. apply status_wrap.
Qed.

Lemma writeErrorResponse_status_witness :
  status (writeErrorResponse (fun _ => [])
            (wrap [[x61]; [x62]] (Sentinel errFileVersionNotFound))) = 404%N
  /\ status (writeErrorResponse (fun _ => [])
               (wrap [[x61]; [x62]] (Sentinel errSkewedAuthTime))) = 401%N
  /\ status (writeErrorResponse (fun _ => [])
               (wrap [[x61]; [x62]] (Sentinel context_Canceled))) = 499%N
  /\ status (writeErrorResponse (fun _ => [])
               (wrap [[x61]; [x62]] (errors_New [x63]))) = 403%N.
Proof.
  pose proof (writeErrorResponse_status (fun _ => []) [[x61]; [x62]])
    as (H404 & _ & H401 & H499 & H403 & _).
  refine (conj _ (conj _ (conj _ _))).
  - apply H404. cbn. tauto.
  - apply H401. cbn. tauto.
  - apply H499. cbn. tauto.
  - apply H403.
    + reflexivity.
    + cbn. intros H. repeat (destruct H as [H|H]; [discriminate H|]).
      exact H.
Defined.

(** C4, as stated, fails: disk not found is answered with 403, not 404. *)
Lemma disk_not_found_is_forbidden :
  status (writeErrorResponse (fun _ => []) (Sentinel errDiskNotFound)) = 403%N
  /\ status (writeErrorResponse (fun _ => []) (Sentinel errDiskNotFound))
     <> StatusCode.StatusNotFound.
Proof. split; [reflexivity|discriminate]. Qed.

(** ** Request authentication *)

Lemma bytes_eqb_eq (a b : list byte) : bytes_eqb a b = true <-> a = b.
Proof.
  unfold bytes_eqb. destruct (list_eq_dec Byte.byte_eq_dec a b);
    split; congruence.
Qed.

Lemma bytes_eqb_neq (a b : list byte) : bytes_eqb a b = false <-> a <> b.
Proof.
  unfold bytes_eqb. destruct (list_eq_dec Byte.byte_eq_dec a b);
    split; congruence.
Qed.

Section Validation.

Variable ExtractToken : Request -> extracted.
Variable ParseWithStandardClaims : list byte -> list byte -> option StandardClaims.
Variable time_Parse : list byte -> option Z.
Variable cred : Credentials.
Variable now : Z.

Lemma validate_not_owner (r : Request) (token : list byte)
    (claims : StandardClaims) :
  ExtractToken r = Token token ->
  ParseWithStandardClaims token (cred_SecretKey cred) = Some claims ->
  AccessKey claims <> cred_AccessKey cred ->
  Subject claims <> cred_AccessKey cred ->
  storageServerRequestValidate ExtractToken ParseWithStandardClaims
    time_Parse cred now r
  = Some (Sentinel errAuthentication).
Proof.
  intros Ht Hc Ha Hs. unfold storageServerRequestValidate.
  rewrite Ht, Hc.
  apply bytes_eqb_neq in Ha, Hs. rewrite Ha, Hs. reflexivity.
Qed.

Lemma validate_owner (r : Request) (token : list byte)
    (claims : StandardClaims) :
  ExtractToken r = Token token ->
  ParseWithStandardClaims token (cred_SecretKey cred) = Some claims ->
  AccessKey claims = cred_AccessKey cred
  \/ Subject claims = cred_AccessKey cred ->
  storageServerRequestValidate ExtractToken ParseWithStandardClaims
    time_Parse cred now r
  = if negb (bytes_eqb (Audience claims) (RawQuery r))
    then Some (Sentinel errAuthentication)
    else match time_Parse (X_Minio_Time r) with
         | None => Some (Sentinel errMalformedAuth)
         | Some requestTime =>
             if skewed requestTime now
             then Some (Sentinel errSkewedAuthTime)
             else None
         end.
Proof.
  intros Ht Hc Ho. unfold storageServerRequestValidate.
  rewrite Ht, Hc.
  assert (O : bytes_eqb (AccessKey claims) (cred_AccessKey cred)
              || bytes_eqb (Subject claims) (cred_AccessKey cred) = true).
  { apply orb_true_iff. destruct Ho as [Ho|Ho]; [left|right];
      now apply bytes_eqb_eq. }
  rewrite O. reflexivity.
Qed.

End Validation.

Lemma Sub_in_range (t u : Z) :
  (time.minDuration <= t - u <= time.maxDuration)%Z -> time.Sub t u = (t - u)%Z.
Proof.
  unfold time.Sub. intros [Hlo Hhi]. rewrite Z.gtb_ltb.
  destruct (Z.ltb_spec (t - u) time.minDuration); [lia|].
  destruct (Z.ltb_spec time.maxDuration (t - u)); [lia|reflexivity].
Qed.

Lemma Sub_below_range (t u : Z) :
  (t - u <= time.minDuration)%Z -> time.Sub t u = time.minDuration.
Proof.
  unfold time.Sub. intros H.
  destruct (Z.ltb_spec (t - u) time.minDuration); [reflexivity|].
  rewrite Z.gtb_ltb.
  destruct (Z.ltb_spec time.maxDuration (t - u)) as [H'|H'].
  - unfold time.minDuration, time.maxDuration in *. lia.
  - lia.
Qed.

Lemma int64_negate (d : Z) :
  (time.minDuration < d < 0)%Z -> time.int64 (d * -1) = (- d)%Z.
Proof.
  unfold time.int64, time.minDuration.
  change (2 ^ 63)%Z with 9223372036854775808%Z.
  change (2 ^ 64)%Z with 18446744073709551616%Z.
  intros H. rewrite Z.mod_small by lia. lia.
Qed.

(** Inside the range of a [Duration] the skew test is the comparison of the
    absolute difference with the tolerance. *)
Lemma skewed_in_range (requestTime utcNow : Z) :
  (time.minDuration < requestTime - utcNow <= time.maxDuration)%Z ->
  skewed requestTime utcNow = (Z.abs (requestTime - utcNow) >? DefaultSkewTime)%Z.
Proof.
  intros H. unfold skewed. cbv zeta. rewrite Sub_in_range by lia.
  destruct (Z.ltb_spec (requestTime - utcNow) 0) as [H3|H3].
  - rewrite int64_negate, Z.abs_neq by lia. reflexivity.
  - rewrite Z.abs_eq by lia. reflexivity.
Qed.

(** At the boundary: exactly fifteen minutes away is accepted, one second
    more is not. *)
Lemma skewed_boundary (utcNow : Z) :
  skewed (utcNow + DefaultSkewTime) utcNow = false
  /\ skewed (utcNow - DefaultSkewTime) utcNow = false
  /\ skewed (utcNow + (DefaultSkewTime + time.Second)) utcNow = true
  /\ skewed (utcNow - (DefaultSkewTime + time.Second)) utcNow = true.
Proof.
  repeat split; rewrite skewed_in_range;
    unfold time.minDuration, time.maxDuration, DefaultSkewTime, time.Minute,
      time.Second, time.Nanosecond;
    try (apply Z.gtb_lt || (rewrite Z.gtb_ltb; apply Z.ltb_ge)); lia.
Qed.

(** Below the range of a [Duration] the difference saturates at
    [minDuration], whose negation wraps to itself: the test passes. *)
Lemma skewed_saturated (requestTime utcNow : Z) :
  (requestTime - utcNow <= time.minDuration)%Z ->
  skewed requestTime utcNow = false.
Proof.
  intros H. unfold skewed. cbv zeta. rewrite Sub_below_range by assumption.
  reflexivity.
Qed.

Lemma Sub_above_range (t u : Z) :
  (time.maxDuration <= t - u)%Z -> time.Sub t u = time.maxDuration.
Proof.
  unfold time.Sub. intros H. rewrite Z.gtb_ltb.
  destruct (Z.ltb_spec (t - u) time.minDuration) as [H1|H1].
  - unfold time.minDuration, time.maxDuration in *. lia.
  - destruct (Z.ltb_spec time.maxDuration (t - u)); [reflexivity|lia].
Qed.

Lemma skewed_iff (requestTime utcNow : Z) :
  skewed requestTime utcNow = true
  <-> (DefaultSkewTime < requestTime - utcNow
       \/ time.minDuration < requestTime - utcNow < - DefaultSkewTime)%Z.
Proof.
  assert (Hmin : (time.minDuration < - DefaultSkewTime)%Z) by reflexivity.
  assert (Hmax : (DefaultSkewTime < time.maxDuration)%Z) by reflexivity.
  assert (Hpos : (0 < DefaultSkewTime)%Z) by reflexivity.
  destruct (Z.le_gt_cases (requestTime - utcNow) time.minDuration) as [Lo|Lo].
  { rewrite skewed_saturated by assumption. split; [discriminate|lia]. }
  destruct (Z.le_gt_cases (requestTime - utcNow) time.maxDuration) as [Hi|Hi].
  { rewrite skewed_in_range by lia. rewrite Z.gtb_ltb, Z.ltb_lt. lia. }
  unfold skewed. cbv zeta. rewrite Sub_above_range by lia.
  split; [lia|reflexivity].
Qed.

(** C6, as amended.  For every request.  When the token is extracted and
    verified: a signer key that matches neither the claims' access key nor
    their subject fails with the authentication error; so does an audience
    that differs from the raw query string (both causes give the same
    error, neither gives the malformed error); and, these two checks passing
    and the timestamp parsing, a timestamp that is less than 2^63
    nanoseconds behind the current time fails with the skewed-time error
    when it is further than the tolerance from the current time, in either
    direction and however far ahead, and passes when it is within the
    tolerance.  The malformed error is returned exactly in two cases: the
    token extractor fails otherwise than for a missing token, or, the token
    being extracted and verified, the signer owning the key and the audience
    being the query string, the timestamp does not parse. *)
Theorem storageServerRequestValidate_failures
    (ExtractToken : Request -> extracted)
    (ParseWithStandardClaims : list byte -> list byte -> option StandardClaims)
    (time_Parse : list byte -> option Z)
    (cred : Credentials) (now : Z) (r : Request) :
  (forall (token : list byte) (claims : StandardClaims),
      ExtractToken r = Token token ->
      ParseWithStandardClaims token (cred_SecretKey cred) = Some claims ->
      (AccessKey claims <> cred_AccessKey cred ->
       Subject claims <> cred_AccessKey cred ->
       storageServerRequestValidate ExtractToken ParseWithStandardClaims
         time_Parse cred now r = Some (Sentinel errAuthentication))
      /\ (AccessKey claims = cred_AccessKey cred
          \/ Subject claims = cred_AccessKey cred ->
          Audience claims <> RawQuery r ->
          storageServerRequestValidate ExtractToken ParseWithStandardClaims
            time_Parse cred now r = Some (Sentinel errAuthentication))
      /\ (AccessKey claims = cred_AccessKey cred
          \/ Subject claims = cred_AccessKey cred ->
          Audience claims = RawQuery r ->
          forall requestTime : Z,
            time_Parse (X_Minio_Time r) = Some requestTime ->
            (time.minDuration < requestTime - now)%Z ->
            ((Z.abs (requestTime - now) > DefaultSkewTime)%Z ->
             storageServerRequestValidate ExtractToken ParseWithStandardClaims
               time_Parse cred now r = Some (Sentinel errSkewedAuthTime))
            /\ ((Z.abs (requestTime - now) <= DefaultSkewTime)%Z ->
                storageServerRequestValidate ExtractToken
                  ParseWithStandardClaims time_Parse cred now r = None)))
  /\ (storageServerRequestValidate ExtractToken ParseWithStandardClaims
        time_Parse cred now r = Some (Sentinel errMalformedAuth)
      <-> ExtractToken r = ErrExtract
          \/ exists (token : list byte) (claims : StandardClaims),
               ExtractToken r = Token token
               /\ ParseWithStandardClaims token (cred_SecretKey cred)
                  = Some claims
               /\ (AccessKey claims = cred_AccessKey cred
                   \/ Subject claims = cred_AccessKey cred)
               /\ Audience claims = RawQuery r
               /\ time_Parse (X_Minio_Time r) = None).
Proof.
  split.
  - intros token claims Ht Hc. refine (conj _ (conj _ _)).
    + intros Ha Hs. eapply validate_not_owner; eassumption.
    + intros Ho Haud. rewrite (validate_owner _ _ _ _ _ _ Ht Hc Ho).
      apply bytes_eqb_neq in Haud. rewrite Haud. reflexivity.
    + intros Ho Haud requestTime Hp Hrange.
      rewrite (validate_owner _ _ _ _ _ _ Ht Hc Ho).
      apply bytes_eqb_eq in Haud. rewrite Haud, Hp. cbn [negb].
      pose proof (skewed_iff requestTime now) as S.
      assert (Hpos : (0 < DefaultSkewTime)%Z) by reflexivity.
      destruct (skewed requestTime now).
      * split; [reflexivity|]. intros Hd. exfalso.
        assert (S1 := proj1 S eq_refl). lia.
      * split; [|reflexivity]. intros Hd. exfalso.
        assert (S1 : (DefaultSkewTime < requestTime - now
                      \/ time.minDuration < requestTime - now
                         < - DefaultSkewTime)%Z) by lia.
        apply S in S1. discriminate.
  - split.
    + unfold storageServerRequestValidate.
      destruct (ExtractToken r) as [token| |] eqn:Ht;
        [|discriminate|intros _; now left].
      destruct (ParseWithStandardClaims token (cred_SecretKey cred))
        as [claims|] eqn:Hc; [|discriminate].
      cbv zeta.
      destruct (bytes_eqb (AccessKey claims) (cred_AccessKey cred)
                || bytes_eqb (Subject claims) (cred_AccessKey cred)) eqn:Ho;
        [|discriminate].
      destruct (bytes_eqb (Audience claims) (RawQuery r)) eqn:Ha;
        [|discriminate].
      cbn [negb].
      destruct (time_Parse (X_Minio_Time r)) as [requestTime|] eqn:Hp.
      * destruct (_ >? _)%Z; discriminate.
      * intros _. right. exists token, claims.
        apply bytes_eqb_eq in Ha. apply orb_true_iff in Ho.
        refine (conj eq_refl (conj Hc (conj _ (conj Ha eq_refl)))).
        destruct Ho as [Ho|Ho]; apply bytes_eqb_eq in Ho; [now left|now right].
    + intros [He|(token & claims & Ht & Hc & Ho & Ha & Hp)].
      * unfold storageServerRequestValidate. now rewrite He.
      * rewrite (validate_owner _ _ _ _ _ _ Ht Hc Ho).
        apply bytes_eqb_eq in Ha. rewrite Ha, Hp. reflexivity.
Qed.

Lemma storageServerRequestValidate_failures_witness :
  storageServerRequestValidate example_ExtractToken example_Parse
    (fun _ => Some 1000%Z) example_cred 1000 (example_request [x62])
  = Some (Sentinel errAuthentication)
  /\ storageServerRequestValidate example_ExtractToken example_Parse
       (fun _ => Some 1000%Z) example_cred 1000
       {| Authorization := [x61]; X_Minio_Time := []; RawQuery := [x72];
          PostForm := [] |}
     = Some (Sentinel errAuthentication)
  /\ storageServerRequestValidate example_ExtractToken example_Parse
       (fun _ => Some (1000 + 901 * time.Second)%Z) example_cred 1000
       (example_request [x61])
     = Some (Sentinel errSkewedAuthTime)
  /\ storageServerRequestValidate example_ExtractToken example_Parse
       (fun _ => Some (1000 - 900 * time.Second)%Z) example_cred 1000
       (example_request [x61])
     = None
  /\ storageServerRequestValidate example_ExtractToken example_Parse
       (fun _ => None) example_cred 1000 (example_request [x61])
     = Some (Sentinel errMalformedAuth).
Proof.
  refine (conj _ (conj _ (conj _ (conj _ _)))).
  - apply (proj1 (proj1 (@storageServerRequestValidate_failures
                           example_ExtractToken example_Parse
                           (fun _ => Some 1000%Z) example_cred 1000
                           (example_request [x62]))
                    [x62] _ eq_refl eq_refl)); discriminate.
  - apply (proj1 (proj2 (proj1 (@storageServerRequestValidate_failures
                           example_ExtractToken example_Parse
                           (fun _ => Some 1000%Z) example_cred 1000
                           {| Authorization := [x61]; X_Minio_Time := [];
                              RawQuery := [x72]; PostForm := [] |})
                    [x61] _ eq_refl eq_refl))); [now left|discriminate].
  - apply (proj2 (proj2 (proj1 (@storageServerRequestValidate_failures
                           example_ExtractToken example_Parse
                           (fun _ => Some (1000 + 901 * time.Second)%Z)
                           example_cred 1000 (example_request [x61]))
                    [x61] _ eq_refl eq_refl))
             (or_introl eq_refl) eq_refl (1000 + 901 * time.Second)%Z eq_refl).
    + unfold time.minDuration, time.Second, time.Nanosecond. lia.
    + unfold DefaultSkewTime, time.Minute, time.Second, time.Nanosecond. lia.
  - apply (proj2 (proj2 (proj1 (@storageServerRequestValidate_failures
                           example_ExtractToken example_Parse
                           (fun _ => Some (1000 - 900 * time.Second)%Z)
                           example_cred 1000 (example_request [x61]))
                    [x61] _ eq_refl eq_refl))
             (or_introl eq_refl) eq_refl (1000 - 900 * time.Second)%Z eq_refl).
    + unfold time.minDuration, time.Second, time.Nanosecond. lia.
    + unfold DefaultSkewTime, time.Minute, time.Second, time.Nanosecond. lia.
  - apply (proj2 (proj2 (@storageServerRequestValidate_failures
                           example_ExtractToken example_Parse
                           (fun _ => None) example_cred 1000
                           (example_request [x61])))).
    right. exists [x61], {| AccessKey := [x61]; Subject := [];
                            Audience := [x71] |}.
    refine (conj eq_refl (conj eq_refl (conj _ (conj eq_refl eq_refl)))).
    now left.
Defined.

(** C6, as stated, fails: a verified token whose signer key is not the
    node's active credential fails with the authentication error, not the
    malformed error. *)
Lemma signer_mismatch_is_not_malformed :
  storageServerRequestValidate example_ExtractToken example_Parse
    (fun _ => Some 0%Z) example_cred 0 (example_request [x62])
  = Some (Sentinel errAuthentication)
  /\ storageServerRequestValidate example_ExtractToken example_Parse
       (fun _ => Some 0%Z) example_cred 0 (example_request [x62])
     <> Some (Sentinel errMalformedAuth).
Proof. split; [reflexivity|discriminate]. Qed.

(** C5 at its failing input.  The node's clock reads 2024-01-01T00:00:00Z
    and an otherwise valid request declares 1700-01-01T00:00:00Z, more than
    292 years (2^63 ns) earlier: the request is accepted. *)
Lemma skew_check_accepts_far_past :
  let utcNow := (1704067200 * time.Second)%Z in
  let requestTime := (-8520336000 * time.Second)%Z in
  (Z.abs (requestTime - utcNow) > DefaultSkewTime)%Z
  /\ storageServerRequestValidate example_ExtractToken example_Parse
       (fun _ => Some requestTime) example_cred utcNow (example_request [x61])
     = None.
Proof. split; reflexivity. Qed.

(** ** Disk lookup and identity validation *)

Section Identity.

Variable Error : error -> list byte.
Variable ExtractToken : Request -> extracted.
Variable ParseWithStandardClaims : list byte -> list byte -> option StandardClaims.
Variable time_Parse : list byte -> option Z.
Variable ParseForm_diskID : Request -> error + list byte.

Lemma IsAuthValid_absent (g : Globals) (s : storageRESTServer) (r : Request) :
  getStorage (globalLocalSetDrives g) s = None ->
  IsAuthValid Error ExtractToken ParseWithStandardClaims time_Parse g s r
  = (false, Some (writeErrorResponse Error (Sentinel errDiskNotFound))).
Proof. intros H. unfold IsAuthValid. rewrite H. reflexivity. Qed.

Lemma IsAuthValid_passes (g : Globals) (s : storageRESTServer) (r : Request)
    (storage : StorageAPI) :
  getStorage (globalLocalSetDrives g) s = Some storage ->
  storageServerRequestValidate ExtractToken ParseWithStandardClaims
    time_Parse (globalActiveCred g) (UTCNow g) r = None ->
  IsAuthValid Error ExtractToken ParseWithStandardClaims time_Parse g s r
  = (true, None).
Proof. intros H V. unfold IsAuthValid. rewrite H, V. reflexivity. Qed.

(** C10.  When the table entry of the server's coordinate holds no storage,
    [IsAuthValid], and so [IsValid] with which every HTTP handler starts,
    rejects the request with the disk-not-found error whatever the request
    is and whatever the token extractor, the token verification, the
    timestamp parser and the form decoder would answer: none of them is
    consulted. *)
Theorem absent_disk_rejected_first (g : Globals) (s : storageRESTServer)
    (r : Request) :
  slot (globalLocalSetDrives g) s = Some None ->
  IsAuthValid Error ExtractToken ParseWithStandardClaims time_Parse g s r
  = (false, Some (writeErrorResponse Error (Sentinel errDiskNotFound)))
  /\ IsValid Error ExtractToken ParseWithStandardClaims time_Parse
       ParseForm_diskID g s r
     = (false, Some (writeErrorResponse Error (Sentinel errDiskNotFound))).
Proof.
  intros Hslot.
  assert (H : getStorage (globalLocalSetDrives g) s = None)
    by (unfold getStorage; now rewrite Hslot).
  split; [now apply IsAuthValid_absent|].
  unfold IsValid. rewrite IsAuthValid_absent by assumption. reflexivity.
Qed.

(** C3, as amended.  With the storage attached: an HTTP call that passed
    authentication passes [IsValid] when its disk-id is empty (whatever the
    stored id is), is rejected with the stale-drive error when its disk-id
    is non-empty and differs from the stored id, and passes when it equals
    the stored id; a grid call passes [checkID] when its disk-id is empty or
    equals the stored id, and with a non-empty differing disk-id fails
    [checkID], which [DiskInfoHandler] reports as disk not found. *)
Theorem identity_validation (g : Globals) (s : storageRESTServer)
    (storage : StorageAPI) :
  getStorage (globalLocalSetDrives g) s = Some storage ->
  (forall (r : Request) (diskID : list byte),
      storageServerRequestValidate ExtractToken ParseWithStandardClaims
        time_Parse (globalActiveCred g) (UTCNow g) r = None ->
      ParseForm_diskID r = inr diskID ->
      (diskID = [] ->
       IsValid Error ExtractToken ParseWithStandardClaims time_Parse
         ParseForm_diskID g s r = (true, None))
      /\ (forall stored,
             GetDiskID storage = (stored, None) ->
             diskID <> [] -> diskID <> stored ->
             IsValid Error ExtractToken ParseWithStandardClaims time_Parse
               ParseForm_diskID g s r
             = (false, Some (writeErrorResponse Error (Sentinel errDiskStale))))
      /\ (forall stored,
             GetDiskID storage = (stored, None) ->
             diskID = stored ->
             IsValid Error ExtractToken ParseWithStandardClaims time_Parse
               ParseForm_diskID g s r = (true, None)))
  /\ (forall wantID : list byte,
         (wantID = [] -> checkID g s wantID = true)
         /\ (forall stored,
                GetDiskID storage = (stored, None) ->
                wantID <> [] -> wantID <> stored ->
                checkID g s wantID = false
                /\ forall withMetrics,
                    DiskInfoHandler Error g s wantID withMetrics
                    = (None, Some (NewRemoteErr (Sentinel errDiskNotFound))))
         /\ (forall stored,
                GetDiskID storage = (stored, None) ->
                wantID = stored ->
                checkID g s wantID = true)).
Proof.
  intros Hst. split.
  - intros r diskID Hauth Hform.
    unfold IsValid.
    rewrite (IsAuthValid_passes g s r Hst Hauth), Hform, Hst.
    refine (conj _ (conj _ _)).
    + intros ->. reflexivity.
    + intros stored Hid Hne Hdiff.
      apply bytes_eqb_neq in Hne, Hdiff. rewrite Hne, Hid, Hdiff. reflexivity.
    + intros stored Hid ->.
      destruct (bytes_eqb stored []); [reflexivity|].
      rewrite Hid. rewrite (proj2 (bytes_eqb_eq stored stored) eq_refl).
      reflexivity.
  - intros wantID. unfold DiskInfoHandler, checkID. rewrite Hst.
    refine (conj _ (conj _ _)).
    + intros ->. reflexivity.
    + intros stored Hid Hne Hdiff.
      apply bytes_eqb_neq in Hne, Hdiff. rewrite Hne, Hid, Hdiff.
      split; reflexivity.
    + intros stored Hid ->.
      destruct (bytes_eqb stored []); [reflexivity|].
      rewrite Hid. now apply bytes_eqb_eq.
Qed.

End Identity.

Lemma absent_disk_rejected_first_witness :
  IsValid (fun _ => []) example_ExtractToken example_Parse
    (fun _ => Some 0%Z) (fun _ => inr [])
    (example_globals None) example_server (example_request [x61])
  = (false, Some (writeErrorResponse (fun _ => []) (Sentinel errDiskNotFound))).
Proof.
  apply (proj2 (@absent_disk_rejected_first (fun _ => [])
                  example_ExtractToken example_Parse (fun _ => Some 0%Z)
                  (fun _ => inr []) (example_globals None) example_server
                  (example_request [x61]) eq_refl)).
Defined.

Lemma identity_validation_witness :
  IsValid (fun _ => []) example_ExtractToken example_Parse
    (fun _ => Some 0%Z) (fun _ => inr [])
    (example_globals (Some (example_storage [x65]))) example_server
    (example_request [x61])
  = (true, None)
  /\ IsValid (fun _ => []) example_ExtractToken example_Parse
       (fun _ => Some 0%Z) (fun _ => inr [x64])
       (example_globals (Some (example_storage [x65]))) example_server
       (example_request [x61])
     = (false, Some (writeErrorResponse (fun _ => []) (Sentinel errDiskStale)))
  /\ IsValid (fun _ => []) example_ExtractToken example_Parse
       (fun _ => Some 0%Z) (fun _ => inr [x65])
       (example_globals (Some (example_storage [x65]))) example_server
       (example_request [x61])
     = (true, None)
  /\ checkID (example_globals (Some (example_storage [x65]))) example_server
       [x64] = false
  /\ checkID (example_globals (Some (example_storage [x65]))) example_server
       [x65] = true.
Proof.
  pose proof (fun parse =>
                @identity_validation (fun _ => [])
                  example_ExtractToken example_Parse (fun _ => Some 0%Z)
                  parse
                  (example_globals (Some (example_storage [x65])))
                  example_server (example_storage [x65]) eq_refl) as H.
  refine (conj _ (conj _ (conj _ (conj _ _)))).
  - apply (proj1 (H (fun _ => inr []))
             (example_request [x61]) [] eq_refl eq_refl). reflexivity.
  - apply (proj1 (H (fun _ => inr [x64]))
             (example_request [x61]) [x64] eq_refl eq_refl) with (stored := [x65]);
      [reflexivity|discriminate|discriminate].
  - apply (proj1 (H (fun _ => inr [x65]))
             (example_request [x61]) [x65] eq_refl eq_refl) with (stored := [x65]);
      reflexivity.
  - apply (proj2 (H (fun _ => inr [])) [x64]) with (stored := [x65]);
      [reflexivity|discriminate|discriminate].
  - apply (proj2 (H (fun _ => inr [])) [x65]) with (stored := [x65]);
      reflexivity.
Defined.

(** C3, as stated, fails for the grid handlers: a call to [DiskInfoHandler]
    presenting a non-empty disk-id that differs from the stored id is
    rejected with the disk-not-found error, not the stale-drive error. *)
Lemma mismatched_id_reported_as_disk_not_found :
  DiskInfoHandler (fun _ => [])
    (example_globals (Some (example_storage [x65]))) example_server
    [x64] false
  = (None, Some (NewRemoteErr (Sentinel errDiskNotFound)))
  /\ DiskInfoHandler (fun _ => [])
       (example_globals (Some (example_storage [x65]))) example_server
       [x64] false
     <> (None, Some (NewRemoteErr (Sentinel errDiskStale))).
Proof. split; [reflexivity|discriminate]. Qed.

(** ** Disk bootstrap *)

Lemma filter_all {A : Type} (f : A -> bool) (l : list A) :
  length (filter f l) = length l <-> forall x, In x l -> f x = true.
Proof.
  induction l as [|a l IH]; [cbn; tauto|].
  cbn [filter]. pose proof (filter_length_le f l) as Hle.
  destruct (f a) eqn:Fa; cbn [length In].
  - split.
    + intros H x [<-|Hx]; [exact Fa|]. apply IH; [lia|exact Hx].
    + intros H. f_equal. apply IH. intros x Hx. apply H. now right.
  - split; [lia|]. intros H. specialize (H a (or_introl eq_refl)). congruence.
Qed.

Lemma countErrs_all (errs : list (option error)) (c : sentinel) :
  countErrs errs c = length errs <-> forall e, In e errs -> carries c e.
Proof.
  unfold countErrs. rewrite filter_all. unfold carries.
  split; intros H e He; specialize (H e He).
  - destruct e as [e'|]; [eauto|discriminate].
  - destruct H as (e' & -> & H). exact H.
Qed.

Lemma logFatalErrs_retry (e : error) :
  errors_Is e errXLBackend = false ->
  errors_Is e errUnsupportedDisk = false ->
  errors_Is e errDiskNotDir = false ->
  logFatalErrs e false = LogOnce.
Proof.
  intros H1 H2 H3. unfold logFatalErrs. rewrite H1, H2, H3.
  repeat destruct (errors_Is e _); reflexivity.
Qed.

Lemma logFatalErrs_fatal (e : error) (exit : bool) :
  errors_Is e errXLBackend = true
  \/ errors_Is e errUnsupportedDisk = true
  \/ errors_Is e errDiskNotDir = true ->
  logFatalErrs e exit = Fatal.
Proof.
  unfold logFatalErrs. intros [H|[H|H]].
  - now rewrite H.
  - rewrite H. now destruct (errors_Is e errXLBackend).
  - rewrite H.
    now destruct (errors_Is e errXLBackend), (errors_Is e errUnsupportedDisk).
Qed.

Lemma attach_retries (fails : list error) :
  forall (rest : list (option error)) (n : nat),
    (forall e, In e fails -> logFatalErrs e false = LogOnce) ->
    attach (map Some fails ++ None :: rest) n = Attached (n + length fails).
Proof.
  induction fails as [|e fails IH]; intros rest n H.
  - cbn. f_equal. lia.
  - cbn [map app attach]. rewrite (H e (or_introl eq_refl)).
    rewrite IH by (intros e' He'; apply H; now right).
    cbn [length]. f_equal. lia.
Qed.

(** C7, as amended.  [checkDiskFatalErrs] returns a fatal condition exactly
    when one recognized condition (unsupported disk, disk access denied,
    file access denied, not a directory, faulty disk, XL backend mismatch)
    is carried by every entry of the list, and nil otherwise.  Apart from
    that check, [registerStorageRESTHandlers] retries a failing disk after
    every 3-second sleep until an attempt succeeds as long as its failures
    are not XL backend mismatch, unsupported disk or not a directory; a
    failure with one of these three ends the process at once. *)
Theorem bootstrap_fatal_and_retry :
  (forall errs : list (option error),
      checkDiskFatalErrs errs <> None
      <-> exists c, In c recognized /\ forall e, In e errs -> carries c e)
  /\ (forall (fails : list error) (rest : list (option error)),
         (forall e, In e fails ->
                    errors_Is e errXLBackend = false
                    /\ errors_Is e errUnsupportedDisk = false
                    /\ errors_Is e errDiskNotDir = false) ->
         attach (map Some fails ++ None :: rest) 0 = Attached (length fails))
  /\ (forall (e : error) (later : list (option error)) (n : nat),
         errors_Is e errXLBackend = true
         \/ errors_Is e errUnsupportedDisk = true
         \/ errors_Is e errDiskNotDir = true ->
         attach (Some e :: later) n = ProcessExit e).
Proof.
  refine (conj _ (conj _ _)).
  - intros errs. unfold checkDiskFatalErrs, recognized. split.
    + intros H.
      repeat match goal with
             | H : context [countErrs errs ?c =? length errs] |- _ =>
                 destruct (Nat.eqb_spec (countErrs errs c) (length errs))
                   as [E|_];
                 [exists c; split; [cbn; tauto|now apply countErrs_all]|]
             end.
      contradiction.
    + intros (c & Hc & Hall). apply countErrs_all in Hall.
      cbn in Hc.
      repeat match goal with
             | |- context [countErrs errs ?c' =? length errs] =>
                 destruct (Nat.eqb_spec (countErrs errs c') (length errs));
                 [discriminate|]
             end.
      repeat (destruct Hc as [<-|Hc]; [contradiction|]). contradiction.
  - intros fails rest H. rewrite attach_retries; [reflexivity|].
    intros e He. destruct (H e He) as (H1 & H2 & H3).
    now apply logFatalErrs_retry.
  - intros e later n H. cbn [attach]. now rewrite logFatalErrs_fatal.
Qed.

Lemma bootstrap_fatal_and_retry_witness :
  checkDiskFatalErrs
    [Some (Sentinel errFaultyDisk);
     Some (Wrapped [x61] (Sentinel errFaultyDisk))] <> None
  /\ attach (map Some [Sentinel errDiskFull; Sentinel errFaultyDisk]
               ++ None :: []) 0 = Attached 2
  /\ attach [Some (Sentinel errDiskNotDir); None] 0
     = ProcessExit (Sentinel errDiskNotDir).
Proof.
  refine (conj _ (conj _ _)).
  - apply (proj2 (proj1 bootstrap_fatal_and_retry _)).
    exists errFaultyDisk. split; [cbn; tauto|].
    intros e [<-|[<-|[]]]; eexists; split; reflexivity.
  - apply (proj1 (proj2 bootstrap_fatal_and_retry)
             [Sentinel errDiskFull; Sentinel errFaultyDisk] []).
    intros e [<-|[<-|[]]]; repeat split.
  - apply (proj2 (proj2 bootstrap_fatal_and_retry)). right. right. reflexivity.
Defined.

(** C7, as stated, fails: two disks fail with distinct conditions, so
    [checkDiskFatalErrs] returns nil, yet the disk that failed with the
    unsupported-disk condition is not retried: its first failure ends the
    process, though its next attempt would have succeeded. *)
Lemma distinct_conditions_not_all_retried :
  checkDiskFatalErrs
    [Some (Sentinel errUnsupportedDisk); Some (Sentinel errFaultyDisk)] = None
  /\ attach [Some (Sentinel errUnsupportedDisk); None] 0
     = ProcessExit (Sentinel errUnsupportedDisk)
  /\ attach [Some (Sentinel errUnsupportedDisk); None] 0 <> Attached 1.
Proof. repeat split; discriminate. Qed.


(** * Further properties of the file *)

(** ** The stream reader on an arbitrary stream *)

Lemma framed_consumed (pre data : list byte) :
  framed pre data ->
  forall rest w,
    waitForHTTPStream (pre ++ rest) w = waitForHTTPStream rest (w ++ data).
Proof.
  induction 1 as [|s data _ IH|b0 b1 b2 b3 payload s data Hlen _ IH];
    intros rest w.
  - now rewrite app_nil_r.
  - cbn [app]. rewrite stream_heartbeat. apply IH.
  - cbn [app]. rewrite <- app_assoc, stream_block_exact by assumption.
    rewrite IH, app_assoc. reflexivity.
Qed.

(** Every stream splits into whole frames and what ends them. *)
Lemma stream_split (n : nat) :
  forall s : list byte,
    length s <= n ->
    exists pre data tail,
      s = pre ++ tail /\ framed pre data /\ ends_frames tail.
Proof.
  induction n as [|n IH]; intros s Hn.
  - destruct s; [|cbn in Hn; lia].
    exists [], [], []. repeat split. constructor.
  - destruct s as [|tag s]; [exists [], [], []; repeat split; constructor|].
    cbn [length] in Hn.
    destruct (Byte.byte_eq_dec tag x20) as [->|N20].
    { destruct (IH s ltac:(lia)) as (pre & data & tail & -> & Hf & He).
      exists (x20 :: pre), data, tail. repeat split; [now constructor|exact He]. }
    destruct (Byte.byte_eq_dec tag x02) as [->|N02].
    2:{ exists [], [], (tag :: s). repeat split; [constructor|exact N20|].
        intros ->. contradiction. }
    destruct (Nat.ltb_spec (length s) 4) as [Hhdr|Hhdr].
    { exists [], [], (x02 :: s). repeat split;
        [constructor|discriminate|intros _; now left]. }
    destruct s as [|b0 [|b1 [|b2 [|b3 r]]]]; try (cbn in Hhdr; lia).
    set (len := binary.Uint32 [b0; b1; b2; b3]).
    destruct (N.ltb_spec (N.of_nat (length r)) len) as [Hshort|Hfull].
    + exists [], [], (x02 :: b0 :: b1 :: b2 :: b3 :: r).
      repeat split; [constructor|discriminate|].
      intros _. right. now exists b0, b1, b2, b3, r.
    + destruct (IH (skipn (N.to_nat len) r)) as (pre & data & tail & E & Hf & He).
      { rewrite length_skipn. cbn [length] in Hn. lia. }
      exists (x02 :: b0 :: b1 :: b2 :: b3 :: firstn (N.to_nat len) r ++ pre),
        (firstn (N.to_nat len) r ++ data), tail.
      repeat split.
      * cbn [app]. rewrite <- app_assoc, <- E, firstn_skipn. reflexivity.
      * constructor; [|exact Hf].
        rewrite length_firstn, Nat.min_l by lia. apply N2Nat.id.
      * exact He.
Qed.

(** What the reader returns at the end of the whole frames. *)
Lemma ends_frames_result (tail : list byte) :
  ends_frames tail ->
  (tail = [] /\ forall w, waitForHTTPStream tail w = (w, Some (Sentinel io_EOF)))
  \/ (exists rest, tail = x00 :: rest
                   /\ forall w, waitForHTTPStream tail w = (w ++ rest, None))
  \/ (exists msg, tail = x01 :: msg
                  /\ forall w, waitForHTTPStream tail w
                               = (w, Some (errors_New msg)))
  \/ (exists rest avail e,
         tail = x02 :: rest
         /\ (e = io_EOF \/ e = io_ErrUnexpectedEOF)
         /\ forall w, waitForHTTPStream tail w = (w ++ avail, Some (Sentinel e)))
  \/ (exists tag rest,
         tail = tag :: rest
         /\ tag <> x00 /\ tag <> x01 /\ tag <> x02 /\ tag <> x20
         /\ forall w, waitForHTTPStream tail w
                      = (w, Some (unexpected_filler_byte tag))).
Proof.
  destruct tail as [|tag rest]; [intros _; left; split; [reflexivity|]|].
  { intros w. now rewrite waitForHTTPStream_equation_1. }
  intros [N20 H02].
  destruct (Byte.byte_eq_dec tag x00) as [->|N00].
  { right. left. exists rest. split; [reflexivity|]. intros w.
    apply stream_success. }
  destruct (Byte.byte_eq_dec tag x01) as [->|N01].
  { right. right. left. exists rest. split; [reflexivity|]. intros w.
    apply stream_error. }
  destruct (Byte.byte_eq_dec tag x02) as [->|N02].
  { right. right. right. left.
    destruct (H02 eq_refl) as [Hshort|(b0 & b1 & b2 & b3 & avail & -> & Hlt)].
    - exists rest, [], (match rest with [] => io_EOF | _ => io_ErrUnexpectedEOF end).
      split; [reflexivity|]. split; [destruct rest; auto|].
      intros w. rewrite app_nil_r. now apply stream_block_header_short.
    - exists (b0 :: b1 :: b2 :: b3 :: avail), avail, io_ErrUnexpectedEOF.
      split; [reflexivity|]. split; [auto|].
      intros w. now apply stream_block_short. }
  right. right. right. right. exists tag, rest.
  repeat split; try assumption. intros w. now apply stream_other.
Qed.

(** A nil result comes from a success frame at a frame boundary. *)
Lemma stream_success_inv (s w out : list byte) :
  waitForHTTPStream s w = (out, None) ->
  exists pre data rest,
    s = pre ++ x00 :: rest /\ framed pre data /\ out = w ++ data ++ rest.
Proof.
  intros H.
  destruct (stream_split (n := length s) s (le_n _))
    as (pre & data & tail & -> & Hf & He).
  rewrite (framed_consumed Hf) in H.
  destruct (ends_frames_result tail He)
    as [[_ R]|[(rest & -> & R)|[(msg & _ & R)|[(r & a & e & _ & _ & R)
        |(t & r & _ & _ & _ & _ & _ & R)]]]];
    rewrite R in H; try discriminate H.
  exists pre, data, rest. rewrite <- app_assoc in H.
  repeat split; [exact Hf|congruence].
Qed.

(** X1.  [waitForHTTPStream] returns nil exactly on the streams that carry a
    success frame after a sequence of whole heartbeat and data-block frames;
    the destination then holds what it held before, the payloads of the
    blocks in order, and everything after the success tag.  In particular it
    never reports success on a stream without a success frame at a frame
    boundary. *)
Theorem stream_success_iff (s w out : list byte) :
  waitForHTTPStream s w = (out, None)
  <-> exists pre data rest,
        s = pre ++ x00 :: rest /\ framed pre data /\ out = w ++ data ++ rest.
Proof.
  split.
  - apply stream_success_inv.
  - intros (pre & data & rest & -> & Hf & ->).
    rewrite (framed_consumed Hf), stream_success, app_assoc. reflexivity.
Qed.

Lemma stream_success_iff_witness :
  waitForHTTPStream
    [x20; x02; x02; x00; x00; x00; x07; x09; x20; x00; x0a] [x01]
  = ([x01; x07; x09; x0a], None).
Proof.
  apply (stream_success_iff
           [x20; x02; x02; x00; x00; x00; x07; x09; x20; x00; x0a] [x01]
           [x01; x07; x09; x0a]).
  exists [x20; x02; x02; x00; x00; x00; x07; x09; x20], [x07; x09], [x0a].
  split; [reflexivity|]. split; [|reflexivity].
  apply framed_heartbeat.
  apply (@framed_block x02 x00 x00 x00 [x07; x09] [x20] []);
    [reflexivity|].
  apply framed_heartbeat, framed_nil.
Defined.

(** X2.  [waitForHTTPStream] returns a remote error text exactly on the
    streams that carry an error frame after a sequence of whole heartbeat
    and data-block frames: the text is everything after the error tag, and
    the destination holds what it held before followed by the payloads of
    the blocks that came before the error. *)
Theorem stream_remote_error_iff (s w out msg : list byte) :
  waitForHTTPStream s w = (out, Some (errors_New msg))
  <-> exists pre data,
        s = pre ++ x01 :: msg /\ framed pre data /\ out = w ++ data.
Proof.
  split.
  - intros H.
    destruct (stream_split (n := length s) s (le_n _))
      as (pre & data & tail & -> & Hf & He).
    rewrite (framed_consumed Hf) in H.
    destruct (ends_frames_result tail He)
      as [[_ R]|[(rest & _ & R)|[(m & -> & R)|[(r & a & e & _ & _ & R)
          |(t & r & _ & _ & _ & _ & _ & R)]]]];
      rewrite R in H; try discriminate H.
    exists pre, data. injection H as <- <-. repeat split. exact Hf.
  - intros (pre & data & -> & Hf & ->).
    rewrite (framed_consumed Hf), stream_error. reflexivity.
Qed.

Lemma stream_remote_error_iff_witness :
  waitForHTTPStream
    [x02; x01; x00; x00; x00; x07; x20; x01; x62; x61; x64] []
  = ([x07], Some (errors_New [x62; x61; x64])).
Proof.
  apply (stream_remote_error_iff
           [x02; x01; x00; x00; x00; x07; x20; x01; x62; x61; x64] []
           [x07] [x62; x61; x64]).
  exists [x02; x01; x00; x00; x00; x07; x20], [x07].
  split; [reflexivity|]. split; [|reflexivity].
  apply (@framed_block x01 x00 x00 x00 [x07] [x20] []); [reflexivity|].
  apply framed_heartbeat, framed_nil.
Defined.

(** X3.  A stream that stops after whole heartbeat and data-block frames,
    without a terminal frame, is reported as [io.EOF]; the payloads of the
    blocks received so far have been written to the destination. *)
Theorem stream_without_terminal (pre data w : list byte) :
  framed pre data ->
  waitForHTTPStream pre w = (w ++ data, Some (Sentinel io_EOF)).
Proof.
  intros Hf. rewrite <- (app_nil_r pre), (framed_consumed Hf).
  now rewrite waitForHTTPStream_equation_1.
Qed.

Lemma stream_without_terminal_witness :
  waitForHTTPStream [x20; x02; x01; x00; x00; x00; x07; x20] [x01]
  = ([x01; x07], Some (Sentinel io_EOF)).
Proof.
  apply (@stream_without_terminal
           [x20; x02; x01; x00; x00; x00; x07; x20] [x07] [x01]).
  apply framed_heartbeat.
  apply (@framed_block x01 x00 x00 x00 [x07] [x20] []); [reflexivity|].
  apply framed_heartbeat, framed_nil.
Defined.

(** X4.  [waitForHTTPStream] only appends to its destination, and neither
    what it appends nor the error it returns depends on what the
    destination already holds. *)
Theorem stream_destination_independent (s w : list byte) :
  waitForHTTPStream s w
  = (w ++ fst (waitForHTTPStream s []), snd (waitForHTTPStream s [])).
Proof.
  destruct (stream_split (n := length s) s (le_n _))
    as (pre & data & tail & -> & Hf & He).
  rewrite !(framed_consumed Hf). cbn [app].
  destruct (ends_frames_result tail He)
    as [[_ R]|[(rest & _ & R)|[(m & _ & R)|[(r & a & e & _ & _ & R)
        |(t & r & _ & _ & _ & _ & _ & R)]]]];
    rewrite !R; cbn [fst snd]; rewrite <- ?app_assoc; reflexivity.
Qed.

Lemma response_other (tag : byte) (r : list byte) :
  tag <> x00 -> tag <> x01 -> tag <> x20 ->
  waitForHTTPResponse (tag :: r) = (None, Some (unexpected_filler_byte tag)).
Proof.
  intros H0 H1 H20. destruct tag; try reflexivity; congruence.
Qed.

(** X5.  The two readers agree on every stream that the single-payload
    reader accepts or rejects for a reason other than a block tag: whatever
    [waitForHTTPResponse] returns there, [waitForHTTPStream] returns the
    same error and appends the same payload to its destination. *)
Theorem readers_agree (s w : list byte) :
  snd (waitForHTTPResponse s) <> Some (unexpected_filler_byte x02) ->
  waitForHTTPStream s w
  = (w ++ match fst (waitForHTTPResponse s) with
          | Some payload => payload
          | None => []
          end,
     snd (waitForHTTPResponse s)).
Proof.
  induction s as [|tag s IH]; intros H.
  - rewrite waitForHTTPStream_equation_1, app_nil_r. reflexivity.
  - destruct (Byte.byte_eq_dec tag x20) as [->|N20].
    { rewrite stream_heartbeat. exact (IH H). }
    destruct (Byte.byte_eq_dec tag x00) as [->|N00].
    { rewrite stream_success. reflexivity. }
    destruct (Byte.byte_eq_dec tag x01) as [->|N01].
    { rewrite stream_error, app_nil_r. reflexivity. }
    rewrite (response_other s N00 N01 N20) in H |- *. cbn [fst snd] in H |- *.
    assert (tag <> x02) by congruence.
    rewrite stream_other, app_nil_r by assumption. reflexivity.
Qed.

Lemma readers_agree_witness :
  waitForHTTPStream [x20; x20; x00; x07; x09] [x01]
  = ([x01; x07; x09], None).
Proof.
  apply (@readers_agree [x20; x20; x00; x07; x09] [x01]).
  discriminate.
Defined.

(** ** The writers and their connection *)

Section Sessions.

Variable Error : error -> list byte.

Lemma extends_refl (c : conn) : extends c c.
Proof.
  refine (conj _ (conj _ _)); [exists []; now rewrite app_nil_r|tauto|tauto].
Qed.

Lemma extends_trans (a b c : conn) : extends a b -> extends b c -> extends a c.
Proof.
  intros ([s1 W1] & F1 & T1) ([s2 W2] & F2 & T2).
  refine (conj _ (conj _ _)).
  - exists (s1 ++ s2). rewrite W2, W1, app_assoc. reflexivity.
  - intros H. specialize (F1 H). subst b. exact (F2 H).
  - tauto.
Qed.

Lemma write_extends (c : conn) (b : list byte) : extends c (write c b).
Proof.
  unfold write. destruct (canWrite c) eqn:Hc; [|apply extends_refl].
  unfold http.Write. destruct (http.quota (w c)) as [q|].
  - destruct (length b <=? q); cbn [fst snd].
    + rewrite Nat.eqb_refl. cbn [orb negb].
      refine (conj _ (conj _ _)); [now exists b|congruence|tauto].
    + cbn [orb].
      refine (conj _ (conj _ _)); [now exists (firstn q b)|congruence|tauto].
  - rewrite Nat.eqb_refl. cbn [orb negb].
    refine (conj _ (conj _ _)); [now exists b|congruence|tauto].
Qed.

Lemma write_terminal_extends (c : conn) (e : option error) :
  extends c (write_terminal Error c e).
Proof.
  destruct e as [e|]; cbn [write_terminal].
  - eapply extends_trans; apply write_extends.
  - apply write_extends.
Qed.

Lemma write_block_extends (c : conn) (b : list byte) :
  extends c (write_block c b).
Proof. unfold write_block. eapply extends_trans; apply write_extends. Qed.

Lemma run_extends {S O : Type} (step : S -> O -> option S) (conn_of : S -> conn) :
  (forall s op s1, step s op = Some s1 -> extends (conn_of s) (conn_of s1)) ->
  forall ops s s1,
    run step s ops = Some s1 -> extends (conn_of s) (conn_of s1).
Proof.
  intros Hstep. induction ops as [|op ops IH]; intros s s1 H.
  - injection H as <-. apply extends_refl.
  - rewrite run_cons in H. destruct (step s op) as [s2|] eqn:E; [|discriminate].
    eapply extends_trans; [exact (Hstep _ _ _ E)|exact (IH _ _ H)].
Qed.

Lemma alive_step_extends (s : alive) (op : alive_op) (s1 : alive) :
  alive_step Error s op = Some s1 -> extends (alive_conn s) (alive_conn s1).
Proof.
  destruct op as [|e]; cbn [alive_step].
  - destruct (alive_exited s); intros H; injection H as <-;
      [apply extends_refl|apply write_extends].
  - destruct (alive_doneCh_nil s); [intros H; injection H as <-;
                                    apply extends_refl|].
    destruct (alive_exited s); [discriminate|].
    intros H; injection H as <-. apply write_terminal_extends.
Qed.

Lemma req_step_extends (s : req_alive) (op : req_op) (s1 : req_alive) :
  req_step Error s op = Some s1 -> extends (req_conn s) (req_conn s1).
Proof.
  destruct op as [| | |e]; cbn [req_step].
  - destruct (req_exited s); intros H; injection H as <-; apply extends_refl.
  - destruct (req_exited s); intros H; injection H as <-; apply extends_refl.
  - destruct (req_exited s || req_draining s); intros H; injection H as <-;
      [apply extends_refl|apply write_extends].
  - destruct (req_doneCh_nil s); [intros H; injection H as <-;
                                  apply extends_refl|].
    destruct (req_exited s); [discriminate|].
    intros H; injection H as <-. apply write_terminal_extends.
Qed.

Lemma stream_step_extends (h : httpStreamResponse) (op : stream_op)
    (h1 : httpStreamResponse) :
  stream_step Error h op = Some h1 -> extends (stream_conn h) (stream_conn h1).
Proof.
  destruct op as [|b|e]; cbn [stream_step].
  - destruct (stream_exited h); intros H; injection H as <-;
      [apply extends_refl|apply write_extends].
  - destruct ((length b =? 0) || notnil (err h));
      [intros H; injection H as <-; apply extends_refl|].
    destruct (stream_exited h); [discriminate|].
    intros H; injection H as <-. apply write_block_extends.
  - destruct (done_nil h); [intros H; injection H as <-; apply extends_refl|].
    destruct (stream_exited h); [discriminate|].
    intros H; injection H as <-. apply write_terminal_extends.
Qed.

(** Blocks and a close over a connection that accepts every write: what is
    on the wire before the terminal frame is a sequence of whole frames
    carrying the blocks. *)
Lemma stream_run_framed (e : option error) (sched : list stream_op) :
  forall (blocks : list (list byte)) (l : list byte),
    filter is_call sched = map Write blocks ++ [CloseWithError e] ->
    Forall (fun b => (N.of_nat (length b) < 2 ^ 32)%N) blocks ->
    exists pre,
      run (stream_step Error) (streaming l) sched
      = Some (closed e (l ++ pre ++ terminal_frame Error e))
      /\ framed pre (concat blocks).
Proof.
  induction sched as [|op sched IH]; intros blocks l Hsched Hsmall.
  - destruct blocks; discriminate.
  - rewrite run_cons. destruct op as [|b|e1].
    + cbn [filter is_call] in Hsched.
      destruct (IH blocks (l ++ [x20]) Hsched Hsmall) as (pre & Hrun & Hf).
      exists (x20 :: pre). split.
      * rewrite step_tick, Hrun, <- app_assoc. reflexivity.
      * now constructor.
    + cbn [filter is_call] in Hsched.
      destruct blocks as [|b1 blocks]; cbn [map app] in Hsched;
        [destruct sched; discriminate|].
      injection Hsched as <- Hsched.
      inversion Hsmall as [|? ? Hb Hsmall1]; subst.
      destruct (Nat.eq_dec (length b) 0) as [E|NE].
      * destruct (IH blocks l Hsched Hsmall1) as (pre & Hrun & Hf).
        exists pre. split.
        -- rewrite step_empty_block by assumption. exact Hrun.
        -- destruct b; [exact Hf|discriminate].
      * set (hdr := binary.PutUint32
                      (binary.uint32 (N.of_nat (length b)))).
        destruct (IH blocks (l ++ x02 :: hdr ++ b) Hsched Hsmall1)
          as (pre & Hrun & Hf).
        exists (x02 :: hdr ++ b ++ pre). split.
        -- rewrite step_block by assumption. fold hdr.
           rewrite Hrun. f_equal. f_equal.
           cbn [app]. rewrite <- !app_assoc. reflexivity.
        -- unfold hdr, binary.PutUint32. cbn [app concat].
           constructor; [|exact Hf].
           fold (binary.PutUint32 (binary.uint32 (N.of_nat (length b)))).
           rewrite binary_facts.Uint32_PutUint32. unfold binary.uint32.
           rewrite N.Div0.mod_mod, N.mod_small by assumption.
           reflexivity.
    + cbn [filter is_call] in Hsched.
      destruct blocks as [|b1 blocks]; cbn [map app] in Hsched.
      * injection Hsched as -> Hsched.
        exists []. split; [|constructor].
        rewrite step_close. apply run_closed_ticks, Hsched.
      * discriminate.
Qed.

End Sessions.

(** X6.  In each of the three keep-alive sessions, whatever is done in
    whatever order: bytes once on the wire are never changed (the wire only
    grows at its end); once a write has failed the session writes nothing
    more, so no frame follows a partial one; and [canWrite] never becomes
    true again. *)
Theorem sessions_append_only (Error : error -> list byte) :
  (forall (ops : list alive_op) (s s1 : alive),
      run (alive_step Error) s ops = Some s1 ->
      extends (alive_conn s) (alive_conn s1))
  /\ (forall (ops : list req_op) (s s1 : req_alive),
         run (req_step Error) s ops = Some s1 ->
         extends (req_conn s) (req_conn s1))
  /\ (forall (ops : list stream_op) (h h1 : httpStreamResponse),
         run (stream_step Error) h ops = Some h1 ->
         extends (stream_conn h) (stream_conn h1)).
Proof.
  refine (conj _ (conj _ _)).
  - apply (run_extends (alive_step Error) alive_conn),
      (fun s op s1 => @alive_step_extends Error s op s1).
  - apply (run_extends (req_step Error) req_conn),
      (fun s op s1 => @req_step_extends Error s op s1).
  - apply (run_extends (stream_step Error) stream_conn),
      (fun s op s1 => @stream_step_extends Error s op s1).
Qed.

Lemma sessions_append_only_witness :
  extends
    {| canWrite := true; w := {| http.wire := []; http.quota := Some 3 |} |}
    {| canWrite := false;
       w := {| http.wire := [x20; x02; x02]; http.quota := Some 0 |} |}.
Proof.
  apply (proj2 (proj2 (sessions_append_only (fun _ => [x65])))
           [stream_tick; Write [x07; x09]; stream_tick; CloseWithError None]
           (streamHTTPResponse {| http.wire := []; http.quota := Some 3 |})
           {| done_nil := true; err := None; stream_exited := true;
              stream_conn :=
                {| canWrite := false;
                   w := {| http.wire := [x20; x02; x02];
                           http.quota := Some 0 |} |} |}).
  reflexivity.
Defined.

(** X7.  [keepHTTPResponseAlive] and [waitForHTTPResponse] round trip.  Over
    a connection that accepts every write, after any number of heartbeats:
    when the handler completes with nil and then writes its payload, the
    reader returns exactly that payload and nil; when it completes with an
    error, the reader returns no payload and a new text-only error whose
    text is [err.Error()] (followed by whatever the handler still writes):
    the error's identity is not carried over. *)
Theorem alive_roundtrip (Error : error -> list byte) (k : nat)
    (e : option error) (payload : list byte) :
  exists s,
    run (alive_step Error) (keepHTTPResponseAlive (http.reliable []))
      (repeat alive_tick k ++ [alive_done e]) = Some s
    /\ waitForHTTPResponse (http.wire (w (alive_conn s)) ++ payload)
       = match e with
         | None => (Some payload, None)
         | Some err => (None, Some (errors_New (Error err ++ payload)))
         end.
Proof.
  destruct (alive_ticks Error k {| canWrite := true; w := http.reliable [] |})
    as (c & Hrun & Hw).
  destruct (Hw (conj eq_refl eq_refl)) as [Hc Wc]. cbn in Wc.
  destruct (write_terminal_healthy Error e Hc) as [_ Wt].
  exists (alive_finished (write_terminal Error c e)). split.
  - rewrite run_app.
    change (keepHTTPResponseAlive (http.reliable []))
      with (alive_running {| canWrite := true; w := http.reliable [] |}).
    rewrite Hrun. reflexivity.
  - cbn [alive_conn alive_finished]. rewrite Wt, Wc, <- app_assoc.
    rewrite response_heartbeats. destruct e; reflexivity.
Qed.

(** X8.  [keepHTTPReqResponseAlive] and [waitForHTTPResponse] round trip.
    Over a connection that accepts every write, after any operations that
    are not the completion (the context ending, the body having been read,
    ticks): completing with nil and then writing the payload makes the
    reader return exactly that payload; completing with an error makes it
    return a text-only error with the text of [err.Error()]. *)
Theorem req_roundtrip (Error : error -> list byte) (pre : list req_op)
    (e : option error) (payload : list byte) :
  forallb (fun op => negb (req_is_done op)) pre = true ->
  exists s,
    run (req_step Error) (keepHTTPReqResponseAlive (http.reliable []))
      (pre ++ [req_done e]) = Some s
    /\ waitForHTTPResponse (http.wire (w (req_conn s)) ++ payload)
       = match e with
         | None => (Some payload, None)
         | Some err => (None, Some (errors_New (Error err ++ payload)))
         end.
Proof.
  intros Hpre.
  destruct (req_before Error pre true
              {| canWrite := true; w := http.reliable [] |} Hpre)
    as (d & c & Hrun & Hw).
  destruct (Hw (conj eq_refl eq_refl)) as (Hc & j & Wc). cbn in Wc.
  destruct (write_terminal_healthy Error e Hc) as [_ Wt].
  exists (req_finished d (write_terminal Error c e)). split.
  - rewrite run_app.
    change (keepHTTPReqResponseAlive (http.reliable []))
      with (req_running true {| canWrite := true; w := http.reliable [] |}).
    rewrite Hrun. reflexivity.
  - cbn [req_conn req_finished]. rewrite Wt, Wc, <- app_assoc.
    rewrite response_heartbeats. destruct e; reflexivity.
Qed.

Lemma req_roundtrip_witness :
  exists s,
    run (req_step (fun _ => [x65]))
      (keepHTTPReqResponseAlive (http.reliable []))
      ([req_tick; req_bodyDone; req_tick; req_tick] ++ [req_done None])
    = Some s
    /\ waitForHTTPResponse (http.wire (w (req_conn s)) ++ [x07; x09])
       = (Some [x07; x09], None).
Proof.
  apply (@req_roundtrip (fun _ => [x65])
           [req_tick; req_bodyDone; req_tick; req_tick] None [x07; x09]).
  reflexivity.
Defined.

(** X9.  [keepHTTPReqResponseAlive] sends no heartbeat while the request
    body is still being read: over any connection, when only ticks of the
    clock precede the completion call (neither the context has ended nor
    the body been read), the task makes the terminal write of that call and
    nothing else. *)
Theorem req_no_heartbeat_while_draining (Error : error -> list byte)
    (w0 : http.ResponseWriter) (k : nat) (e : option error) :
  run (req_step Error) (keepHTTPReqResponseAlive w0)
    (repeat req_tick k ++ [req_done e])
  = Some (req_finished true
            (write_terminal Error {| canWrite := true; w := w0 |} e)).
Proof.
  rewrite run_app.
  assert (H : run (req_step Error) (keepHTTPReqResponseAlive w0)
                (repeat req_tick k) = Some (keepHTTPReqResponseAlive w0)).
  { induction k as [|k IH]; [reflexivity|exact IH]. }
  rewrite H. reflexivity.
Qed.

(** X10.  [streamHTTPResponse] and [waitForHTTPStream] round trip for every
    completion.  Over a connection that accepts every write, for blocks each
    shorter than 2^32 bytes followed by [CloseWithError(e)], with ticks
    anywhere: what precedes the terminal frame on the wire is a sequence of
    whole frames; the reader writes exactly the concatenation of the blocks
    and returns nil when [e] is nil, and otherwise a text-only error with
    the text of [e.Error()], after all the blocks sent before it. *)
Theorem stream_roundtrip_any (Error : error -> list byte)
    (blocks : list (list byte)) (sched : list stream_op) (e : option error) :
  filter is_call sched = map Write blocks ++ [CloseWithError e] ->
  Forall (fun b => (N.of_nat (length b) < 2 ^ 32)%N) blocks ->
  exists pre,
    run (stream_step Error) (streamHTTPResponse (http.reliable [])) sched
    = Some (closed e (pre ++ terminal_frame Error e))
    /\ framed pre (concat blocks)
    /\ forall dst,
        waitForHTTPStream (pre ++ terminal_frame Error e) dst
        = (dst ++ concat blocks,
           match e with
           | None => None
           | Some err => Some (errors_New (Error err))
           end).
Proof.
  intros Hsched Hsmall.
  destruct (@stream_run_framed Error e sched blocks [] Hsched Hsmall)
    as (pre & Hrun & Hf).
  exists pre. refine (conj Hrun (conj Hf _)).
  intros dst. rewrite (framed_consumed Hf).
  destruct e as [err|]; cbn [terminal_frame].
  - apply stream_error.
  - rewrite stream_success, app_nil_r. reflexivity.
Qed.

Lemma stream_roundtrip_any_witness :
  exists pre,
    run (stream_step (fun _ => [x62; x61; x64]))
      (streamHTTPResponse (http.reliable []))
      [stream_tick; Write [x07; x09]; stream_tick; Write [];
       CloseWithError (Some (Sentinel errFaultyDisk)); stream_tick]
    = Some (closed (Some (Sentinel errFaultyDisk))
              (pre ++ terminal_frame (fun _ => [x62; x61; x64])
                        (Some (Sentinel errFaultyDisk))))
    /\ framed pre (concat [[x07; x09]; []])
    /\ forall dst,
        waitForHTTPStream
          (pre ++ terminal_frame (fun _ => [x62; x61; x64])
                    (Some (Sentinel errFaultyDisk))) dst
        = (dst ++ concat [[x07; x09]; []],
           Some (errors_New [x62; x61; x64])).
Proof.
  apply (@stream_roundtrip_any (fun _ => [x62; x61; x64])
           [[x07; x09]; []]
           [stream_tick; Write [x07; x09]; stream_tick; Write [];
            CloseWithError (Some (Sentinel errFaultyDisk)); stream_tick]
           (Some (Sentinel errFaultyDisk))).
  - reflexivity.
  - repeat constructor.
Defined.

(** ** Truncated streams *)

Lemma app_same_length {A : Type} (a1 a2 b1 b2 : list A) :
  length a1 = length a2 -> a1 ++ b1 = a2 ++ b2 -> a1 = a2 /\ b1 = b2.
Proof.
  revert a2. induction a1 as [|x a1 IH]; intros [|y a2] Hl E;
    try discriminate Hl.
  - now split.
  - cbn [app] in E. injection E as -> E. injection Hl as Hl.
    destruct (IH a2 Hl E) as [-> ->]. now split.
Qed.

(** The position of the first terminal tag after whole frames is unique. *)
Lemma framed_terminal_unique (pre1 data1 : list byte) :
  framed pre1 data1 ->
  forall pre2 data2 t1 t2,
    framed pre2 data2 ->
    pre1 ++ x00 :: t1 = pre2 ++ x00 :: t2 ->
    pre1 = pre2 /\ t1 = t2.
Proof.
  induction 1 as [|s1 d1 _ IH|b0 b1 b2 b3 payload1 s1 d1 Hlen1 _ IH];
    intros pre2 data2 t1 t2 H2 E;
    destruct H2 as [|s2 d2 H2|c0 c1 c2 c3 payload2 s2 d2 Hlen2 H2];
    cbn [app] in E; try discriminate E.
  - injection E as ->. now split.
  - injection E as E. destruct (IH _ _ _ _ H2 E) as [-> ->]. now split.
  - injection E as -> -> -> -> E.
    rewrite <- !app_assoc in E.
    assert (Hl : length payload1 = length payload2).
    { apply Nat2N.inj. congruence. }
    destruct (app_same_length _ _ _ _ Hl E) as [-> E1].
    destruct (IH _ _ _ _ H2 E1) as [-> ->]. now split.
Qed.

(** X11.  No cut of a complete successful stream is taken for a complete
    one: when the bytes of whole heartbeat and data-block frames followed by
    the success tag are cut short anywhere, [waitForHTTPStream] on what is
    left returns an error. *)
Theorem stream_truncation_detected (pre data s more w : list byte) :
  framed pre data ->
  s ++ more = pre ++ [x00] ->
  more <> [] ->
  snd (waitForHTTPStream s w) <> None.
Proof.
  intros Hf E Hmore Hnil.
  destruct (waitForHTTPStream s w) as [out e] eqn:R. cbn [snd] in Hnil.
  subst e. apply stream_success_inv in R as (pre2 & data2 & rest & -> & Hf2 & _).
  rewrite <- app_assoc in E. cbn [app] in E.
  destruct (@framed_terminal_unique _ _ Hf2 _ _ _ _ Hf E) as [_ Hrest].
  apply app_eq_nil in Hrest as [_ Hrest]. contradiction.
Qed.

Lemma stream_truncation_detected_witness :
  snd (waitForHTTPStream [x20; x02; x02; x00; x00; x00; x07] []) <> None.
Proof.
  apply (@stream_truncation_detected
           [x20; x02; x02; x00; x00; x00; x07; x09] [x07; x09]
           [x20; x02; x02; x00; x00; x00; x07] [x09; x00] []).
  - apply framed_heartbeat.
    apply (@framed_block x02 x00 x00 x00 [x07; x09] [] []);
      [reflexivity|apply framed_nil].
  - reflexivity.
  - discriminate.
Defined.

(** ** The window of accepted timestamps *)

(** X12.  The timestamps [storageServerRequestValidate] accepts, for a
    request whose token is extracted and verified, whose signer owns the
    node's access key and whose audience is the raw query string, with a
    timestamp that parses: the request is rejected with the skewed-time
    error exactly when the timestamp is more than fifteen minutes ahead of
    the clock (however far), or more than fifteen minutes behind it by less
    than 2^63 nanoseconds; every other timestamp is accepted. *)
Theorem skew_window
    (ExtractToken : Request -> extracted)
    (ParseWithStandardClaims : list byte -> list byte -> option StandardClaims)
    (time_Parse : list byte -> option Z)
    (cred : Credentials) (now : Z) (r : Request) (token : list byte)
    (claims : StandardClaims) (requestTime : Z) :
  ExtractToken r = Token token ->
  ParseWithStandardClaims token (cred_SecretKey cred) = Some claims ->
  AccessKey claims = cred_AccessKey cred
  \/ Subject claims = cred_AccessKey cred ->
  Audience claims = RawQuery r ->
  time_Parse (X_Minio_Time r) = Some requestTime ->
  (storageServerRequestValidate ExtractToken ParseWithStandardClaims
     time_Parse cred now r = Some (Sentinel errSkewedAuthTime)
   <-> (DefaultSkewTime < requestTime - now
        \/ time.minDuration < requestTime - now < - DefaultSkewTime)%Z)
  /\ (storageServerRequestValidate ExtractToken ParseWithStandardClaims
        time_Parse cred now r = None
      <-> (requestTime - now <= time.minDuration
           \/ - DefaultSkewTime <= requestTime - now <= DefaultSkewTime)%Z).
Proof.
  intros Ht Hc Ho Ha Hp.
  rewrite (validate_owner ExtractToken ParseWithStandardClaims time_Parse
             cred now r Ht Hc Ho).
  apply bytes_eqb_eq in Ha. rewrite Ha, Hp. cbn [negb].
  pose proof (skewed_iff requestTime now) as S.
  assert (Hmin : (time.minDuration < - DefaultSkewTime)%Z) by reflexivity.
  assert (Hpos : (0 < DefaultSkewTime)%Z) by reflexivity.
  destruct (skewed requestTime now).
  - split; split; try discriminate.
    + intros _. now apply S.
    + reflexivity.
    + intros H. assert (S1 := proj1 S eq_refl). exfalso. lia.
  - split; split; try discriminate.
    + intros H. apply S in H. discriminate.
    + intros _.
      destruct (Z.le_gt_cases (requestTime - now) time.minDuration);
        [now left|right].
      destruct (Z.lt_ge_cases DefaultSkewTime (requestTime - now)) as [G|G];
        [assert (F := proj2 S (or_introl G)); discriminate|].
      destruct (Z.lt_ge_cases (requestTime - now) (- DefaultSkewTime)) as [L|L];
        [assert (F := proj2 S (or_intror (conj H L))); discriminate|].
      lia.
    + reflexivity.
Qed.

Lemma skew_window_witness :
  storageServerRequestValidate example_ExtractToken example_Parse
    (fun _ => Some (2 ^ 64)%Z) example_cred 0 (example_request [x61])
  = Some (Sentinel errSkewedAuthTime).
Proof.
  apply (proj2 (proj1 (@skew_window example_ExtractToken example_Parse
                         (fun _ => Some (2 ^ 64)%Z) example_cred 0
                         (example_request [x61]) [x61]
                         {| AccessKey := [x61]; Subject := [];
                            Audience := [x71] |}
                         (2 ^ 64)%Z eq_refl eq_refl (or_introl eq_refl)
                         eq_refl eq_refl))).
  left. reflexivity.
Defined.

(** ** What the gates let through *)

Lemma validate_kinds
    (ExtractToken : Request -> extracted)
    (ParseWithStandardClaims : list byte -> list byte -> option StandardClaims)
    (time_Parse : list byte -> option Z)
    (cred : Credentials) (now : Z) (r : Request) (e : error) :
  storageServerRequestValidate ExtractToken ParseWithStandardClaims
    time_Parse cred now r = Some e ->
  e = Sentinel errNoAuthToken \/ e = Sentinel errMalformedAuth
  \/ e = Sentinel errAuthentication \/ e = Sentinel errSkewedAuthTime.
Proof.
  unfold storageServerRequestValidate.
  destruct (ExtractToken r) as [token| |];
    [|intros H; injection H as <-; tauto|intros H; injection H as <-; tauto].
  destruct (ParseWithStandardClaims token (cred_SecretKey cred)) as [claims|];
    [|intros H; injection H as <-; tauto].
  cbv zeta.
  destruct (negb _); [intros H; injection H as <-; tauto|].
  destruct (negb _); [intros H; injection H as <-; tauto|].
  destruct (time_Parse (X_Minio_Time r)) as [requestTime|];
    [|intros H; injection H as <-; tauto].
  destruct (_ >? _)%Z; [intros H; injection H as <-; tauto|discriminate].
Qed.

(** X13.  Whatever the request and the token library answer, an error of
    [storageServerRequestValidate] is one of four: no token, malformed
    authentication, authentication failure or skewed time; and
    [writeErrorResponse] answers each of them, under any added context,
    with status 401. *)
Theorem validation_errors_unauthorized
    (Error : error -> list byte)
    (ExtractToken : Request -> extracted)
    (ParseWithStandardClaims : list byte -> list byte -> option StandardClaims)
    (time_Parse : list byte -> option Z)
    (cred : Credentials) (now : Z) (r : Request) (e : error)
    (layers : list (list byte)) :
  storageServerRequestValidate ExtractToken ParseWithStandardClaims
    time_Parse cred now r = Some e ->
  In e (map Sentinel [errNoAuthToken; errMalformedAuth; errAuthentication;
                      errSkewedAuthTime])
  /\ status (writeErrorResponse Error (wrap layers e))
     = StatusCode.StatusUnauthorized.
Proof.
  intros H. apply validate_kinds in H. rewrite status_wrap.
  destruct H as [-> | [-> | [-> | ->]]]; (split; [cbn; tauto|reflexivity]).
Qed.

Lemma validation_errors_unauthorized_witness :
  In (Sentinel errAuthentication)
    (map Sentinel [errNoAuthToken; errMalformedAuth; errAuthentication;
                   errSkewedAuthTime])
  /\ status (writeErrorResponse (fun _ => [x65])
               (wrap [[x63]] (Sentinel errAuthentication)))
     = StatusCode.StatusUnauthorized.
Proof.
  apply (@validation_errors_unauthorized (fun _ => [x65])
           example_ExtractToken example_Parse (fun _ => Some 0%Z)
           example_cred 0 (example_request [x62])
           (Sentinel errAuthentication) [[x63]]).
  reflexivity.
Defined.

(** X14.  [IsValid] never lets a request through that it should stop, and
    never stops one silently.  When it returns true nothing has been written
    to the response, the storage is attached, the request passed
    [storageServerRequestValidate], the form parsed, and the disk-id of the
    request is empty or is the id the storage reports without error.  When
    it returns false an error response has been written. *)
Theorem IsValid_sound
    (Error : error -> list byte)
    (ExtractToken : Request -> extracted)
    (ParseWithStandardClaims : list byte -> list byte -> option StandardClaims)
    (time_Parse : list byte -> option Z)
    (ParseForm_diskID : Request -> error + list byte)
    (g : Globals) (s : storageRESTServer) (r : Request) :
  (forall resp,
      IsValid Error ExtractToken ParseWithStandardClaims time_Parse
        ParseForm_diskID g s r = (true, resp) ->
      resp = None
      /\ exists storage diskID,
          getStorage (globalLocalSetDrives g) s = Some storage
          /\ storageServerRequestValidate ExtractToken ParseWithStandardClaims
               time_Parse (globalActiveCred g) (UTCNow g) r = None
          /\ ParseForm_diskID r = inr diskID
          /\ (diskID = [] \/ GetDiskID storage = (diskID, None)))
  /\ (forall resp,
         IsValid Error ExtractToken ParseWithStandardClaims time_Parse
           ParseForm_diskID g s r = (false, resp) ->
         resp <> None).
Proof.
  unfold IsValid, IsAuthValid.
  destruct (getStorage (globalLocalSetDrives g) s) as [storage|] eqn:Hs;
    [|split; intros resp H; [discriminate|injection H as <-; discriminate]].
  destruct (storageServerRequestValidate _ _ _ _ _ r) as [e|] eqn:Hv;
    [split; intros resp H; [discriminate|injection H as <-; discriminate]|].
  destruct (ParseForm_diskID r) as [e|diskID] eqn:Hp;
    [split; intros resp H; [discriminate|injection H as <-; discriminate]|].
  destruct (bytes_eqb diskID []) eqn:He.
  { apply bytes_eqb_eq in He. split; intros resp H; [|discriminate].
    injection H as <-. split; [reflexivity|].
    exists storage, diskID. tauto. }
  destruct (GetDiskID storage) as [stored [e|]] eqn:Hg;
    [split; intros resp H; [discriminate|injection H as <-; discriminate]|].
  destruct (bytes_eqb diskID stored) eqn:Hd; cbn [negb].
  - apply bytes_eqb_eq in Hd. subst stored.
    split; intros resp H; [|discriminate].
    injection H as <-. split; [reflexivity|].
    exists storage, diskID. tauto.
  - split; intros resp H; [discriminate|injection H as <-; discriminate].
Qed.

Lemma IsValid_sound_witness :
  @None response = None
  /\ exists storage diskID,
      getStorage (globalLocalSetDrives (example_globals
                                          (Some (example_storage [x64]))))
        example_server = Some storage
      /\ storageServerRequestValidate example_ExtractToken example_Parse
           (fun _ => Some 0%Z)
           (globalActiveCred (example_globals (Some (example_storage [x64]))))
           (UTCNow (example_globals (Some (example_storage [x64]))))
           (example_request [x61]) = None
      /\ (fun _ : Request => @inr error (list byte) [x64])
           (example_request [x61]) = inr diskID
      /\ (diskID = [] \/ GetDiskID storage = (diskID, None)).
Proof.
  apply (proj1 (@IsValid_sound (fun _ => [x65]) example_ExtractToken
                  example_Parse (fun _ => Some 0%Z)
                  (fun _ => inr [x64])
                  (example_globals (Some (example_storage [x64])))
                  example_server (example_request [x61])) None).
  reflexivity.
Defined.

(** X15.  The two identity gates accept the same calls: for a request that
    passes [storageServerRequestValidate] and whose form parses, [IsValid]
    returns what [checkID] returns on the disk-id of the request, whether or
    not a storage is attached and whatever it reports. *)
Theorem IsValid_agrees_with_checkID
    (Error : error -> list byte)
    (ExtractToken : Request -> extracted)
    (ParseWithStandardClaims : list byte -> list byte -> option StandardClaims)
    (time_Parse : list byte -> option Z)
    (ParseForm_diskID : Request -> error + list byte)
    (g : Globals) (s : storageRESTServer) (r : Request) (diskID : list byte) :
  storageServerRequestValidate ExtractToken ParseWithStandardClaims
    time_Parse (globalActiveCred g) (UTCNow g) r = None ->
  ParseForm_diskID r = inr diskID ->
  fst (IsValid Error ExtractToken ParseWithStandardClaims time_Parse
         ParseForm_diskID g s r)
  = checkID g s diskID.
Proof.
  intros Hv Hp. unfold IsValid, IsAuthValid, checkID.
  destruct (getStorage (globalLocalSetDrives g) s) as [storage|];
    [|reflexivity].
  rewrite Hv, Hp.
  destruct (bytes_eqb diskID []); [reflexivity|].
  destruct (GetDiskID storage) as [stored [e|]]; [reflexivity|].
  destruct (bytes_eqb diskID stored); reflexivity.
Qed.

Lemma IsValid_agrees_with_checkID_witness :
  fst (IsValid (fun _ => [x65]) example_ExtractToken example_Parse
         (fun _ => Some 0%Z) (fun _ => inr [x63])
         (example_globals (Some (example_storage [x64])))
         example_server (example_request [x61]))
  = checkID (example_globals (Some (example_storage [x64])))
      example_server [x63].
Proof.
  apply (@IsValid_agrees_with_checkID (fun _ => [x65]) example_ExtractToken
           example_Parse (fun _ => Some 0%Z) (fun _ => inr [x63])
           (example_globals (Some (example_storage [x64])))
           example_server (example_request [x61]) [x63]);
    reflexivity.
Defined.

(** ** Disk bootstrap: which condition, which verdict, which outcome *)

Lemma errors_Is_wrap (layers : list (list byte)) (c t : sentinel) :
  errors_Is (wrap layers (Sentinel c)) t
  = if sentinel_eq_dec c t then true else false.
Proof. induction layers as [|l layers IH]; [reflexivity|exact IH]. Qed.

Lemma countErrs_same_root (c t : sentinel) (errs : list (option error)) :
  errs <> [] ->
  (forall e, In e errs -> exists layers, e = Some (wrap layers (Sentinel c))) ->
  (countErrs errs t =? length errs)
  = if sentinel_eq_dec c t then true else false.
Proof.
  intros Hne Hall.
  destruct (Nat.eqb_spec (countErrs errs t) (length errs)) as [E|NE].
  - pose proof (proj1 (countErrs_all errs t) E) as E1.
    destruct errs as [|e errs]; [contradiction|].
    destruct (E1 e (or_introl eq_refl)) as (e1 & He & Hc).
    destruct (Hall e (or_introl eq_refl)) as (layers & He1).
    rewrite He1 in He. injection He as <-.
    rewrite errors_Is_wrap in Hc.
    destruct (sentinel_eq_dec c t); [reflexivity|discriminate].
  - destruct (sentinel_eq_dec c t) as [<-|]; [|reflexivity].
    exfalso. apply NE, (proj2 (countErrs_all errs c)). intros e He.
    destruct (Hall e He) as (layers & ->).
    eexists. split; [reflexivity|]. rewrite errors_Is_wrap.
    destruct (sentinel_eq_dec c c); [reflexivity|contradiction].
Qed.

(** X16.  What [checkDiskFatalErrs] returns when every disk failed for the
    same root cause, under whatever added context: the cause itself for
    unsupported disk, disk access denied, not a directory, faulty disk and
    XL backend mismatch; disk access denied when the cause is file access
    denied; nil for every other cause.  With no disk at all it returns the
    unsupported-disk error. *)
Theorem checkDiskFatalErrs_same_root (c : sentinel)
    (errs : list (option error)) :
  checkDiskFatalErrs [] = Some (Sentinel errUnsupportedDisk)
  /\ (errs <> [] ->
      (forall e, In e errs ->
                 exists layers, e = Some (wrap layers (Sentinel c))) ->
      checkDiskFatalErrs errs
      = match c with
        | errUnsupportedDisk => Some (Sentinel errUnsupportedDisk)
        | errDiskAccessDenied | errFileAccessDenied =>
            Some (Sentinel errDiskAccessDenied)
        | errDiskNotDir => Some (Sentinel errDiskNotDir)
        | errFaultyDisk => Some (Sentinel errFaultyDisk)
        | errXLBackend => Some (Sentinel errXLBackend)
        | _ => None
        end).
Proof.
  split; [reflexivity|]. intros Hne Hall. unfold checkDiskFatalErrs.
  rewrite !(fun t => @countErrs_same_root c t errs Hne Hall).
  destruct c; reflexivity.
Qed.

Lemma checkDiskFatalErrs_same_root_witness :
  checkDiskFatalErrs
    [Some (Sentinel errFileAccessDenied);
     Some (Wrapped [x61] (Sentinel errFileAccessDenied))]
  = Some (Sentinel errDiskAccessDenied).
Proof.
  apply (proj2 (checkDiskFatalErrs_same_root errFileAccessDenied
                  [Some (Sentinel errFileAccessDenied);
                   Some (Wrapped [x61] (Sentinel errFileAccessDenied))])).
  - discriminate.
  - intros e [<-|[<-|[]]]; [now exists []|now exists [[x61]]].
Defined.

(** X17.  The verdict of [logFatalErrs]: called with [exit] true it ends the
    process for every error; called with [exit] false, as the registration
    of a disk does, it ends the process exactly when the error carries XL
    backend mismatch, unsupported disk or not a directory, and logs once and
    returns for every other error. *)
Theorem logFatalErrs_verdict (e : error) :
  logFatalErrs e true = Fatal
  /\ (logFatalErrs e false = Fatal
      <-> errors_Is e errXLBackend = true
          \/ errors_Is e errUnsupportedDisk = true
          \/ errors_Is e errDiskNotDir = true)
  /\ (logFatalErrs e false = LogOnce
      <-> errors_Is e errXLBackend = false
          /\ errors_Is e errUnsupportedDisk = false
          /\ errors_Is e errDiskNotDir = false).
Proof.
  unfold logFatalErrs.
  destruct (errors_Is e errXLBackend), (errors_Is e errUnsupportedDisk),
    (errors_Is e errDiskNotDir), (errors_Is e errDiskAccessDenied),
    (errors_Is e errFaultyDisk), (errors_Is e errDiskFull);
    cbn [negb]; intuition congruence.
Qed.

Lemma logFatalErrs_verdict_witness :
  logFatalErrs (Wrapped [x61] (Sentinel errDiskNotDir)) false = Fatal.
Proof.
  apply (proj2 (proj1 (proj2 (logFatalErrs_verdict
                                (Wrapped [x61] (Sentinel errDiskNotDir)))))).
  right. right. reflexivity.
Defined.

Lemma attach_exits (fails : list error) (err : error) :
  forall (later : list (option error)) (n : nat),
    (forall e, In e fails -> logFatalErrs e false = LogOnce) ->
    logFatalErrs err false = Fatal ->
    attach (map Some fails ++ Some err :: later) n = ProcessExit err.
Proof.
  induction fails as [|e fails IH]; intros later n H F.
  - cbn. now rewrite F.
  - cbn [map app attach]. rewrite (H e (or_introl eq_refl)).
    apply IH; [|exact F]. intros e1 He1. apply H. now right.
Qed.

Lemma attach_still_retrying (fails : list error) :
  forall n : nat,
    (forall e, In e fails -> logFatalErrs e false = LogOnce) ->
    attach (map Some fails) n = Retrying (n + length fails).
Proof.
  induction fails as [|e fails IH]; intros n H.
  - cbn. f_equal. lia.
  - cbn [map attach]. rewrite (H e (or_introl eq_refl)).
    rewrite IH by (intros e1 He1; apply H; now right).
    cbn [length]. f_equal. lia.
Qed.

(** The attempts of a disk split at the first one that is not a logged
    failure. *)
Lemma attach_split (attempts : list (option error)) :
  exists fails : list error,
    (forall e, In e fails -> logFatalErrs e false = LogOnce)
    /\ (attempts = map Some fails
        \/ (exists rest, attempts = map Some fails ++ None :: rest)
        \/ (exists err later,
               attempts = map Some fails ++ Some err :: later
               /\ logFatalErrs err false = Fatal)).
Proof.
  induction attempts as [|a attempts (fails & Hall & IH)].
  - exists []. split; [intros e []|now left].
  - destruct a as [err|].
    + destruct (logFatalErrs err false) eqn:F.
      * exists []. split; [intros e []|].
        right. right. now exists err, attempts.
      * exists (err :: fails). split.
        -- intros e [<-|He]; [exact F|now apply Hall].
        -- destruct IH as [->|[(rest & ->)|(err1 & later & -> & F1)]].
           ++ now left.
           ++ right. left. now exists rest.
           ++ right. right. now exists err1, later.
    + exists []. split; [intros e []|]. right. left. now exists attempts.
Qed.

(** X18.  How the attachment of a local disk ends, for every sequence of
    attempt results.  The disk is published exactly at the first attempt
    without error, provided no earlier failure was fatal, after one 3-second
    sleep per failure; the process ends exactly at the first failure with a
    fatal verdict, and later attempts are never made; and as long as all
    attempts so far failed without a fatal verdict the loop keeps
    retrying. *)
Theorem attach_outcome (attempts : list (option error)) :
  (forall m,
      attach attempts 0 = Attached m
      <-> exists fails rest,
            attempts = map Some fails ++ None :: rest
            /\ length fails = m
            /\ forall e, In e fails -> logFatalErrs e false = LogOnce)
  /\ (forall err,
         attach attempts 0 = ProcessExit err
         <-> exists fails later,
               attempts = map Some fails ++ Some err :: later
               /\ logFatalErrs err false = Fatal
               /\ forall e, In e fails -> logFatalErrs e false = LogOnce)
  /\ (forall m,
         attach attempts 0 = Retrying m
         <-> exists fails,
               attempts = map Some fails
               /\ length fails = m
               /\ forall e, In e fails -> logFatalErrs e false = LogOnce).
Proof.
  destruct (attach_split attempts)
    as (fails & Hall & [->|[(rest & ->)|(err1 & later & -> & F1)]]).
  - pose proof (attach_still_retrying fails 0 Hall) as R. cbn [Nat.add] in R.
    refine (conj _ (conj _ _)); intros x; rewrite R; split;
      try discriminate.
    + intros (f & r & E & _). exfalso.
      apply (f_equal (fun l => forallb (fun a => notnil a) l)) in E.
      rewrite forallb_app in E. cbn [forallb notnil] in E.
      rewrite andb_false_r in E.
      assert (T : forallb (fun a => notnil a) (map Some fails) = true)
        by (clear; induction fails; [reflexivity|assumption]).
      congruence.
    + intros (f & l & E & F & Hf). exfalso.
      assert (In (Some x) (map Some fails))
        by (rewrite E; apply in_or_app; right; now left).
      apply in_map_iff in H as (e & He & Hin). injection He as ->.
      rewrite (Hall x Hin) in F. discriminate.
    + intros H. injection H as <-. now exists fails.
    + intros (f & E & <- & _). f_equal.
      apply (f_equal (@length _)) in E. rewrite !length_map in E. lia.
  - pose proof (attach_retries fails rest 0 Hall) as R. cbn [Nat.add] in R.
    refine (conj _ (conj _ _)); intros x; rewrite R; split;
      try discriminate.
    + intros H. injection H as <-. now exists fails, rest.
    + intros (f & r & E & <- & Hf). f_equal.
      revert f E Hf. clear. induction fails as [|a fails IH];
        intros [|b f] E Hf; cbn in E |- *; try discriminate E;
        [reflexivity|].
      injection E as -> E. f_equal. apply (IH f E).
      intros e He. apply Hf. now right.
    + intros (f & l & E & F & Hf). exfalso.
      revert f E Hf. clear - Hall F. induction fails as [|a fails IH];
        intros [|b f] E Hf; cbn in E; try discriminate E.
      * injection E as -> E. rewrite (Hall x (or_introl eq_refl)) in F.
        discriminate.
      * injection E as -> E. apply (IH (fun e He => Hall e (or_intror He)) f E).
        intros e He. apply Hf. now right.
    + intros (f & E & _). exfalso.
      apply (f_equal (fun l => forallb (fun a => notnil a) l)) in E.
      rewrite forallb_app in E. cbn [forallb notnil] in E.
      rewrite andb_false_r in E.
      assert (T : forallb (fun a => notnil a) (map Some f) = true)
        by (clear; induction f; [reflexivity|assumption]).
      congruence.
  - pose proof (attach_exits fails err1 later 0 Hall F1) as R.
    refine (conj _ (conj _ _)); intros x; rewrite R; split;
      try discriminate.
    + intros (f & r & E & _ & Hf). exfalso.
      revert f E Hf. clear - Hall F1. induction fails as [|a fails IH];
        intros [|b f] E Hf; cbn in E; try discriminate E.
      * injection E as <- E. rewrite (Hf err1 (or_introl eq_refl)) in F1.
        discriminate.
      * injection E as -> E. apply (IH (fun e He => Hall e (or_intror He)) f E).
        intros e He. apply Hf. now right.
    + intros H. injection H as <-. now exists fails, later.
    + intros (f & l & E & F & Hf). f_equal.
      revert f E Hf. clear - Hall F1 F. induction fails as [|a fails IH];
        intros [|b f] E Hf; cbn in E.
      * now injection E.
      * injection E as <- E. rewrite (Hf err1 (or_introl eq_refl)) in F1.
        discriminate.
      * injection E as -> E. rewrite (Hall x (or_introl eq_refl)) in F.
        discriminate.
      * injection E as -> E. apply (IH (fun e He => Hall e (or_intror He)) f E).
        intros e He. apply Hf. now right.
    + intros (f & E & _ & Hf). exfalso.
      assert (H : In (Some err1) (map Some f))
        by (rewrite <- E; apply in_or_app; right; now left).
      apply in_map_iff in H as (e & He & Hin). injection He as ->.
      rewrite (Hf err1 Hin) in F1. discriminate.
Qed.

Lemma attach_outcome_witness :
  attach [Some (Sentinel errDiskFull); Some (Sentinel errFaultyDisk); None;
          Some (Sentinel errXLBackend)] 0
  = Attached 2.
Proof.
  apply (proj2 (proj1 (attach_outcome
                         [Some (Sentinel errDiskFull);
                          Some (Sentinel errFaultyDisk); None;
                          Some (Sentinel errXLBackend)]) 2)).
  exists [Sentinel errDiskFull; Sentinel errFaultyDisk],
    [Some (Sentinel errXLBackend)].
  split; [reflexivity|]. split; [reflexivity|].
  intros e [<-|[<-|[]]]; reflexivity.
Defined.

(** ** The table of local drives *)

Lemma nth_error_repeat_lt {A : Type} (x : A) (n i : nat) :
  nth_error (repeat x n) i = if i <? n then Some x else None.
Proof.
  revert i. induction n as [|n IH]; intros [|i]; try reflexivity.
  cbn [repeat nth_error]. rewrite IH. reflexivity.
Qed.

Lemma slot_make (pools : list PoolEndpoints) (s : storageRESTServer) :
  slot (make_globalLocalSetDrives pools) s
  = match nth_error pools (poolIndex s) with
    | Some pool =>
        if (setIndex s <? SetCount pool) && (diskIndex s <? DrivesPerSet pool)
        then Some None
        else None
    | None => None
    end.
Proof.
  unfold slot, make_globalLocalSetDrives. rewrite nth_error_map.
  destruct (nth_error pools (poolIndex s)) as [pool|]; [|reflexivity].
  cbn [option_map]. rewrite nth_error_repeat_lt.
  destruct (setIndex s <? SetCount pool); [|reflexivity].
  rewrite nth_error_repeat_lt.
  destruct (diskIndex s <? DrivesPerSet pool); reflexivity.
Qed.

(** X19.  The table [registerStorageRESTHandlers] allocates has an entry
    exactly for the coordinates inside the topology (a pool of the list, a
    set below its [SetCount], a disk below its [DrivesPerSet]), and every
    entry is nil: until a storage is published, [checkID] fails for every
    disk-id and [IsValid] answers every request with disk not found. *)
Theorem allocated_table_is_empty
    (Error : error -> list byte)
    (ExtractToken : Request -> extracted)
    (ParseWithStandardClaims : list byte -> list byte -> option StandardClaims)
    (time_Parse : list byte -> option Z)
    (ParseForm_diskID : Request -> error + list byte)
    (pools : list PoolEndpoints) (s : storageRESTServer) :
  (slot (make_globalLocalSetDrives pools) s = Some None
   <-> exists pool,
         nth_error pools (poolIndex s) = Some pool
         /\ setIndex s < SetCount pool
         /\ diskIndex s < DrivesPerSet pool)
  /\ (slot (make_globalLocalSetDrives pools) s = None
      \/ slot (make_globalLocalSetDrives pools) s = Some None)
  /\ forall (g : Globals) (r : Request) (diskID : list byte),
      globalLocalSetDrives g = make_globalLocalSetDrives pools ->
      checkID g s diskID = false
      /\ IsValid Error ExtractToken ParseWithStandardClaims time_Parse
           ParseForm_diskID g s r
         = (false, Some (writeErrorResponse Error (Sentinel errDiskNotFound))).
Proof.
  assert (Hnil : getStorage (make_globalLocalSetDrives pools) s = None).
  { unfold getStorage. rewrite slot_make.
    destruct (nth_error pools (poolIndex s)) as [pool|]; [|reflexivity].
    destruct (_ && _); reflexivity. }
  refine (conj _ (conj _ _)).
  - rewrite slot_make. split.
    + destruct (nth_error pools (poolIndex s)) as [pool|]; [|discriminate].
      destruct (Nat.ltb_spec (setIndex s) (SetCount pool));
        [|discriminate].
      destruct (Nat.ltb_spec (diskIndex s) (DrivesPerSet pool));
        [|discriminate].
      intros _. now exists pool.
    + intros (pool & -> & H1 & H2).
      apply Nat.ltb_lt in H1, H2. now rewrite H1, H2.
  - rewrite slot_make.
    destruct (nth_error pools (poolIndex s)) as [pool|]; [|now left].
    destruct (_ && _); [now right|now left].
  - intros g r diskID Hg. split.
    + unfold checkID. now rewrite Hg, Hnil.
    + unfold IsValid. rewrite IsAuthValid_absent; [reflexivity|].
      now rewrite Hg.
Qed.

Lemma allocated_table_is_empty_witness :
  slot (make_globalLocalSetDrives
          [{| SetCount := 2; DrivesPerSet := 4 |};
           {| SetCount := 1; DrivesPerSet := 2 |}])
    {| poolIndex := 1; setIndex := 0; diskIndex := 1 |}
  = Some None.
Proof.
  apply (proj2 (proj1 (@allocated_table_is_empty
                         (fun _ => [x65]) example_ExtractToken example_Parse
                         (fun _ => Some 0%Z) (fun _ => inr [])
                         [{| SetCount := 2; DrivesPerSet := 4 |};
                          {| SetCount := 1; DrivesPerSet := 2 |}]
                         {| poolIndex := 1; setIndex := 0;
                            diskIndex := 1 |}))).
  exists {| SetCount := 1; DrivesPerSet := 2 |}.
  split; [reflexivity|]. split; [apply Nat.lt_0_1|apply Nat.lt_1_2].
Defined.

Lemma assign_at {A : Type} (f : A -> option A) (l : list A) :
  forall (i : nat) (x y : A),
    nth_error l i = Some x ->
    f x = Some y ->
    exists l',
      assign l i f = Some l'
      /\ nth_error l' i = Some y
      /\ forall j, j <> i -> nth_error l' j = nth_error l j.
Proof.
  induction l as [|a l IH]; intros [|i] x y Hx Hy; try discriminate Hx.
  - cbn in Hx. injection Hx as ->. exists (y :: l). cbn [assign].
    rewrite Hy. refine (conj eq_refl (conj eq_refl _)).
    intros [|j] Hj; [contradiction|reflexivity].
  - cbn in Hx. destruct (IH i x y Hx Hy) as (l' & Ha & Hi & Hj).
    exists (a :: l'). cbn [assign]. rewrite Ha.
    refine (conj eq_refl (conj Hi _)).
    intros [|j] Hneq; [reflexivity|]. cbn [nth_error]. apply Hj. congruence.
Qed.

Lemma assign_outside {A : Type} (f : A -> option A) (l : list A) :
  forall i : nat, nth_error l i = None -> assign l i f = None.
Proof.
  induction l as [|a l IH]; intros [|i] H; try reflexivity;
    try discriminate H.
  cbn in H |- *. now rewrite IH.
Qed.

Lemma assign_fails {A : Type} (f : A -> option A) (l : list A) :
  forall (i : nat) (x : A),
    nth_error l i = Some x -> f x = None -> assign l i f = None.
Proof.
  induction l as [|a l IH]; intros [|i] x Hx Hf; try discriminate Hx.
  - cbn in Hx. injection Hx as ->. cbn. now rewrite Hf.
  - cbn in Hx |- *. now rewrite (IH i x Hx Hf).
Qed.

(** X20.  Publishing a storage and looking it up.  When the coordinate of
    the server is inside the table, a successful [createStorage] appends the
    storage to [globalLocalDrives] and assigns the entry of that coordinate:
    [getStorage] of that server then returns the storage, and the entry of
    every other coordinate is what it was.  When the coordinate is outside
    the table the assignment panics. *)
Theorem createStorage_publishes (localDrives : list StorageAPI)
    (setDrives : Drives) (server : storageRESTServer) (storage : StorageAPI) :
  (slot setDrives server <> None ->
   exists setDrives',
     createStorage localDrives setDrives server (inr storage)
     = created_true (localDrives ++ [storage]) setDrives'
     /\ getStorage setDrives' server = Some storage
     /\ forall other : storageRESTServer,
         (poolIndex other, setIndex other, diskIndex other)
         <> (poolIndex server, setIndex server, diskIndex server) ->
         slot setDrives' other = slot setDrives other)
  /\ (slot setDrives server = None ->
      createStorage localDrives setDrives server (inr storage)
      = created_panic).
Proof.
  unfold createStorage, getStorage, slot. split.
  - intros Hin.
    destruct (nth_error setDrives (poolIndex server)) as [sets|] eqn:Hp;
      [|contradiction].
    destruct (nth_error sets (setIndex server)) as [disks|] eqn:Hs;
      [|contradiction].
    destruct (nth_error disks (diskIndex server)) as [old|] eqn:Hd;
      [|contradiction].
    destruct (assign_at (fun _ => Some (Some storage)) disks
                (diskIndex server) Hd eq_refl) as (disks' & Ad & Dd & Od).
    destruct (assign_at
                (fun disks =>
                   assign disks (diskIndex server)
                     (fun _ => Some (Some storage)))
                sets (setIndex server) Hs Ad) as (sets' & As & Ds & Os).
    destruct (assign_at
                (fun sets =>
                   assign sets (setIndex server)
                     (fun disks =>
                        assign disks (diskIndex server)
                          (fun _ => Some (Some storage))))
                setDrives (poolIndex server) Hp As) as (t' & At & Dt & Ot).
    exists t'. rewrite At. refine (conj eq_refl (conj _ _)).
    + now rewrite Dt, Ds, Dd.
    + intros other Hneq.
      destruct (Nat.eq_dec (poolIndex other) (poolIndex server)) as [Ep|Np];
        [|now rewrite (Ot _ Np)].
      rewrite Ep, Dt, Hp.
      destruct (Nat.eq_dec (setIndex other) (setIndex server)) as [Es|Ns];
        [|now rewrite (Os _ Ns)].
      rewrite Es, Ds, Hs.
      destruct (Nat.eq_dec (diskIndex other) (diskIndex server)) as [Ed|Nd];
        [|now rewrite (Od _ Nd)].
      exfalso. apply Hneq. congruence.
  - intros Hout.
    destruct (nth_error setDrives (poolIndex server)) as [sets|] eqn:Hp;
      [|now rewrite assign_outside].
    rewrite (assign_fails _ setDrives (poolIndex server) Hp); [reflexivity|].
    destruct (nth_error sets (setIndex server)) as [disks|] eqn:Hs;
      [|now rewrite assign_outside].
    rewrite (assign_fails _ sets (setIndex server) Hs); [reflexivity|].
    now rewrite assign_outside.
Qed.

Lemma createStorage_publishes_witness :
  exists setDrives',
    createStorage [] (make_globalLocalSetDrives
                        [{| SetCount := 1; DrivesPerSet := 2 |}])
      {| poolIndex := 0; setIndex := 0; diskIndex := 1 |}
      (inr (example_storage [x64]))
    = created_true ([] ++ [example_storage [x64]]) setDrives'
    /\ getStorage setDrives'
         {| poolIndex := 0; setIndex := 0; diskIndex := 1 |}
       = Some (example_storage [x64])
    /\ forall other : storageRESTServer,
        (poolIndex other, setIndex other, diskIndex other)
        <> (poolIndex {| poolIndex := 0; setIndex := 0; diskIndex := 1 |},
            setIndex {| poolIndex := 0; setIndex := 0; diskIndex := 1 |},
            diskIndex {| poolIndex := 0; setIndex := 0; diskIndex := 1 |}) ->
        slot setDrives' other
        = slot (make_globalLocalSetDrives
                  [{| SetCount := 1; DrivesPerSet := 2 |}]) other.
Proof.
  apply (proj1 (createStorage_publishes []
                  (make_globalLocalSetDrives
                     [{| SetCount := 1; DrivesPerSet := 2 |}])
                  {| poolIndex := 0; setIndex := 0; diskIndex := 1 |}
                  (example_storage [x64]))).
  discriminate.
Defined.

(** ** [closeNotifier] *)

Lemma notifier_run (ops : list notifier_op) :
  forall c : closeNotifier,
    notifier_done_nil c = notifier_closed c ->
    exists c',
      run notifier_step c ops = Some c'
      /\ notifier_done_nil c' = notifier_closed c'
      /\ notifier_closed c' = notifier_closed c || existsb signals ops.
Proof.
  induction ops as [|op ops IH]; intros c Hc.
  - exists c. cbn. now rewrite orb_false_r.
  - rewrite run_cons.
    assert (Hn : notify c
                 = Some {| notifier_done_nil := true;
                           notifier_closed := true |}
                 \/ (notify c = Some c /\ notifier_closed c = true)).
    { unfold notify. rewrite Hc. destruct (notifier_closed c); auto. }
    cbn [existsb].
    destruct (signals op) eqn:Hop.
    + assert (Hstep : notifier_step c op = notify c).
      { destruct op as [e|]; [|reflexivity]. cbn in Hop |- *. now rewrite Hop. }
      rewrite Hstep. destruct Hn as [->|[-> Hcl]].
      * destruct (IH {| notifier_done_nil := true; notifier_closed := true |}
                    eq_refl) as (c' & R & I & C).
        exists c'. cbn in C. rewrite orb_true_r. auto.
      * destruct (IH c Hc) as (c' & R & I & C).
        exists c'. rewrite Hcl in C |- *. auto.
    + assert (Hstep : notifier_step c op = Some c).
      { destruct op as [e|]; [|discriminate]. cbn in Hop |- *. now rewrite Hop. }
      rewrite Hstep. destruct (IH c Hc) as (c' & R & I & C).
      exists c'. auto.
Qed.

(** X21.  A [closeNotifier] signals at most once and exactly when it should:
    for every sequence of [Read] and [Close] calls on a fresh notifier no
    call closes the channel a second time (which would panic), and the
    channel ends closed exactly when some [Read] returned an error or
    [Close] was called; [c.done] is nil exactly when the channel is
    closed. *)
Theorem closeNotifier_signals_once (ops : list notifier_op) :
  exists c,
    run notifier_step new_closeNotifier ops = Some c
    /\ notifier_closed c = existsb signals ops
    /\ notifier_done_nil c = notifier_closed c.
Proof.
  destruct (notifier_run ops new_closeNotifier eq_refl) as (c & R & I & C).
  exists c. auto.
Qed.

(** ** HTTP handlers *)

Lemma ReadFull_enough (r : list byte) (n : nat) :
  n <= length r -> io.ReadFull r n = (firstn n r, skipn n r, None).
Proof.
  intros H. unfold io.ReadFull. cbv zeta.
  rewrite length_firstn, Nat.min_l, Nat.eqb_refl by assumption. reflexivity.
Qed.

Lemma ReadFull_short (r : list byte) (n : nat) :
  length r < n ->
  snd (io.ReadFull r n)
  = Some (Sentinel match r with
                   | [] => io_EOF
                   | _ => io_ErrUnexpectedEOF
                   end).
Proof.
  intros H. unfold io.ReadFull. cbv zeta.
  rewrite length_firstn, Nat.min_r by lia.
  destruct (Nat.eqb_spec (length r) n) as [E|_]; [lia|].
  destruct r; reflexivity.
Qed.

Lemma fold_Write_reliable {A : Type} (enc : A -> list byte) (items : list A) :
  forall l : list byte,
    fold_left (fun w' x => fst (fst (http.Write w' (enc x)))) items
      (http.reliable l)
    = http.reliable (l ++ concat (map enc items)).
Proof.
  induction items as [|x items IH]; intros l; cbn [fold_left map concat].
  - now rewrite app_nil_r.
  - change (fst (fst (http.Write (http.reliable l) (enc x))))
      with (http.reliable (l ++ enc x)).
    rewrite IH, app_assoc. reflexivity.
Qed.

Section HandlerFacts.

Variable Error : error -> list byte.
Variable ExtractToken : Request -> extracted.
Variable ParseWithStandardClaims :
  list byte -> list byte -> option StandardClaims.
Variable time_Parse : list byte -> option Z.
Variable ParseForm_diskID : Request -> error + list byte.
Variable Form_Get : Request -> list byte -> list byte.
Variable storageRESTVolume storageRESTFilePath storageRESTGlob : list byte.

Lemma IsValid_true_storage (g : Globals) (s : storageRESTServer) (r : Request)
    (resp : option response) :
  IsValid Error ExtractToken ParseWithStandardClaims time_Parse
    ParseForm_diskID g s r = (true, resp) ->
  exists storage, getStorage (globalLocalSetDrives g) s = Some storage.
Proof.
  unfold IsValid, IsAuthValid.
  destruct (getStorage (globalLocalSetDrives g) s) as [storage|];
    [intros _; now exists storage|discriminate].
Qed.

Lemma kept_alive_reliable (l : list byte) (ticks : nat) (e : option error) :
  kept_alive Error (http.reliable l) ticks e
  = Some (http.reliable (l ++ repeat x20 ticks ++ terminal_frame Error e)).
Proof.
  unfold kept_alive. rewrite run_app.
  change (keepHTTPResponseAlive (http.reliable l))
    with (alive_running {| canWrite := true; w := http.reliable l |}).
  destruct (alive_ticks Error ticks
              {| canWrite := true; w := http.reliable l |})
    as (c & Hrun & Hw).
  rewrite Hrun. destruct (Hw (conj eq_refl eq_refl)) as [Hc Wc]. cbn in Wc.
  destruct (write_terminal_healthy Error e Hc) as [[_ Q] Wt].
  cbn [run alive_step alive_running alive_doneCh_nil alive_exited alive_conn].
  f_equal.
  destruct (w (write_terminal Error c e)) as [wire quota].
  cbn in Q, Wt. subst quota wire. unfold http.reliable.
  now rewrite Wc, app_assoc.
Qed.

(** X22.  [WriteAllHandler] writes the whole body or nothing.  For a request
    that passes [IsValid]: a negative [ContentLength] is answered with the
    invalid-argument error; a body that ends before [ContentLength] bytes is
    answered with [io.EOF] (an empty body) or [io.ErrUnexpectedEOF], and the
    storage is not called; otherwise the storage is called once, with
    exactly the first [ContentLength] bytes of the body, and its error, if
    any, is the response. *)
Theorem WriteAllHandler_whole_body
    (put : StorageAPI -> list byte -> list byte -> list byte -> option error)
    (g : Globals) (s : storageRESTServer) (r : Request)
    (resp : option response) (ContentLength : Z) (Body : list byte)
    (w0 : http.ResponseWriter) :
  IsValid Error ExtractToken ParseWithStandardClaims time_Parse
    ParseForm_diskID g s r = (true, resp) ->
  exists storage,
    getStorage (globalLocalSetDrives g) s = Some storage
    /\ WriteAllHandler Error ExtractToken ParseWithStandardClaims time_Parse
         ParseForm_diskID Form_Get storageRESTVolume storageRESTFilePath put
         g s r ContentLength Body w0
       = if (ContentLength <? 0)%Z
         then Refused (Some (writeErrorResponse Error
                               (Sentinel errInvalidArgument)))
         else if (Z.of_nat (length Body) <? ContentLength)%Z
         then Refused (Some (writeErrorResponse Error
                               (Sentinel match Body with
                                         | [] => io_EOF
                                         | _ => io_ErrUnexpectedEOF
                                         end)))
         else match put storage (Form_Get r storageRESTVolume)
                      (Form_Get r storageRESTFilePath)
                      (firstn (Z.to_nat ContentLength) Body) with
              | Some err => Refused (Some (writeErrorResponse Error err))
              | None => Returned w0
              end.
Proof.
  intros Hv. destruct (IsValid_true_storage g s r Hv) as (storage & Hs).
  exists storage. split; [exact Hs|].
  unfold WriteAllHandler. rewrite Hv. cbv zeta.
  destruct (Z.ltb_spec ContentLength 0) as [Hneg|Hpos]; [reflexivity|].
  destruct (Z.ltb_spec (Z.of_nat (length Body)) ContentLength) as [Hsh|Hen].
  - rewrite ReadFull_short by lia. reflexivity.
  - rewrite ReadFull_enough by lia. cbn [fst snd]. rewrite Hs. reflexivity.
Qed.

(** X23.  [AppendFileHandler] differs from [WriteAllHandler] only in that
    it does not check the sign of [ContentLength]: with the same storage
    operation behind both, the two handlers end alike whenever
    [ContentLength] is not negative; for a request that passes [IsValid]
    with a negative [ContentLength], [WriteAllHandler] answers with the
    invalid-argument error and [AppendFileHandler] panics in [make]. *)
Theorem AppendFileHandler_unchecked_length
    (put : StorageAPI -> list byte -> list byte -> list byte -> option error)
    (g : Globals) (s : storageRESTServer) (r : Request)
    (ContentLength : Z) (Body : list byte) (w0 : http.ResponseWriter) :
  ((0 <= ContentLength)%Z ->
   AppendFileHandler Error ExtractToken ParseWithStandardClaims time_Parse
     ParseForm_diskID Form_Get storageRESTVolume storageRESTFilePath put
     g s r ContentLength Body w0
   = WriteAllHandler Error ExtractToken ParseWithStandardClaims time_Parse
       ParseForm_diskID Form_Get storageRESTVolume storageRESTFilePath put
       g s r ContentLength Body w0)
  /\ ((ContentLength < 0)%Z ->
      forall resp,
        IsValid Error ExtractToken ParseWithStandardClaims time_Parse
          ParseForm_diskID g s r = (true, resp) ->
        AppendFileHandler Error ExtractToken ParseWithStandardClaims
          time_Parse ParseForm_diskID Form_Get storageRESTVolume
          storageRESTFilePath put g s r ContentLength Body w0
        = Panicked
        /\ WriteAllHandler Error ExtractToken ParseWithStandardClaims
             time_Parse ParseForm_diskID Form_Get storageRESTVolume
             storageRESTFilePath put g s r ContentLength Body w0
           = Refused (Some (writeErrorResponse Error
                              (Sentinel errInvalidArgument)))).
Proof.
  unfold AppendFileHandler, WriteAllHandler. split.
  - intros Hpos.
    destruct (Z.ltb_spec ContentLength 0) as [Hneg|_]; [lia|reflexivity].
  - intros Hneg resp Hv. rewrite Hv.
    destruct (Z.ltb_spec ContentLength 0) as [_|Hpos]; [|lia].
    split; reflexivity.
Qed.

(** X24.  [CleanAbandonedDataHandler], for a request that passes [IsValid].
    With an empty volume or an empty file path it returns without writing
    anything, not even a terminal frame, so that [waitForHTTPResponse] on
    the response reports [io.EOF].  Otherwise, over a connection that
    accepts every write, the response is heartbeats and one terminal frame,
    from which [waitForHTTPResponse] returns an empty payload when the
    storage succeeded and the text of its error otherwise. *)
Theorem CleanAbandonedDataHandler_response
    (clean : StorageAPI -> list byte -> list byte -> option error)
    (g : Globals) (s : storageRESTServer) (r : Request)
    (resp : option response) (ticks : nat) :
  IsValid Error ExtractToken ParseWithStandardClaims time_Parse
    ParseForm_diskID g s r = (true, resp) ->
  exists storage w1,
    getStorage (globalLocalSetDrives g) s = Some storage
    /\ CleanAbandonedDataHandler Error ExtractToken ParseWithStandardClaims
         time_Parse ParseForm_diskID Form_Get storageRESTVolume
         storageRESTFilePath clean g s r (http.reliable []) ticks
       = Returned w1
    /\ ((Form_Get r storageRESTVolume = []
         \/ Form_Get r storageRESTFilePath = []) ->
        w1 = http.reliable []
        /\ waitForHTTPResponse (http.wire w1)
           = (None, Some (Sentinel io_EOF)))
    /\ (Form_Get r storageRESTVolume <> [] ->
        Form_Get r storageRESTFilePath <> [] ->
        waitForHTTPResponse (http.wire w1)
        = match clean storage (Form_Get r storageRESTVolume)
                  (Form_Get r storageRESTFilePath) with
          | None => (Some [], None)
          | Some err => (None, Some (errors_New (Error err)))
          end).
Proof.
  intros Hv. destruct (IsValid_true_storage g s r Hv) as (storage & Hs).
  exists storage. unfold CleanAbandonedDataHandler. rewrite Hv, Hs. cbv zeta.
  destruct (bytes_eqb (Form_Get r storageRESTVolume) []) eqn:Ev.
  { apply bytes_eqb_eq in Ev. exists (http.reliable []).
    refine (conj eq_refl (conj eq_refl (conj _ _))).
    - intros _. split; reflexivity.
    - intros Hn. contradiction. }
  destruct (bytes_eqb (Form_Get r storageRESTFilePath) []) eqn:Ef.
  { apply bytes_eqb_eq in Ef. exists (http.reliable []).
    refine (conj eq_refl (conj eq_refl (conj _ _))).
    - intros _. split; reflexivity.
    - intros _ Hn. contradiction. }
  apply bytes_eqb_neq in Ev, Ef. cbn [orb].
  rewrite kept_alive_reliable. cbn [app].
  eexists. refine (conj eq_refl (conj eq_refl (conj _ _))).
  - intros [H|H]; contradiction.
  - intros _ _. cbn [http.wire http.reliable].
    rewrite response_heartbeats.
    destruct (clean storage _ _); reflexivity.
Qed.

(** X25.  [StatInfoFile], for a request that passes [IsValid], over a
    connection that accepts every write and with any number of heartbeats
    while the storage works: when the storage succeeds,
    [waitForHTTPResponse] returns as payload exactly the encodings of the
    entries, in order; when it fails, nothing is written after the error
    frame and [waitForHTTPResponse] returns the text of the error. *)
Theorem StatInfoFile_response
    (StatInfo : Type)
    (stat : StorageAPI -> list byte -> list byte -> bool
            -> list StatInfo * option error)
    (msgp_Encode : StatInfo -> list byte)
    (g : Globals) (s : storageRESTServer) (r : Request)
    (resp : option response) (ticks : nat) :
  IsValid Error ExtractToken ParseWithStandardClaims time_Parse
    ParseForm_diskID g s r = (true, resp) ->
  exists storage w1,
    getStorage (globalLocalSetDrives g) s = Some storage
    /\ StatInfoFile Error ExtractToken ParseWithStandardClaims time_Parse
         ParseForm_diskID Form_Get storageRESTVolume storageRESTFilePath
         storageRESTGlob stat msgp_Encode g s r (http.reliable []) ticks
       = Returned w1
    /\ waitForHTTPResponse (http.wire w1)
       = match stat storage (Form_Get r storageRESTVolume)
                 (Form_Get r storageRESTFilePath)
                 (bytes_eqb (Form_Get r storageRESTGlob)
                    [x74; x72; x75; x65]) with
         | (stats, None) => (Some (concat (map msgp_Encode stats)), None)
         | (_, Some err) => (None, Some (errors_New (Error err)))
         end.
Proof.
  intros Hv. destruct (IsValid_true_storage g s r Hv) as (storage & Hs).
  exists storage. unfold StatInfoFile. rewrite Hv, Hs. cbv zeta.
  rewrite kept_alive_reliable. cbn [app].
  destruct (stat storage _ _ _) as [stats [err|]]; cbn [fst snd notnil].
  - eexists. refine (conj eq_refl (conj eq_refl _)).
    cbn [http.wire http.reliable]. rewrite response_heartbeats. reflexivity.
  - rewrite fold_Write_reliable.
    eexists. refine (conj eq_refl (conj eq_refl _)).
    cbn [http.wire http.reliable]. rewrite <- app_assoc.
    rewrite response_heartbeats. reflexivity.
Qed.

(** X26.  [VerifyFileHandler] always completes its keep-alive with nil: for
    a request that passes [IsValid], has a non-negative [ContentLength] and
    a body that decodes, over a connection that accepts every write,
    [waitForHTTPResponse] returns nil and the encoded [VerifyFileResp]; a
    failed verification travels inside it, as the text of the error, and not
    as an error frame. *)
Theorem VerifyFileHandler_response
    (FileInfo : Type)
    (verify : StorageAPI -> list byte -> list byte -> FileInfo -> option error)
    (msgp_Decode : list byte -> error + FileInfo)
    (gob_Encode : option (list byte) -> list byte)
    (g : Globals) (s : storageRESTServer) (r : Request)
    (resp : option response) (ContentLength : Z) (Body : list byte)
    (fi : FileInfo) (ticks : nat) :
  IsValid Error ExtractToken ParseWithStandardClaims time_Parse
    ParseForm_diskID g s r = (true, resp) ->
  (0 <= ContentLength)%Z ->
  msgp_Decode Body = inr fi ->
  exists storage w1,
    getStorage (globalLocalSetDrives g) s = Some storage
    /\ VerifyFileHandler Error ExtractToken ParseWithStandardClaims
         time_Parse ParseForm_diskID Form_Get storageRESTVolume
         storageRESTFilePath verify msgp_Decode gob_Encode g s r
         ContentLength Body (http.reliable []) ticks
       = Returned w1
    /\ waitForHTTPResponse (http.wire w1)
       = (Some (gob_Encode
                  match verify storage (Form_Get r storageRESTVolume)
                          (Form_Get r storageRESTFilePath) fi with
                  | Some err => Some (Error err)
                  | None => None
                  end),
          None).
Proof.
  intros Hv Hpos Hd. destruct (IsValid_true_storage g s r Hv) as (storage & Hs).
  exists storage. unfold VerifyFileHandler. rewrite Hv, Hs, Hd. cbv zeta.
  destruct (Z.ltb_spec ContentLength 0) as [Hneg|_]; [lia|].
  rewrite kept_alive_reliable. cbn [app terminal_frame].
  eexists. refine (conj eq_refl (conj eq_refl _)).
  change (fst (fst (http.Write (http.reliable ?l) ?b)))
    with (http.reliable (l ++ b)).
  cbn [http.wire http.reliable http.Write http.quota fst]. rewrite <- app_assoc.
  rewrite response_heartbeats. reflexivity.
Qed.

End HandlerFacts.

Lemma WriteAllHandler_whole_body_witness :
  exists storage,
    getStorage (globalLocalSetDrives example_attached) example_server
    = Some storage
    /\ WriteAllHandler example_Error example_ExtractToken example_Parse
         example_time_Parse example_ParseForm example_Form_Get [x76] [x70]
         (fun _ _ _ _ => None) example_attached example_server
         (example_request [x61]) 3 [x07; x09] (http.reliable [])
       = if (3 <? 0)%Z
         then Refused (Some (writeErrorResponse example_Error
                               (Sentinel errInvalidArgument)))
         else if (Z.of_nat (length [x07; x09]) <? 3)%Z
         then Refused (Some (writeErrorResponse example_Error
                               (Sentinel match [x07; x09] with
                                         | [] => io_EOF
                                         | _ => io_ErrUnexpectedEOF
                                         end)))
         else match (fun _ _ _ _ => @None error) storage
                      (example_Form_Get (example_request [x61]) [x76])
                      (example_Form_Get (example_request [x61]) [x70])
                      (firstn (Z.to_nat 3) [x07; x09]) with
              | Some err => Refused (Some (writeErrorResponse example_Error err))
              | None => Returned (http.reliable [])
              end.
Proof.
  apply (@WriteAllHandler_whole_body example_Error example_ExtractToken
           example_Parse example_time_Parse example_ParseForm
           example_Form_Get [x76] [x70] (fun _ _ _ _ => None)
           example_attached example_server (example_request [x61]) None
           3%Z [x07; x09] (http.reliable [])).
  reflexivity.
Defined.

Lemma AppendFileHandler_unchecked_length_witness :
  AppendFileHandler example_Error example_ExtractToken example_Parse
    example_time_Parse example_ParseForm example_Form_Get [x76] [x70]
    (fun _ _ _ _ => None) example_attached example_server
    (example_request [x61]) (-1) [] (http.reliable [])
  = Panicked
  /\ WriteAllHandler example_Error example_ExtractToken example_Parse
       example_time_Parse example_ParseForm example_Form_Get [x76] [x70]
       (fun _ _ _ _ => None) example_attached example_server
       (example_request [x61]) (-1) [] (http.reliable [])
     = Refused (Some (writeErrorResponse example_Error
                        (Sentinel errInvalidArgument))).
Proof.
  apply (proj2 (@AppendFileHandler_unchecked_length example_Error
                  example_ExtractToken example_Parse example_time_Parse
                  example_ParseForm example_Form_Get [x76] [x70]
                  (fun _ _ _ _ => None) example_attached example_server
                  (example_request [x61]) (-1)%Z [] (http.reliable []))
           eq_refl None).
  reflexivity.
Defined.

Lemma CleanAbandonedDataHandler_response_witness :
  exists storage w1,
    getStorage (globalLocalSetDrives example_attached) example_server
    = Some storage
    /\ CleanAbandonedDataHandler example_Error example_ExtractToken
         example_Parse example_time_Parse example_ParseForm example_Form_Get
         [] [x70] (fun _ _ _ => None) example_attached example_server
         (example_request [x61]) (http.reliable []) 2
       = Returned w1
    /\ ((example_Form_Get (example_request [x61]) [] = []
         \/ example_Form_Get (example_request [x61]) [x70] = []) ->
        w1 = http.reliable []
        /\ waitForHTTPResponse (http.wire w1)
           = (None, Some (Sentinel io_EOF)))
    /\ (example_Form_Get (example_request [x61]) [] <> [] ->
        example_Form_Get (example_request [x61]) [x70] <> [] ->
        waitForHTTPResponse (http.wire w1)
        = match (fun _ _ _ => @None error) storage
                  (example_Form_Get (example_request [x61]) [])
                  (example_Form_Get (example_request [x61]) [x70]) with
          | None => (Some [], None)
          | Some err => (None, Some (errors_New (example_Error err)))
          end).
Proof.
  apply (@CleanAbandonedDataHandler_response example_Error
           example_ExtractToken example_Parse example_time_Parse
           example_ParseForm example_Form_Get [] [x70] (fun _ _ _ => None)
           example_attached example_server (example_request [x61]) None 2).
  reflexivity.
Defined.

Lemma StatInfoFile_response_witness :
  exists storage w1,
    getStorage (globalLocalSetDrives example_attached) example_server
    = Some storage
    /\ StatInfoFile example_Error example_ExtractToken example_Parse
         example_time_Parse example_ParseForm example_Form_Get
         [x76] [x70] [x67]
         (fun _ _ _ _ => ([x07; x09], None)) (fun si : byte => [si; si])
         example_attached example_server (example_request [x61])
         (http.reliable []) 2
       = Returned w1
    /\ waitForHTTPResponse (http.wire w1)
       = match (fun _ _ _ _ => ([x07; x09], @None error)) storage
                 (example_Form_Get (example_request [x61]) [x76])
                 (example_Form_Get (example_request [x61]) [x70])
                 (bytes_eqb (example_Form_Get (example_request [x61]) [x67])
                    [x74; x72; x75; x65]) with
         | (stats, None) =>
             (Some (concat (map (fun si : byte => [si; si]) stats)), None)
         | (_, Some err) => (None, Some (errors_New (example_Error err)))
         end.
Proof.
  apply (@StatInfoFile_response example_Error example_ExtractToken
           example_Parse example_time_Parse example_ParseForm
           example_Form_Get [x76] [x70] [x67] byte
           (fun _ _ _ _ => ([x07; x09], None)) (fun si : byte => [si; si])
           example_attached example_server (example_request [x61]) None 2).
  reflexivity.
Defined.

Lemma VerifyFileHandler_response_witness :
  exists storage w1,
    getStorage (globalLocalSetDrives example_attached) example_server
    = Some storage
    /\ VerifyFileHandler example_Error example_ExtractToken example_Parse
         example_time_Parse example_ParseForm example_Form_Get [x76] [x70]
         (fun _ _ _ (_ : list byte) => Some (Sentinel errFileNotFound))
         (fun b => inr b)
         (fun e => match e with Some text => x01 :: text | None => [x00] end)
         example_attached example_server (example_request [x61])
         1 [x07] (http.reliable []) 2
       = Returned w1
    /\ waitForHTTPResponse (http.wire w1)
       = (Some ((fun e => match e with
                          | Some text => x01 :: text
                          | None => [x00]
                          end)
                  match (fun _ _ _ (_ : list byte) =>
                           Some (Sentinel errFileNotFound)) storage
                          (example_Form_Get (example_request [x61]) [x76])
                          (example_Form_Get (example_request [x61]) [x70])
                          [x07] with
                  | Some err => Some (example_Error err)
                  | None => None
                  end),
          None).
Proof.
  apply (@VerifyFileHandler_response example_Error example_ExtractToken
           example_Parse example_time_Parse example_ParseForm
           example_Form_Get [x76] [x70] (list byte)
           (fun _ _ _ (_ : list byte) => Some (Sentinel errFileNotFound))
           (fun b => inr b)
           (fun e => match e with Some text => x01 :: text | None => [x00] end)
           example_attached example_server (example_request [x61]) None
           1%Z [x07] [x07] 2).
  - reflexivity.
  - discriminate.
  - reflexivity.
Defined.

(** ** The disk information call *)

(** X27.  [DiskInfoHandler] reports a failure of the storage in band: once
    [checkID] passes, the handler returns the disk information and no remote
    error, whatever [DiskInfo] returned; an error of [DiskInfo] is carried as
    text in the [Error] field of the information. *)
Theorem DiskInfoHandler_error_in_band (Error : error -> list byte)
    (g : Globals) (s : storageRESTServer) (diskID : list byte)
    (withMetrics : bool) :
  checkID g s diskID = true ->
  exists storage,
    getStorage (globalLocalSetDrives g) s = Some storage
    /\ DiskInfoHandler Error g s diskID withMetrics
       = (Some (fst (DiskInfo storage withMetrics),
                match snd (DiskInfo storage withMetrics) with
                | Some err => Error err
                | None => []
                end),
          None).
Proof.
  intros Hc. unfold DiskInfoHandler. rewrite Hc. cbn [negb].
  unfold checkID in Hc.
  destruct (getStorage (globalLocalSetDrives g) s) as [storage|];
    [|discriminate].
  exists storage. split; [reflexivity|].
  destruct (DiskInfo storage withMetrics) as [info [err|]]; reflexivity.
Qed.

Lemma DiskInfoHandler_error_in_band_witness :
  exists storage,
    getStorage (globalLocalSetDrives
                  (example_globals
                     (Some {| GetDiskID := ([x64], None);
                              DiskInfo := fun _ =>
                                ([x69], Some (Sentinel errFaultyDisk)) |})))
      example_server = Some storage
    /\ DiskInfoHandler example_Error
         (example_globals
            (Some {| GetDiskID := ([x64], None);
                     DiskInfo := fun _ =>
                       ([x69], Some (Sentinel errFaultyDisk)) |}))
         example_server [x64] true
       = (Some (fst (DiskInfo storage true),
                match snd (DiskInfo storage true) with
                | Some err => example_Error err
                | None => []
                end),
          None).
Proof.
  apply (@DiskInfoHandler_error_in_band example_Error
           (example_globals
              (Some {| GetDiskID := ([x64], None);
                       DiskInfo := fun _ =>
                         ([x69], Some (Sentinel errFaultyDisk)) |}))
           example_server [x64] true).
  reflexivity.
Defined.

(** ** A connection that breaks during a stream *)

Section Broken.

Variable Error : error -> list byte.

Lemma cut_write (q0 : nat) (cq cr : conn) (b : list byte) :
  cut q0 cq cr -> cut q0 (write cq b) (write cr b).
Proof.
  intros (Hcr & Hqr & Hw & Hq & Hc).
  destruct (write_healthy b (conj Hcr Hqr)) as [[Hcr' Hqr'] Wr].
  unfold cut. rewrite Hcr', Hqr', Wr, length_app.
  refine (conj eq_refl (conj eq_refl _)).
  unfold write. rewrite Hc.
  destruct (Nat.leb_spec (length (http.wire (w cr))) q0) as [Hle|Hgt].
  - (* still writable *)
    assert (Hsame : http.wire (w cq) = http.wire (w cr))
      by (rewrite Hw; apply firstn_all2; exact Hle).
    unfold http.Write. rewrite Hq, Hsame.
    destruct (Nat.leb_spec (length b) (q0 - length (http.wire (w cr))))
      as [Hfit|Hover]; cbn [fst snd].
    + rewrite Nat.eqb_refl. cbn [orb negb canWrite w http.wire http.quota].
      rewrite length_app.
      refine (conj _ (conj _ _)).
      * symmetry. apply firstn_all2. rewrite length_app. lia.
      * f_equal. lia.
      * symmetry. apply Nat.leb_le. lia.
    + cbn [orb canWrite w http.wire http.quota].
      rewrite length_app, length_firstn, Nat.min_l by lia.
      refine (conj _ (conj _ _)).
      * rewrite firstn_app. f_equal.
        symmetry. apply firstn_all2. exact Hle.
      * f_equal. lia.
      * symmetry. apply Nat.leb_gt. lia.
  - (* already failed *)
    refine (conj _ (conj Hq _)).
    + rewrite Hw, firstn_app.
      replace (q0 - length (http.wire (w cr))) with 0 by lia.
      cbn [firstn]. now rewrite app_nil_r.
    + rewrite Hc. symmetry. apply Nat.leb_gt. lia.
Qed.

Lemma cut_write_terminal (q0 : nat) (cq cr : conn) (e : option error) :
  cut q0 cq cr ->
  cut q0 (write_terminal Error cq e) (write_terminal Error cr e).
Proof.
  intros H. destruct e as [e|]; cbn [write_terminal];
    repeat apply cut_write; exact H.
Qed.

Lemma cut_write_block (q0 : nat) (cq cr : conn) (b : list byte) :
  cut q0 cq cr -> cut q0 (write_block cq b) (write_block cr b).
Proof. intros H. unfold write_block. repeat apply cut_write. exact H. Qed.

(** The same schedule over the connection that breaks and over the one that
    does not: the handle behaves alike, and the wire is cut. *)
Lemma stream_run_cut (q0 : nat) (ops : list stream_op) :
  forall (hq hr hr' : httpStreamResponse),
    done_nil hq = done_nil hr ->
    err hq = err hr ->
    stream_exited hq = stream_exited hr ->
    cut q0 (stream_conn hq) (stream_conn hr) ->
    run (stream_step Error) hr ops = Some hr' ->
    exists hq',
      run (stream_step Error) hq ops = Some hq'
      /\ done_nil hq' = done_nil hr'
      /\ err hq' = err hr'
      /\ cut q0 (stream_conn hq') (stream_conn hr').
Proof.
  induction ops as [|op ops IH]; intros hq hr hr' Hd He Hx Hc Hrun.
  - injection Hrun as <-. exists hq. auto.
  - rewrite run_cons in Hrun |- *.
    destruct (stream_step Error hr op) as [hr1|] eqn:Sr; [|discriminate].
    assert (Hstep : exists hq1,
               stream_step Error hq op = Some hq1
               /\ done_nil hq1 = done_nil hr1
               /\ err hq1 = err hr1
               /\ stream_exited hq1 = stream_exited hr1
               /\ cut q0 (stream_conn hq1) (stream_conn hr1)).
    { destruct op as [|b|e]; cbn [stream_step] in Sr |- *;
        rewrite ?Hd, ?He, ?Hx.
      - destruct (stream_exited hr) eqn:Ex; injection Sr as <-; eexists;
          refine (conj eq_refl (conj _ (conj _ (conj _ _))));
          cbn [done_nil err stream_exited stream_conn];
          auto using cut_write; congruence.
      - destruct ((length b =? 0) || notnil (err hr)).
        + injection Sr as <-. eexists.
          refine (conj eq_refl (conj _ (conj _ (conj _ _)))); auto.
        + destruct (stream_exited hr) eqn:Ex; [discriminate|].
          injection Sr as <-.
          eexists. refine (conj eq_refl (conj _ (conj _ (conj _ _))));
            cbn [done_nil err stream_exited stream_conn];
            auto using cut_write_block.
      - destruct (done_nil hr) eqn:Ed.
        + injection Sr as <-. eexists.
          refine (conj eq_refl (conj _ (conj _ (conj _ _)))); auto;
            congruence.
        + destruct (stream_exited hr) eqn:Ex; [discriminate|].
          injection Sr as <-.
          eexists. refine (conj eq_refl (conj _ (conj _ (conj _ _))));
            cbn [done_nil err stream_exited stream_conn];
            auto using cut_write_terminal. }
    destruct Hstep as (hq1 & Sq & Hd1 & He1 & Hx1 & Hc1).
    rewrite Sq. exact (IH hq1 hr1 hr' Hd1 He1 Hx1 Hc1 Hrun).
Qed.

End Broken.

(** X28.  A connection that breaks is never taken for a complete stream.
    Blocks each shorter than 2^32 bytes are submitted and the stream is
    closed with nil, with ticks anywhere, over a connection that accepts
    [q0] bytes in all and then fails.  The session ends as it does over a
    sound connection, no call blocks, and the wire holds the first [q0]
    bytes of the complete stream; when the complete stream is longer than
    [q0] bytes, [waitForHTTPStream] on what was sent returns an error. *)
Theorem broken_connection_detected (Error : error -> list byte)
    (blocks : list (list byte)) (sched : list stream_op) (q0 : nat) :
  filter is_call sched = map Write blocks ++ [CloseWithError None] ->
  Forall (fun b => (N.of_nat (length b) < 2 ^ 32)%N) blocks ->
  exists full h,
    run (stream_step Error) (streamHTTPResponse (http.reliable [])) sched
    = Some (closed None full)
    /\ run (stream_step Error)
         (streamHTTPResponse {| http.wire := []; http.quota := Some q0 |})
         sched = Some h
    /\ done_nil h = true
    /\ http.wire (w (stream_conn h)) = firstn q0 full
    /\ (q0 < length full ->
        forall dst,
          snd (waitForHTTPStream (http.wire (w (stream_conn h))) dst)
          <> None).
Proof.
  intros Hsched Hsmall.
  destruct (@stream_run_framed Error None sched blocks [] Hsched Hsmall)
    as (pre & Hrun & Hf).
  cbn [app terminal_frame] in Hrun.
  change (streaming []) with (streamHTTPResponse (http.reliable [])) in Hrun.
  destruct (@stream_run_cut Error q0 sched
              (streamHTTPResponse {| http.wire := []; http.quota := Some q0 |})
              (streamHTTPResponse (http.reliable []))
              (closed None (pre ++ [x00])) eq_refl eq_refl eq_refl)
    as (h & Hq & Hd & _ & (_ & _ & Hw & _ & _)).
  { unfold cut. cbn. rewrite Nat.sub_0_r.
    refine (conj eq_refl (conj eq_refl (conj _ (conj eq_refl eq_refl)))).
    now destruct q0. }
  { exact Hrun. }
  exists (pre ++ [x00]), h. cbn in Hw, Hd.
  refine (conj Hrun (conj Hq (conj Hd (conj Hw _)))).
  intros Hlt dst Hnil. rewrite Hw in Hnil.
  destruct (waitForHTTPStream (firstn q0 (pre ++ [x00])) dst)
    as [out e] eqn:R.
  cbn [snd] in Hnil. subst e.
  apply stream_success_inv in R as (pre2 & data2 & rest & E & Hf2 & _).
  pose proof (firstn_skipn q0 (pre ++ [x00])) as Hsplit.
  rewrite E, <- app_assoc in Hsplit. cbn [app] in Hsplit.
  destruct (@framed_terminal_unique _ _ Hf2 _ _ _ _ Hf Hsplit) as [_ Hrest].
  apply app_eq_nil in Hrest as [_ Hrest].
  apply (f_equal (@length byte)) in Hrest.
  rewrite length_skipn in Hrest. cbn [length] in Hrest. lia.
Qed.

Lemma broken_connection_detected_witness :
  exists full h,
    run (stream_step example_Error) (streamHTTPResponse (http.reliable []))
      [stream_tick; Write [x07; x09]; CloseWithError None]
    = Some (closed None full)
    /\ run (stream_step example_Error)
         (streamHTTPResponse {| http.wire := []; http.quota := Some 4 |})
         [stream_tick; Write [x07; x09]; CloseWithError None]
       = Some h
    /\ done_nil h = true
    /\ http.wire (w (stream_conn h)) = firstn 4 full
    /\ (4 < length full ->
        forall dst,
          snd (waitForHTTPStream (http.wire (w (stream_conn h))) dst)
          <> None).
Proof.
  apply (@broken_connection_detected example_Error [[x07; x09]]
           [stream_tick; Write [x07; x09]; CloseWithError None] 4).
  - reflexivity.
  - repeat constructor.
Defined.

(** ** The single-payload reader on an arbitrary stream *)

Lemma response_split (s : list byte) :
  exists k tail,
    s = repeat x20 k ++ tail
    /\ waitForHTTPResponse s = waitForHTTPResponse tail
    /\ match tail with
       | [] => True
       | tag :: _ => tag <> x20
       end.
Proof.
  induction s as [|tag s (k & tail & E & R & T)].
  - exists 0, []. repeat split.
  - destruct (Byte.byte_eq_dec tag x20) as [->|N20].
    + exists (S k), tail. cbn [repeat app]. rewrite <- E. repeat split;
        assumption.
    + exists 0, (tag :: s). repeat split. exact N20.
Qed.

(** X29.  [waitForHTTPResponse] on every stream: it returns a payload and
    nil exactly when the stream is heartbeats followed by the success tag,
    the payload being everything after that tag; it returns a remote error
    text exactly when the stream is heartbeats followed by the error tag,
    the text being everything after that tag; and it returns a payload
    exactly when it returns no error. *)
Theorem response_result_iff (s : list byte) :
  (forall payload,
      waitForHTTPResponse s = (Some payload, None)
      <-> exists k, s = repeat x20 k ++ x00 :: payload)
  /\ (forall msg,
         waitForHTTPResponse s = (None, Some (errors_New msg))
         <-> exists k, s = repeat x20 k ++ x01 :: msg)
  /\ (fst (waitForHTTPResponse s) = None
      <-> snd (waitForHTTPResponse s) <> None).
Proof.
  destruct (response_split s) as (k & tail & -> & R & T). rewrite R.
  assert (Huniq : forall k2 t (rest : list byte),
             t <> x20 ->
             repeat x20 k ++ tail = repeat x20 k2 ++ t :: rest ->
             tail = t :: rest).
  { clear R. intros k2 t rest Ht. revert k2.
    induction k as [|k IH]; intros [|k2] E; cbn [repeat app] in E.
    - exact E.
    - destruct tail as [|tag tail]; [discriminate|].
      cbn in T. congruence.
    - congruence.
    - injection E as E. exact (IH k2 E). }
  refine (conj _ (conj _ _)).
  - intros payload. split.
    + intros H. exists k. f_equal.
      destruct tail as [|tag tail]; [discriminate|].
      destruct (Byte.byte_eq_dec tag x00) as [->|N00];
        [cbn in H; congruence|].
      destruct (Byte.byte_eq_dec tag x01) as [->|N01]; [discriminate|].
      rewrite response_other in H by assumption. discriminate.
    + intros (k2 & E). rewrite (Huniq k2 x00 payload) by (discriminate || exact E).
      reflexivity.
  - intros msg. split.
    + intros H. exists k. f_equal.
      destruct tail as [|tag tail]; [discriminate|].
      destruct (Byte.byte_eq_dec tag x00) as [->|N00]; [discriminate|].
      destruct (Byte.byte_eq_dec tag x01) as [->|N01];
        [cbn in H; unfold io.ReadAll in H; congruence|].
      rewrite response_other in H by assumption. discriminate.
    + intros (k2 & E). rewrite (Huniq k2 x01 msg) by (discriminate || exact E).
      reflexivity.
  - destruct tail as [|tag tail]; [cbn; split; [discriminate|reflexivity]|].
    destruct (Byte.byte_eq_dec tag x00) as [->|N00];
      [cbn; split; [discriminate|intros H; now contradiction H]|].
    destruct (Byte.byte_eq_dec tag x01) as [->|N01];
      [cbn; split; [discriminate|reflexivity]|].
    rewrite response_other by assumption.
    cbn; split; [discriminate|reflexivity].
Qed.

Lemma response_result_iff_witness :
  waitForHTTPResponse [x20; x20; x00; x07; x09] = (Some [x07; x09], None).
Proof.
  apply (proj2 (proj1 (response_result_iff [x20; x20; x00; x07; x09])
                  [x07; x09])).
  now exists 2.
Defined.
